(** * spii: term assembly (function.cpp) and the augmented Lagrangian
      loop (constrained_function.cpp)

    The development embeds the two translation units as Rocq functions
    and proves properties of the variable registry, of the Hessian
    assembly, of the Phi penalty term and of
    [ConstrainedFunction::solve].

    Conventions.
    - A C++ [double] is a value of a type [D] carrying the operations of
      the class [DoubleArith] (and [DoubleSpecial] for NaN and infinity).
      Every function of the source is written once, over an arbitrary such
      [D].  Two instances are given: [R_arith], exact real arithmetic
      (rounding and the special values are abstracted away), in which the
      algebraic identities are proved, and [b64_arith], IEEE 754 binary64
      as defined by the standard library's [SpecFloat], in which the code
      can be run and in which NaN behaves as it does in the program.
    - The build without OpenMP is modelled: one thread, [t = 0], and an
      exception leaves a loop at the point where it is thrown.
    - Timers and evaluation counters are not modelled, nor is the text
      sent to the solver's log function. *)

From Stdlib Require Import ZArith QArith Reals Lra Lia.
From Stdlib Require Import Floats.SpecFloat.
From stdpp Require Import gmap strings list fin_maps sorting.

(** ** Arithmetic on [double] *)

Declare Scope double_scope.
Delimit Scope double_scope with D.

Class DoubleArith (D : Type) : Type := {
  dlit : Q → D;            (* a literal of the source: 0.1, 1e-12, 100, ... *)
  dadd : D → D → D;
  dsub : D → D → D;
  dmul : D → D → D;
  ddiv : D → D → D;
  dneg : D → D;            (* unary minus *)
  dabs : D → D;            (* std::abs *)
  dltb : D → D → bool;     (* a < b *)
  dleb : D → D → bool;     (* a <= b *)
  dpow : D → D → D         (* std::pow *)
}.

Class DoubleSpecial (D : Type) : Type := {
  quiet_NaN : D;           (* numeric_limits<double>::quiet_NaN() *)
  infinity : D             (* numeric_limits<double>::infinity() *)
}.

Notation "a + b" := (dadd a b) : double_scope.
Notation "a - b" := (dsub a b) : double_scope.
Notation "a * b" := (dmul a b) : double_scope.
Notation "a / b" := (ddiv a b) : double_scope.
Notation "- a" := (dneg a) : double_scope.
Notation "a <? b" := (dltb a b) : double_scope.
Notation "a <=? b" := (dleb a b) : double_scope.
Notation "a >? b" := (dltb b a) : double_scope.

(** [std::max(a, b)] is [(a < b) ? b : a]. *)
Definition dmax {D} `{DoubleArith D} (a b : D) : D :=
  if (a <? b)%D then b else a.

(** ** Exceptions and loops *)

Inductive result (A : Type) : Type :=
  | Return (a : A)
  | Throw (what : string).
Arguments Return {A} a.
Arguments Throw {A} what.

(** [for (int i = 0; i < n; ++i) body] on a state [s]. *)
Definition for_loop {S : Type} (n : nat) (body : nat → S → S) (s : S) : S :=
  foldl (λ s i, body i s) s (seq 0 n).

(** The same loop when the body can throw: the loop stops there. *)
Fixpoint for_each {A S : Type} (l : list A) (body : A → S → result S) (s : S)
  : result S :=
  match l with
  | [] => Return s
  | a :: l' =>
      match body a s with
      | Return s' => for_each l' body s'
      | Throw what => Throw what
      end
  end.

(** A loop whose body can throw after it has changed the state: the
    state at the throw is kept, as the caller's output arguments keep what
    was written into them. *)
Inductive step (S : Type) : Type :=
  | Next (s : S)
  | Raise (what : string) (s : S).
Arguments Next {S} s.
Arguments Raise {S} what s.

Fixpoint for_each_step {A S : Type} (l : list A) (body : A → S → step S) (s : S)
  : step S :=
  match l with
  | [] => Next s
  | a :: l' =>
      match body a s with
      | Next s' => for_each_step l' body s'
      | Raise what s' => Raise what s'
      end
  end.

(** ** Machine integers *)

(** [size_t] is 64 bits wide; a conversion or an addition wraps. *)
Definition to_size_t (z : Z) : Z := (z mod 2 ^ 64)%Z.

(** [static_cast<int>] of a [size_t]: the low 32 bits, read as signed. *)
Definition static_cast_int (z : Z) : Z :=
  ((z + 2 ^ 31) mod 2 ^ 32 - 2 ^ 31)%Z.

(** A [double*] handed in by the user, in units of [sizeof(double)]:
    [p[i]] is the cell [p + i]. *)
Abbreviation ptr := Z (only parsing).

Section Embedding.
Context {D : Type} `{DoubleArith D}.

(** ** The data model of function.h, as function.cpp uses it *)

(** [std::vector<Eigen::VectorXd>]: one gradient vector per argument. *)
Abbreviation Gradient := (list (list D)) (only parsing).

(** [std::vector<std::vector<Eigen::MatrixXd>>]: entry [(i, j)] of the block
    of the arguments [var0] and [var1] is [h var0 var1 i j]. *)
Definition BlockHessian : Type := nat → nat → nat → nat → D.

(** A [Term]: the three [evaluate] overloads are three fields.  The
    arguments are the vectors [variables[0]], [variables[1]], ...; the
    gradient and Hessian overloads write into storage that the caller
    passes in, so they take the old content and return the new one.  The
    Hessian overload can throw ([Phi] always does).  The other two
    overloads are modelled at the calls that return: an exception that a
    term's own evaluator throws is not represented, and no property below
    concludes from this that a call returns. *)
Record Term : Type := {
  number_of_variables : nat;
  variable_dimension : nat → nat;
  evaluate : list (list D) → D;
  evaluate_gradient : list (list D) → Gradient → D * Gradient;
  evaluate_hessian :
    list (list D) → Gradient → BlockHessian → result (D * Gradient * BlockHessian)
}.

(** A [ChangeOfVariables].  [t_to_x] reads [t_dimension] solver values and
    gives the user values; [update_gradient g t gx] is the new content of
    the [t_dimension] gradient cells starting at the pointer it is given. *)
Record ChangeOfVariables : Type := {
  x_dimension : Z;
  t_dimension : Z;
  t_to_x : list D → list D;
  x_to_t : list D → list D;
  update_gradient : list D → list D → list D → list D
}.

(** An [AddedVariable].  function.h is not among the sources; the types
    are those function.cpp uses the fields at: the dimensions are compared
    with [int]s, [global_index] is read into a [size_t]. *)
Record AddedVariable : Type := {
  user_dimension : Z;
  solver_dimension : Z;
  global_index : Z;                                 (* size_t *)
  change_of_variables : option ChangeOfVariables;   (* None: NULL *)
  temp_space : list D
}.

(** An [AddedTerm].  [user_variables] holds pointers to entries of the
    [variables] map; an entry of a [std::map] never moves, so the pointer
    is modelled by the key of the entry.  [temp_variables] (pointers to the
    [temp_space] of the same entries) is read through the same keys. *)
Record AddedTerm : Type := {
  term : Term;
  user_variables : list ptr;
  hessian : BlockHessian
}.

(** The fields of [Function] that function.cpp reads and writes, in the
    build without OpenMP ([number_of_threads] is 1).  [added_terms], the set
    of the terms to delete in the destructor, is left out. *)
Record Function : Type := {
  number_of_scalars : Z;                            (* size_t *)
  hessian_is_enabled : bool;
  number_of_hessian_elements : Z;
  local_storage_allocated : bool;
  variables : gmap Z AddedVariable;                 (* std::map<double*, AddedVariable> *)
  terms : list AddedTerm
}.

Definition zero : D := dlit 0.

(** [x[k]] and [v[k] += d] on an [Eigen::VectorXd]; the index is in range
    in the program, the model reads zero and writes nothing otherwise. *)
Definition vec_get (x : list D) (k : Z) : D := default zero (x !! Z.to_nat k).

Definition vec_add (v : list D) (k : Z) (d : D) : list D :=
  alter (λ old, old + d)%D (Z.to_nat k) v.

Definition grad_get (g : list (list D)) (var i : nat) : D :=
  default zero (default [] (g !! var) !! i).

(** [g[i][j] = d] on a [std::vector<Eigen::VectorXd>]. *)
Definition grad_set (g : list (list D)) (var i : nat) (d : D) : list (list D) :=
  alter (λ row, <[i := d]> row) var g.

(** [Eigen::MatrixXd]. *)
Record DenseMatrix : Type := {
  rows : Z;
  cols : Z;
  coeff : Z → Z → D
}.

(** [m.coeffRef(r, c) += d]. *)
Definition coeff_add (m : DenseMatrix) (r c : Z) (d : D) : DenseMatrix :=
  {| rows := rows m;
     cols := cols m;
     coeff := λ r' c',
       if bool_decide (r' = r ∧ c' = c) then (coeff m r c + d)%D else coeff m r' c' |}.

(** [Eigen::Triplet<double>] and [Eigen::SparseMatrix<double>]: the
    matrix stores an entry at exactly the positions in [entries]. *)
Definition Triplet : Type := Z * Z * D.

Record SparseMatrix : Type := {
  sparse_rows : Z;
  sparse_cols : Z;
  entries : gmap (Z * Z) D
}.

(** [H.resize(r, c)]: the matrix is emptied. *)
Definition sparse_resize (r c : Z) (_ : SparseMatrix) : SparseMatrix :=
  {| sparse_rows := r; sparse_cols := c; entries := ∅ |}.

(** [H.setFromTriplets(begin, end)] as Eigen documents it: the previous
    content is dropped, every triplet gives a stored entry and the values
    of triplets at the same position are added.  [makeCompressed] changes
    the storage layout only. *)
Definition setFromTriplets (indices : list Triplet) (m : SparseMatrix) : SparseMatrix :=
  {| sparse_rows := sparse_rows m;
     sparse_cols := sparse_cols m;
     entries :=
       foldl (λ (e : gmap (Z * Z) D) (t : Triplet),
                <[(t.1.1, t.1.2) :=
                    match e !! (t.1.1, t.1.2) with
                    | Some w => (w + t.2)%D
                    | None => t.2
                    end]> e)
             ∅ indices |}.

(** The entry at [(i, j)] is stored: a structural nonzero. *)
Definition stored (m : SparseMatrix) (i j : Z) : Prop := is_Some (entries m !! (i, j)).

(** The positions of a list of triplets. *)
Definition positions (indices : list Triplet) : list (Z * Z) :=
  (λ t : Triplet, (t.1.1, t.1.2)) <$> indices.

End Embedding.

Arguments Term D : clear implicits.
Arguments ChangeOfVariables D : clear implicits.
Arguments AddedVariable D : clear implicits.
Arguments AddedTerm D : clear implicits.
Arguments Function D : clear implicits.
Arguments BlockHessian D : clear implicits.
Arguments DenseMatrix D : clear implicits.
Arguments SparseMatrix D : clear implicits.
Arguments Triplet D : clear implicits.

(** ** function.cpp *)

Module Function.
Section Function.
Context {D : Type} `{DoubleArith D}.

(** [Function::Function()]. *)
Definition new : Function D :=
  {| number_of_scalars := 0;
     hessian_is_enabled := true;
     number_of_hessian_elements := 0;
     local_storage_allocated := false;
     variables := ∅;
     terms := [] |}.

Definition set_local_storage_allocated (b : bool) (f : Function D) : Function D :=
  {| number_of_scalars := number_of_scalars f;
     hessian_is_enabled := hessian_is_enabled f;
     number_of_hessian_elements := number_of_hessian_elements f;
     local_storage_allocated := b;
     variables := variables f;
     terms := terms f |}.

(** The tail of [add_variable_internal], lines 82-89: the scratch space is
    resized ([std::vector::resize] throws [std::length_error] on a negative
    [int], which converts to a size above [max_size()]), the variable gets
    the next global index and the count of scalars grows. *)
Definition register_variable (variable : ptr) (user_dim solver_dim : Z)
    (cov : option (ChangeOfVariables D)) (f : Function D) : result (Function D) :=
  if bool_decide (user_dim < 0)%Z then Throw "vector::_M_default_append"
  else
    let var_info :=
      {| user_dimension := user_dim;
         solver_dimension := solver_dim;
         global_index := number_of_scalars f;
         change_of_variables := cov;
         temp_space := replicate (Z.to_nat user_dim) zero |} in
    Return
      {| number_of_scalars := to_size_t (number_of_scalars f + solver_dim);
         hessian_is_enabled := hessian_is_enabled f;
         number_of_hessian_elements := number_of_hessian_elements f;
         local_storage_allocated := local_storage_allocated f;
         variables := <[variable := var_info]> (variables f);
         terms := terms f |}.

(** [Function::add_variable_internal].  The object a throwing call leaves
    behind is not modelled: a [Throw] carries no state. *)
Definition add_variable_internal (variable : ptr) (dimension : Z)
    (change_of_variables : option (ChangeOfVariables D)) (f : Function D)
  : result (Function D) :=
  let f := set_local_storage_allocated false f in
  match variables f !! variable with
  | Some v =>
      if bool_decide (user_dimension v ≠ dimension)
      then Throw "Function::add_variable: dimension mismatch."
      else Return f
  | None =>
      match change_of_variables with
      | Some cov =>
          if bool_decide (dimension ≠ x_dimension cov)
          then Throw "Function::add_variable: dimension does not match the change of variables."
          else register_variable variable (x_dimension cov) (t_dimension cov)
                 change_of_variables f
      | None => register_variable variable dimension dimension None f
      end
  end.

(** The checking loop of [add_term], lines 100-109, for argument [var]. *)
Definition check_argument (f : Function D) (t : Term D) (arguments : list ptr)
    (var : nat) (_ : unit) : result unit :=
  match arguments !! var with
  | None => Throw "Function::add_term: unknown variable."
  | Some p =>
      match variables f !! p with
      | None => Throw "Function::add_term: unknown variable."
      | Some v =>
          if bool_decide (user_dimension v ≠ Z.of_nat (variable_dimension t var))
          then Throw "Function::add_term: variable dimension does not match term."
          else Return tt
      end
  end.

(** [Function::add_term(const Term*, const std::vector<double*>&)].  The
    block matrices of the new term are allocated when the Hessian is
    enabled; their entries are written by the term before they are read. *)
Definition add_term (t : Term D) (arguments : list ptr) (f : Function D)
  : result (Function D) :=
  let f := set_local_storage_allocated false f in
  if bool_decide (number_of_variables t ≠ length arguments)
  then Throw "Function::add_term: incorrect number of arguments."
  else
    match for_each (seq 0 (number_of_variables t)) (check_argument f t arguments) tt with
    | Throw what => Throw what
    | Return _ =>
        Return
          {| number_of_scalars := number_of_scalars f;
             hessian_is_enabled := hessian_is_enabled f;
             number_of_hessian_elements := number_of_hessian_elements f;
             local_storage_allocated := local_storage_allocated f;
             variables := variables f;
             terms := terms f ++
               [ {| term := t;
                    user_variables := arguments;
                    hessian := λ _ _ _ _, zero |} ] |}
    end.

Definition set_temp_space (ts : list D) (v : AddedVariable D) : AddedVariable D :=
  {| user_dimension := user_dimension v;
     solver_dimension := solver_dimension v;
     global_index := global_index v;
     change_of_variables := change_of_variables v;
     temp_space := ts |}.

Definition set_variables (vs : gmap Z (AddedVariable D)) (f : Function D) : Function D :=
  {| number_of_scalars := number_of_scalars f;
     hessian_is_enabled := hessian_is_enabled f;
     number_of_hessian_elements := number_of_hessian_elements f;
     local_storage_allocated := local_storage_allocated f;
     variables := vs;
     terms := terms f |}.

(** Following an [AddedVariable*] of a term.  [add_term] stores only
    pointers to registered variables and no variable is ever removed, so
    the entry exists; the default is never used on a Function built through
    [add_variable_internal] and [add_term]. *)
Definition null_variable : AddedVariable D :=
  {| user_dimension := 0; solver_dimension := 0; global_index := 0;
     change_of_variables := None; temp_space := [] |}.

Definition deref (f : Function D) (p : ptr) : AddedVariable D :=
  default null_variable (variables f !! p).

Definition argument (f : Function D) (t : AddedTerm D) (var : nat) : AddedVariable D :=
  deref f (default 0%Z (user_variables t !! var)).

(** [Function::copy_global_to_local]. *)
Definition copy_global_to_local (x : list D) (f : Function D) : Function D :=
  set_variables
    ((λ v,
       match change_of_variables v with
       | None =>
           set_temp_space
             (for_loop (Z.to_nat (user_dimension v))
                (λ i ts, <[i := vec_get x (global_index v + Z.of_nat i)]> ts)
                (temp_space v)) v
       | Some cov =>
           set_temp_space
             (t_to_x cov (take (Z.to_nat (t_dimension cov))
                            (drop (Z.to_nat (global_index v)) x))) v
       end) <$> variables f) f.

(** [Function::copy_user_to_local]: [user p] is the double stored at the
    address [p] of the user's memory, [itr->first[i]] is [user (p + i)]. *)
Definition copy_user_to_local (user : Z → D) (f : Function D) : Function D :=
  set_variables
    (map_imap
       (λ p v,
          Some (set_temp_space
                  (for_loop (Z.to_nat (user_dimension v))
                     (λ i ts, <[i := user (p + Z.of_nat i)%Z]> ts)
                     (temp_space v)) v))
       (variables f)) f.

(** [&terms[i].temp_variables[0]]: the scratch vectors of the arguments. *)
Definition term_arguments (f : Function D) (t : AddedTerm D) : list (list D) :=
  (λ p, temp_space (deref f p)) <$> user_variables t.

(** [Function::evaluate_from_local_storage]. *)
Definition evaluate_from_local_storage (f : Function D) : D :=
  foldl (λ value t, value + evaluate (term t) (term_arguments f t))%D zero (terms f).

(** [double Function::evaluate(const Eigen::VectorXd& x) const]. *)
Definition evaluate_at (x : list D) (f : Function D) : D :=
  evaluate_from_local_storage (copy_global_to_local x f).

(** [double Function::evaluate() const], at the user's current values. *)
Definition evaluate (user : Z → D) (f : Function D) : D :=
  evaluate_from_local_storage (copy_user_to_local user f).

(** Lines 443-462: the gradient of one term goes from the scratch vectors
    into the global gradient of the thread. *)
Definition scatter_gradient (f : Function D) (x : list D) (t : AddedTerm D)
    (scratch : list (list D)) (storage : list D) : list D :=
  for_loop (length (user_variables t))
    (λ var storage,
       let v := argument f t var in
       match change_of_variables v with
       | None =>
           for_loop (Z.to_nat (user_dimension v))
             (λ i storage,
                vec_add storage (global_index v + Z.of_nat i) (grad_get scratch var i))
             storage
       | Some cov =>
           let off := Z.to_nat (global_index v) in
           let n := Z.to_nat (t_dimension cov) in
           let g := update_gradient cov (take n (drop off storage))
                      (take n (drop off x)) (default [] (scratch !! var)) in
           for_loop n
             (λ i storage,
                match g !! i with
                | Some d => <[(off + i)%nat := d]> storage
                | None => storage
                end)
             storage
       end)
    storage.

(** The state of the loop over the terms: the running value, the scratch
    gradient of the thread, its global gradient, and the Hessian blocks the
    terms evaluated so far have written. *)
Record TermLoop : Type := {
  value : D;
  thread_gradient_scratch : list (list D);
  thread_gradient_storage : list D;
  term_hessians : list (BlockHessian D)
}.

(** Lines 428-462, the body of the loop of the dense overload for one
    term; [with_hessian] is [hessian != 0]. *)
Definition evaluate_term (with_hessian : bool) (f : Function D) (x : list D)
    (t : AddedTerm D) (s : TermLoop) : result TermLoop :=
  if with_hessian then
    match evaluate_hessian (term t) (term_arguments f t)
            (thread_gradient_scratch s) (hessian t) with
    | Throw what => Throw what
    | Return (v, scratch, h) =>
        Return {| value := (value s + v)%D;
                  thread_gradient_scratch := scratch;
                  thread_gradient_storage :=
                    scatter_gradient f x t scratch (thread_gradient_storage s);
                  term_hessians := term_hessians s ++ [h] |}
    end
  else
    let '(v, scratch) := evaluate_gradient (term t) (term_arguments f t)
                           (thread_gradient_scratch s) in
    Return {| value := (value s + v)%D;
              thread_gradient_scratch := scratch;
              thread_gradient_storage :=
                scatter_gradient f x t scratch (thread_gradient_storage s);
              term_hessians := term_hessians s ++ [hessian t] |}.

(** Lines 402-407: every thread's global gradient is set to zero. *)
Definition start_term_loop (scratch : list (list D)) (f : Function D) : TermLoop :=
  {| value := zero;
     thread_gradient_scratch := scratch;
     thread_gradient_storage := replicate (Z.to_nat (number_of_scalars f)) zero;
     term_hessians := [] |}.

(** Lines 490-498: the output gradient is resized, set to zero and the
    gradient of the (single) thread is added to it. *)
Definition assemble_gradient (storage : list D) : list D :=
  (λ g, zero + g)%D <$> storage.


(** Lines 516-525: one block of one term is added into the dense Hessian. *)
Definition scatter_block_dense (f : Function D) (t : AddedTerm D) (h : BlockHessian D)
    (var0 var1 : nat) (m : DenseMatrix D) : DenseMatrix D :=
  let global_offset0 := global_index (argument f t var0) in
  let global_offset1 := global_index (argument f t var1) in
  for_loop (variable_dimension (term t) var0)
    (λ i m,
       for_loop (variable_dimension (term t) var1)
         (λ j m,
            coeff_add m (to_size_t (Z.of_nat i + global_offset0))
                        (to_size_t (Z.of_nat j + global_offset1))
                        (h var0 var1 i j))
         m)
    m.

(** The message of the exception of line 512. *)
Definition not_supported_for_Hessians : string :=
  "Change of variables not supported for Hessians".

(** Lines 509-526 for one term: the loop over [var0] throws at the first
    argument that has a change of variables. *)
Definition scatter_term_dense (f : Function D) (th : AddedTerm D * BlockHessian D)
    (m : DenseMatrix D) : step (DenseMatrix D) :=
  for_each_step (seq 0 (number_of_variables (term th.1)))
    (λ var0 m,
       match change_of_variables (argument f th.1 var0) with
       | Some _ => Raise not_supported_for_Hessians m
       | None =>
           Next (for_loop (number_of_variables (term th.1))
                   (λ var1 m, scatter_block_dense f th.1 th.2 var0 var1 m) m)
       end)
    m.

(** [double Function::evaluate(const Eigen::VectorXd& x,
    Eigen::VectorXd* gradient, Eigen::MatrixXd* hessian) const].
    [gradient] and [hessian] are the objects the caller passes ([None]: a
    null [hessian]); the result gives the returned value or the exception,
    and the two objects as the call leaves them.  [scratch] is the content
    of [thread_gradient_scratch[0]] when the loop over the terms starts
    ([allocate_local_storage] sizes it and leaves its entries unset). *)
Definition evaluate_dense (x gradient : list D) (hessian : option (DenseMatrix D))
    (scratch : list (list D)) (f : Function D)
  : result D * list D * option (DenseMatrix D) :=
  if bool_decide (is_Some hessian) && negb (hessian_is_enabled f)
  then (Throw "Function::evaluate: Hessian computation is not enabled.", gradient, hessian)
  else
    let f := copy_global_to_local x f in
    match for_each (terms f) (evaluate_term (bool_decide (is_Some hessian)) f x)
            (start_term_loop scratch f) with
    | Throw what => (Throw what, gradient, hessian)
    | Return s =>
        let gradient := assemble_gradient (thread_gradient_storage s) in
        match hessian with
        | None => (Return (value s), gradient, None)
        | Some _ =>
            let n := static_cast_int (number_of_scalars f) in
            let m := {| rows := n; cols := n; coeff := λ _ _, zero |} in
            match for_each_step (zip (terms f) (term_hessians s))
                    (scatter_term_dense f) m with
            | Raise what m => (Throw what, gradient, Some m)
            | Next m => (Return (value s), gradient, Some m)
            end
        end
    end.

(** [double Function::evaluate(const Eigen::VectorXd& x,
    Eigen::VectorXd* gradient) const]. *)
Definition evaluate_with_gradient (x gradient : list D) (scratch : list (list D))
    (f : Function D) : result D * list D :=
  (evaluate_dense x gradient None scratch f).1.

(** Lines 277-295: the triplets of [create_sparse_hessian], all of value 1. *)
Definition pattern_triplets (f : Function D) : list (Triplet D) :=
  foldl
    (λ indices t,
       for_loop (number_of_variables (term t))
         (λ var0 indices,
            let global_offset0 := global_index (argument f t var0) in
            for_loop (number_of_variables (term t))
              (λ var1 indices,
                 let global_offset1 := global_index (argument f t var1) in
                 for_loop (variable_dimension (term t) var0)
                   (λ i indices,
                      for_loop (variable_dimension (term t) var1)
                        (λ j indices,
                           let global_i :=
                             static_cast_int (to_size_t (Z.of_nat i + global_offset0)) in
                           let global_j :=
                             static_cast_int (to_size_t (Z.of_nat j + global_offset1)) in
                           indices ++ [(global_i, global_j, dlit 1.0)])
                        indices)
                   indices)
              indices)
         indices)
    [] (terms f).

(** [void Function::create_sparse_hessian(Eigen::SparseMatrix<double>* H)
    const]: the new [*H] and the new [number_of_hessian_elements]. *)
Definition create_sparse_hessian (m : SparseMatrix D) (f : Function D)
  : SparseMatrix D * Z :=
  let indices := pattern_triplets f in
  (setFromTriplets indices
     (sparse_resize (static_cast_int (number_of_scalars f))
                    (static_cast_int (number_of_scalars f)) m),
   Z.of_nat (length indices)).

(** Lines 597-609: the gradient scatter of the sparse overload throws at
    an argument with a change of variables. *)
Definition scatter_gradient_sparse (f : Function D) (t : AddedTerm D)
    (scratch : list (list D)) (storage : list D) : result (list D) :=
  for_each (seq 0 (length (user_variables t)))
    (λ var storage,
       let v := argument f t var in
       match change_of_variables v with
       | Some _ => Throw "Change of variables not supported for sparse Hessian"
       | None =>
           Return
             (for_loop (Z.to_nat (user_dimension v))
                (λ i storage,
                   vec_add storage (global_index v + Z.of_nat i) (grad_get scratch var i))
                storage)
       end)
    storage.

(** Lines 590-609, the body of the loop of the sparse overload. *)
Definition evaluate_term_sparse (f : Function D) (t : AddedTerm D) (s : TermLoop)
  : result TermLoop :=
  match evaluate_hessian (term t) (term_arguments f t)
          (thread_gradient_scratch s) (hessian t) with
  | Throw what => Throw what
  | Return (v, scratch, h) =>
      match scatter_gradient_sparse f t scratch (thread_gradient_storage s) with
      | Throw what => Throw what
      | Return storage =>
          Return {| value := (value s + v)%D;
                    thread_gradient_scratch := scratch;
                    thread_gradient_storage := storage;
                    term_hessians := term_hessians s ++ [h] |}
      end
  end.

(** Lines 647-672: the triplets of the numeric sparse Hessian. *)
Definition hessian_triplets (f : Function D)
    (evaluated : list (AddedTerm D * BlockHessian D)) : list (Triplet D) :=
  foldl
    (λ indices th,
       for_loop (number_of_variables (term th.1))
         (λ var0 indices,
            let global_offset0 := global_index (argument f th.1 var0) in
            for_loop (number_of_variables (term th.1))
              (λ var1 indices,
                 let global_offset1 := global_index (argument f th.1 var1) in
                 let part_hessian := th.2 var0 var1 in
                 for_loop (variable_dimension (term th.1) var0)
                   (λ i indices,
                      for_loop (variable_dimension (term th.1) var1)
                        (λ j indices,
                           let global_i :=
                             static_cast_int (to_size_t (Z.of_nat i + global_offset0)) in
                           let global_j :=
                             static_cast_int (to_size_t (Z.of_nat j + global_offset1)) in
                           indices ++ [(global_i, global_j, part_hessian i j)])
                        indices)
                   indices)
              indices)
         indices)
    [] evaluated.

(** [double Function::evaluate(const Eigen::VectorXd& x,
    Eigen::VectorXd* gradient, Eigen::SparseMatrix<double>* hessian)
    const].  The outputs are written after the loop over the terms, so an
    exception leaves them as they were. *)
Definition evaluate_sparse (x gradient : list D) (hessian : option (SparseMatrix D))
    (scratch : list (list D)) (f : Function D)
  : result D * list D * option (SparseMatrix D) :=
  match hessian with
  | None => (Throw "Function::evaluate: hessian can not be null.", gradient, hessian)
  | Some m =>
      if negb (hessian_is_enabled f)
      then (Throw "Function::evaluate: Hessian computation is not enabled.",
            gradient, hessian)
      else
        let f := copy_global_to_local x f in
        match for_each (terms f) (evaluate_term_sparse f) (start_term_loop scratch f) with
        | Throw what => (Throw what, gradient, hessian)
        | Return s =>
            let indices := hessian_triplets f (zip (terms f) (term_hessians s)) in
            (Return (value s),
             assemble_gradient (thread_gradient_storage s),
             Some (setFromTriplets indices m))
        end
  end.


(** The keys of the [variables] map in the order in which a
    [for (auto itr = variables.begin(); ...)] loop meets them: increasing
    addresses. *)
Definition keys_in_order (m : gmap Z (AddedVariable D)) : list Z :=
  merge_sort Z.le (elements (dom m)).

(** [p[i] = d] in the user's memory. *)
Definition store (user : Z → D) (a : Z) (d : D) : Z → D :=
  λ b, if bool_decide (b = a) then d else user b.

(** The body of the loop of [Function::copy_user_to_global], lines
    328-337, for the variable at [p]. *)
Definition write_variable (user : Z → D) (f : Function D) (x : list D) (p : Z) : list D :=
  let v := deref f p in
  match change_of_variables v with
  | None =>
      for_loop (Z.to_nat (user_dimension v))
        (λ i x, <[Z.to_nat (global_index v + Z.of_nat i) := user (p + Z.of_nat i)%Z]> x)
        x
  | Some cov =>
      let off := Z.to_nat (global_index v) in
      let t := x_to_t cov ((λ i, user (p + Z.of_nat i)%Z)
                             <$> seq 0 (Z.to_nat (x_dimension cov))) in
      for_loop (Z.to_nat (t_dimension cov))
        (λ i x,
           match t !! i with
           | Some d => <[(off + i)%nat := d]> x
           | None => x
           end)
        x
  end.

(** [Function::copy_user_to_global].  [x] is the vector after
    [x->resize(number_of_scalars)], which leaves the entries unset when it
    changes the size. *)
Definition copy_user_to_global (user : Z → D) (x : list D) (f : Function D) : list D :=
  foldl (write_variable user f) x (keys_in_order (variables f)).

(** The body of the loop of [Function::copy_global_to_user], lines
    348-357, for the variable at [p]. *)
Definition read_variable (x : list D) (f : Function D) (user : Z → D) (p : Z) : Z → D :=
  let v := deref f p in
  match change_of_variables v with
  | None =>
      for_loop (Z.to_nat (user_dimension v))
        (λ i user,
           store user (p + Z.of_nat i) (vec_get x (global_index v + Z.of_nat i)))
        user
  | Some cov =>
      let xs := t_to_x cov (take (Z.to_nat (t_dimension cov))
                              (drop (Z.to_nat (global_index v)) x)) in
      for_loop (Z.to_nat (x_dimension cov))
        (λ i user,
           match xs !! i with
           | Some d => store user (p + Z.of_nat i) d
           | None => user
           end)
        user
  end.

(** [Function::copy_global_to_user]: the user's memory after the call. *)
Definition copy_global_to_user (x : list D) (user : Z → D) (f : Function D) : Z → D :=
  foldl (read_variable x f) user (keys_in_order (variables f)).

(** The two maxima of [Function::allocate_local_storage], lines 152-160:
    every thread gets [max_arity] scratch gradients of
    [max_variable_dimension] entries. *)
Definition max_variable_dimension (f : Function D) : Z :=
  foldl (λ acc p, Z.max acc (user_dimension (deref f p))) 1%Z
    (keys_in_order (variables f)).

Definition max_arity (f : Function D) : nat :=
  foldl (λ acc t, Nat.max acc (length (user_variables t))) 1%nat (terms f).

(** The triplets that one term contributes to the pattern of
    [create_sparse_hessian], lines 277-295: one for every pair of scalars
    of its arguments. *)
Definition term_pattern (f : Function D) (t : AddedTerm D) : list (Triplet D) :=
  var0 ← seq 0 (number_of_variables (term t));
  var1 ← seq 0 (number_of_variables (term t));
  i ← seq 0 (variable_dimension (term t) var0);
  j ← seq 0 (variable_dimension (term t) var1);
  [(static_cast_int (to_size_t (Z.of_nat i + global_index (argument f t var0))),
    static_cast_int (to_size_t (Z.of_nat j + global_index (argument f t var1))),
    dlit 1.0)].

(** The number of scalars that a term declares over all its arguments. *)
Definition term_scalars (t : Term D) : nat :=
  sum_list_with (variable_dimension t) (seq 0 (number_of_variables t)).

(** Modelled from the spec: [get_number_of_variables] is defined in
    function.h, which is not among the sources; the spec calls it the number
    of variables of the Function, here the size of the registry. *)
Definition get_number_of_variables (f : Function D) : nat := size (variables f).

End Function.

Arguments TermLoop D : clear implicits.

End Function.

(** ** constrained_function.cpp *)

(** *** The Phi wrapper *)

Module Phi.
Section Phi.
Context {D : Type} `{DoubleArith D}.

(** The wrapped term and the values [*sigma] and [*mu] that the two
    pointers of the object give when the evaluator runs. *)
Variable term : Term D.
Variables sigma mu : D.

Definition number_of_variables : nat := number_of_variables term.

Definition variable_dimension (var : nat) : nat := variable_dimension term var.

(** The test of lines 54 and 67 and the expressions of the two branches. *)
Definition active (t : D) : bool := (- t - sigma / mu <=? dlit 0)%D.

Definition active_value (t : D) : D := (sigma * t + (mu / dlit 2) * t * t)%D.

Definition inactive_value : D := (- dlit 1.0 / (dlit 2.0 * mu) * sigma * sigma)%D.

Definition active_gradient (t g : D) : D := (sigma * g + mu * t * g)%D.

Definition inactive_gradient : D := dlit 0.

(** [double evaluate(double * const * const variables) const]. *)
Definition evaluate (variables : list (list D)) : D :=
  let t := evaluate term variables in
  if active t then active_value t else inactive_value.

(** [double evaluate(double * const * const variables,
    std::vector<Eigen::VectorXd>* gradient) const]. *)
Definition evaluate_gradient (variables : list (list D)) (gradient : list (list D))
  : D * list (list D) :=
  let '(t, gradient) := evaluate_gradient term variables gradient in
  if active t then
    (active_value t,
     for_loop number_of_variables
       (λ i gradient,
          for_loop (variable_dimension i)
            (λ j gradient,
               grad_set gradient i j (active_gradient t (grad_get gradient i j)))
            gradient)
       gradient)
  else
    (inactive_value,
     for_loop number_of_variables
       (λ i gradient,
          for_loop (variable_dimension i)
            (λ j gradient, grad_set gradient i j inactive_gradient)
            gradient)
       gradient).

(** The Hessian overload: [check(false, ...)] throws. *)
Definition evaluate_hessian (variables : list (list D)) (gradient : list (list D))
    (hessian : BlockHessian D) : result (D * list (list D) * BlockHessian D) :=
  Throw "Phi: hessian not supported.".

(** The object as a [Term]. *)
Definition as_Term : Term D :=
  Build_Term number_of_variables variable_dimension
    evaluate evaluate_gradient evaluate_hessian.

End Phi.
End Phi.

(** *** ConstrainedFunction *)

(** Modelled from the spec: the exit conditions of [SolverResults]
    (solver.h is not among the sources), with the values section 4.6 of the
    specification names. *)
Inductive exit_condition : Type :=
  | INTERNAL_ERROR
  | FUNCTION_TOLERANCE
  | GRADIENT_TOLERANCE
  | NO_CONVERGENCE
  | ARGUMENT_TOLERANCE.

Module ConstrainedFunction.
Section ConstrainedFunction.
Context {D : Type} `{DoubleArith D} `{DoubleSpecial D}.

(** [class Constraint : public Function]. *)
Record Constraint : Type := {
  base : Function D;
  lambda : D;
  cached_value : D
}.

(** [ConstrainedFunction::Implementation].  [constraints] is a
    [std::map<std::string, Constraint>]; the list holds its entries in the
    order in which the map is traversed. *)
Record Implementation : Type := {
  mu : D;
  augmented_lagrangian : Function D;
  objective : Function D;
  constraints : list (string * Constraint)
}.

Record ConstrainedFunction : Type := {
  impl : Implementation;
  function_improvement_tolerance : D;
  dual_change_tolerance : D;
  max_number_of_iterations : Z
}.

(** The unconstrained solver is an external collaborator.  A call
    [solver.solve(impl->augmented_lagrangian, results)] moves the user's
    variables and writes [results->exit_condition].  The Phi terms of the
    augmented Lagrangian read [lambda] and [mu] through pointers into the
    Implementation, so what the solver does can depend on all of it.  A
    call that throws or does not return is not represented: [solve] has no
    [try] block, the exception would leave it with the [INTERNAL_ERROR] of
    line 159, and the properties below are about the runs in which every
    inner call returns. *)
Record Solver : Type := {
  solve_unconstrained : Implementation → (Z → D) → (Z → D) * exit_condition
}.

(** [bool ConstrainedFunction::is_feasible() const]; [user] is the user's
    memory, where [Function::evaluate()] reads the variables. *)
Fixpoint is_feasible_loop (user : Z → D) (cs : list (string * Constraint)) : bool :=
  match cs with
  | [] => true
  | itr :: cs' =>
      let c_x := Function.evaluate user (base itr.2) in
      if (c_x >? dlit 1e-12)%D then false else is_feasible_loop user cs'
  end.

Definition is_feasible (user : Z → D) (cf : ConstrainedFunction) : bool :=
  is_feasible_loop user (constraints (impl cf)).

(** Lines 182-191: every constraint is evaluated and its value cached. *)
Record Violation : Type := {
  cached : list (string * Constraint);
  infeasibility : D;
  max_violation : D
}.

Definition cache_values (user : Z → D) (cs : list (string * Constraint)) : Violation :=
  foldl
    (λ acc itr,
       let c_x := Function.evaluate user (base itr.2) in
       {| cached := cached acc ++
            [(itr.1, {| base := base itr.2; lambda := lambda itr.2; cached_value := c_x |})];
          infeasibility := dmax (infeasibility acc) (c_x * lambda itr.2)%D;
          max_violation := dmax (max_violation acc) c_x |})
    {| cached := []; infeasibility := (- infinity)%D; max_violation := dlit 0 |}
    cs.

(** Lines 221-227: the new multiplier of one constraint. *)
Definition new_lambda (mu c_x lambda : D) : D :=
  if (c_x + lambda / mu <=? dlit 0)%D then dlit 0 else (lambda + mu * c_x)%D.

(** Lines 215-230: the dual update of all constraints. *)
Record DualUpdate : Type := {
  updated : list (string * Constraint);
  max_change : D;
  max_lambda : D
}.

Definition update_duals (mu : D) (cs : list (string * Constraint)) : DualUpdate :=
  foldl
    (λ acc itr,
       let c_x := cached_value itr.2 in
       let prev := lambda itr.2 in
       let lambda := new_lambda mu c_x prev in
       {| updated := updated acc ++
            [(itr.1, {| base := base itr.2; lambda := lambda; cached_value := c_x |})];
          max_change := dmax (max_change acc) (dabs (prev - lambda)%D);
          max_lambda := dmax (max_lambda acc) (dabs lambda) |})
    {| updated := []; max_change := dlit 0; max_lambda := dlit 0 |}
    cs.

(** The test of lines 205-206. *)
Definition function_tolerance_reached (tolerance f f_prev : D) : bool :=
  (dabs (f - f_prev) / (dabs f + tolerance) <? tolerance)%D.

(** The state of [solve] at the head of the [while (true)] loop.
    [inner_exit_conditions] is not a variable of the program: it records
    what each call of the inner solver wrote into
    [results->exit_condition]. *)
Record State : Type := {
  implementation : Implementation;
  user_memory : Z → D;
  results : exit_condition;
  nu : D;
  f_prev : D;
  iterations : Z;
  inner_exit_conditions : list exit_condition
}.

Definition set_constraints (cs : list (string * Constraint)) (i : Implementation)
  : Implementation :=
  {| mu := mu i;
     augmented_lagrangian := augmented_lagrangian i;
     objective := objective i;
     constraints := cs |}.

Definition set_mu (m : D) (i : Implementation) : Implementation :=
  {| mu := m;
     augmented_lagrangian := augmented_lagrangian i;
     objective := objective i;
     constraints := constraints i |}.

(** What a turn of the loop that starts in [s] sees once the inner solver
    has run: the user's memory with the exit condition written, the value
    of the objective, and the scan of the constraints. *)
Definition after_solver (solver : Solver) (s : State) : (Z → D) * exit_condition :=
  solve_unconstrained solver (implementation s) (user_memory s).

Definition objective_value (solver : Solver) (s : State) : D :=
  Function.evaluate (after_solver solver s).1 (objective (implementation s)).

Definition violation (solver : Solver) (s : State) : Violation :=
  cache_values (after_solver solver s).1 (constraints (implementation s)).

(** The multipliers of the constraints, in the order of the map. *)
Definition multipliers (i : Implementation) : list D :=
  (λ itr, lambda itr.2) <$> constraints i.

(** One turn of the loop, lines 177-295: [inl] is a [break], [inr] goes
    to the next iteration. *)
Definition iteration (cf : ConstrainedFunction) (solver : Solver) (s : State)
  : State + State :=
  (* Minimize the smooth approximation of the Lagrangian. *)
  let '(user, written) := solve_unconstrained solver (implementation s) (user_memory s) in
  let inner := inner_exit_conditions s ++ [written] in
  let f := Function.evaluate user (objective (implementation s)) in
  let v := cache_values user (constraints (implementation s)) in
  let i := set_constraints (cached v) (implementation s) in
  if function_tolerance_reached (function_improvement_tolerance cf) f (f_prev s) then
    inl {| implementation := i; user_memory := user; results := FUNCTION_TOLERANCE;
           nu := nu s; f_prev := f_prev s; iterations := iterations s;
           inner_exit_conditions := inner |}
  else
    let after_update : State + (Implementation * D) :=
      if (max_violation v <=? nu s)%D then
        let d := update_duals (mu i) (constraints i) in
        let i := set_constraints (updated d) i in
        if (max_change d / (max_lambda d + dual_change_tolerance cf)
              <? dual_change_tolerance cf)%D
           && (max_violation v <? dlit 1e-8)%D
        then
          inl {| implementation := i; user_memory := user;
                 results := GRADIENT_TOLERANCE;
                 nu := nu s; f_prev := f_prev s; iterations := iterations s;
                 inner_exit_conditions := inner |}
        else inr (i, (nu s / dpow (mu i) (dlit 0.9))%D)
      else
        let i := set_mu (mu i * dlit 100)%D i in
        inr (i, (dlit 1.0 / dpow (mu i) (dlit 0.1))%D) in
    match after_update with
    | inl s' => inl s'
    | inr (i, nu') =>
        let iterations := (iterations s + 1)%Z in
        if bool_decide (max_number_of_iterations cf ≤ iterations)%Z then
          inl {| implementation := i; user_memory := user; results := NO_CONVERGENCE;
                 nu := nu'; f_prev := f_prev s; iterations := iterations;
                 inner_exit_conditions := inner |}
        else
          inr {| implementation := i; user_memory := user; results := written;
                 nu := nu'; f_prev := f; iterations := iterations;
                 inner_exit_conditions := inner |}
    end.

(** [while (true)], with a bound on the number of turns. *)
Fixpoint loop (fuel : nat) (cf : ConstrainedFunction) (solver : Solver) (s : State)
  : option State :=
  match fuel with
  | O => None
  | S fuel' =>
      match iteration cf solver s with
      | inl s' => Some s'
      | inr s' => loop fuel' cf solver s'
      end
  end.

(** What a call of [solve] leaves behind when it returns. *)
Record Solved : Type := {
  final_implementation : Implementation;
  final_user_memory : Z → D;
  final_results : exit_condition;
  solver_calls : list exit_condition
}.

Definition finish (s : State) : Solved :=
  {| final_implementation := implementation s;
     final_user_memory := user_memory s;
     final_results := results s;
     solver_calls := inner_exit_conditions s |}.

(** The exit conditions the loop itself writes. *)
Definition written_by_loop (e : exit_condition) : Prop :=
  e = FUNCTION_TOLERANCE ∨ e = GRADIENT_TOLERANCE ∨ e = NO_CONVERGENCE.

(** Two states that differ at most in [results] and in the record of what
    the inner solver wrote. *)
Definition same_but_results (s1 s2 : State) : Prop :=
  implementation s1 = implementation s2 ∧ user_memory s1 = user_memory s2 ∧
  nu s1 = nu s2 ∧ f_prev s1 = f_prev s2 ∧ iterations s1 = iterations s2 ∧
  length (inner_exit_conditions s1) = length (inner_exit_conditions s2).

(** Two outcomes of [solve] that differ at most in what the inner solver
    wrote at each of its calls. *)
Definition same_outcome (r1 r2 : option Solved) : Prop :=
  match r1, r2 with
  | Some a, Some b =>
      final_implementation a = final_implementation b ∧
      final_user_memory a = final_user_memory b ∧
      final_results a = final_results b ∧
      length (solver_calls a) = length (solver_calls b)
  | None, None => True
  | _, _ => False
  end.

(** The part of the constraints that [solve] only reads: their names and
    their functions. *)
Definition names_and_bases (cs : list (string * Constraint)) : list (string * Function D) :=
  (λ itr, (itr.1, base itr.2)) <$> cs.

(** [void ConstrainedFunction::solve(const Solver& solver,
    SolverResults* results)]. *)
Definition solve (fuel : nat) (solver : Solver) (user : Z → D) (cf : ConstrainedFunction)
  : option Solved :=
  let results := INTERNAL_ERROR in
  if bool_decide (Function.get_number_of_variables (augmented_lagrangian (impl cf)) = 0%nat)
  then
    Some {| final_implementation := impl cf; final_user_memory := user;
            final_results := FUNCTION_TOLERANCE; solver_calls := [] |}
  else
    let i := set_mu (dlit 10) (impl cf) in
    let nu := (dlit 1.0 / dpow (mu i) (dlit 0.1))%D in
    finish <$>
      loop fuel cf solver
        {| implementation := i; user_memory := user; results := results;
           nu := nu; f_prev := quiet_NaN; iterations := 0;
           inner_exit_conditions := [] |}.

End ConstrainedFunction.

Arguments Constraint D : clear implicits.
Arguments Implementation D : clear implicits.
Arguments ConstrainedFunction D : clear implicits.
Arguments Solver D : clear implicits.
Arguments State D : clear implicits.
Arguments Solved D : clear implicits.
Arguments Violation D : clear implicits.
Arguments DualUpdate D : clear implicits.

End ConstrainedFunction.

(** ** The two arithmetics *)

(** Exact real arithmetic: what the program computes when rounding is
    ignored and no special value occurs. *)
#[global] Instance R_arith : DoubleArith R :=
  {| dlit := Q2R;
     dadd := Rplus;
     dsub := Rminus;
     dmul := Rmult;
     ddiv := Rdiv;
     dneg := Ropp;
     dabs := Rabs;
     dltb := λ a b, if Rlt_dec a b then true else false;
     dleb := λ a b, if Rle_dec a b then true else false;
     dpow := Rpower |}.

(** IEEE 754 binary64.  A literal is the quotient, rounded to nearest, of
    two integers that binary64 represents exactly, which is the double
    nearest to the decimal.  [std::pow] belongs to the C library and is a
    parameter. *)
Definition b64_of_Z (z : Z) : spec_float := binary_normalize 53 1024 z 0 false.

Definition b64_lit (q : Q) : spec_float :=
  SFdiv 53 1024 (b64_of_Z (Qnum q)) (b64_of_Z (Zpos (Qden q))).

Definition b64_arith (pow : spec_float → spec_float → spec_float)
  : DoubleArith spec_float :=
  {| dlit := b64_lit;
     dadd := SFadd 53 1024;
     dsub := SFsub 53 1024;
     dmul := SFmul 53 1024;
     ddiv := SFdiv 53 1024;
     dneg := SFopp;
     dabs := SFabs;
     dltb := SFltb;
     dleb := SFleb;
     dpow := pow |}.

#[global] Instance b64_special : DoubleSpecial spec_float :=
  {| quiet_NaN := S754_nan; infinity := S754_infinity false |}.

(** [std::isnan]. *)
Definition is_nan (x : spec_float) : bool :=
  match x with S754_nan => true | _ => false end.

(** The place of a binary64 value in the order that the comparisons of
    IEEE 754 use: the sign class first, then the exponent, then the
    mantissa, the last two negated for negative values.  The two zeros
    have one place; NaN has none, and is given that of zero. *)
Definition SFrank (x : spec_float) : Z * Z * Z :=
  match x with
  | S754_nan => (0, 0, 0)%Z
  | S754_zero _ => (0, 0, 0)%Z
  | S754_infinity true => (-2, 0, 0)%Z
  | S754_infinity false => (2, 0, 0)%Z
  | S754_finite true m e => (-1, - e, - Z.pos m)%Z
  | S754_finite false m e => (1, e, Z.pos m)%Z
  end.

Definition rank_lt (p q : Z * Z * Z) : Prop :=
  (p.1.1 < q.1.1 ∨
   p.1.1 = q.1.1 ∧ (p.1.2 < q.1.2 ∨ p.1.2 = q.1.2 ∧ p.2 < q.2))%Z.

(** ** Sequences of registrations *)

Section Calls.
Context {D : Type} `{DoubleArith D}.

(** A call of [add_variable_internal] or of [add_term] on a Function. *)
Inductive call : Type :=
  | add_variable (variable : ptr) (dimension : Z)
      (change_of_variables : option (ChangeOfVariables D))
  | add_term (t : Term D) (arguments : list ptr).

Definition perform (c : call) (f : Function D) : result (Function D) :=
  match c with
  | add_variable p d cov => Function.add_variable_internal p d cov f
  | add_term t args => Function.add_term t args f
  end.

(** The calls are made one after the other and all return. *)
Definition perform_all (cs : list call) (f : Function D) : result (Function D) :=
  for_each cs perform f.

(** The variables in the order of their first registration. *)
Definition note_registration (order : list ptr) (c : call) : list ptr :=
  match c with
  | add_variable p _ _ => if bool_decide (p ∈ order) then order else order ++ [p]
  | add_term _ _ => order
  end.

Definition registration_order (cs : list call) : list ptr :=
  foldl note_registration [] cs.

(** The sum of [solver_dimension] over the registry, and over the
    variables at the given keys. *)
Definition solver_total (f : Function D) : Z :=
  map_fold (λ _ v acc, solver_dimension v + acc)%Z 0%Z (variables f).

Definition solver_sum (f : Function D) (ps : list ptr) : Z :=
  foldr (λ p acc, solver_dimension (Function.deref f p) + acc)%Z 0%Z ps.

(** What the registry satisfies after the registrations [order]: the
    count of scalars and the global indices are the wrapped running sums. *)
Definition registry_inv (order : list ptr) (f : Function D) : Prop :=
  NoDup order ∧
  (∀ p, p ∈ order ↔ is_Some (variables f !! p)) ∧
  number_of_scalars f = to_size_t (solver_sum f order) ∧
  (∀ k p, order !! k = Some p →
     global_index (Function.deref f p) = to_size_t (solver_sum f (take k order))).

(** A change of variables reports a dimension of the solver's space that
    is not negative. *)
Definition nonnegative_t_dimension (c : call) : Prop :=
  match c with
  | add_variable _ _ (Some cov) => (0 ≤ t_dimension cov)%Z
  | _ => True
  end.

(** A call returns: it ends without an exception. *)
Definition returns {A : Type} (r : result A) : Prop := ∃ a, r = Return a.

(** What the data model asks of a registered variable: the dimensions
    follow the change of variables, when there is one, and the scratch
    space has the user's dimension. *)
Definition well_formed_variable (v : AddedVariable D) : Prop :=
  (0 ≤ user_dimension v)%Z ∧
  length (temp_space v) = Z.to_nat (user_dimension v) ∧
  match change_of_variables v with
  | None => solver_dimension v = user_dimension v
  | Some cov => user_dimension v = x_dimension cov ∧ solver_dimension v = t_dimension cov
  end.

(** What the data model asks of an added term: as many arguments as the
    term has variables, each a registered variable of the dimension the
    term declares. *)
Definition well_formed_term (f : Function D) (t : AddedTerm D) : Prop :=
  number_of_variables (term t) = length (user_variables t) ∧
  ∀ var p, user_variables t !! var = Some p →
    ∃ v, variables f !! p = Some v ∧
         user_dimension v = Z.of_nat (variable_dimension (term t) var).

Definition well_formed (f : Function D) : Prop :=
  (∀ p v, variables f !! p = Some v → well_formed_variable v) ∧
  Forall (well_formed_term f) (terms f).

(** The variables take disjoint ranges of the solver's vector, all inside
    [0, number_of_scalars). *)
Definition disjoint_ranges (f : Function D) : Prop :=
  (∀ p v, variables f !! p = Some v →
     (0 ≤ global_index v)%Z ∧
     (global_index v + solver_dimension v ≤ number_of_scalars f)%Z) ∧
  (∀ p q v w, p ≠ q → variables f !! p = Some v → variables f !! q = Some w →
     (global_index v + solver_dimension v ≤ global_index w)%Z ∨
     (global_index w + solver_dimension w ≤ global_index v)%Z).

(** No variable has a change of variables. *)
Definition plain (f : Function D) : Prop :=
  ∀ p v, variables f !! p = Some v → change_of_variables v = None.

(** What the copies between the user's memory and the vector [x] of the
    solver need in order to be inverse to one another: no change of
    variables and the layout that [add_variable_internal] gives. *)
Definition copy_ready (f : Function D) (x : list D) : Prop :=
  plain f ∧ disjoint_ranges f ∧
  (∀ p v, variables f !! p = Some v →
     (0 ≤ user_dimension v)%Z ∧ solver_dimension v = user_dimension v) ∧
  length x = Z.to_nat (number_of_scalars f).

(** A call that gives no change of variables. *)
Definition without_change_of_variables (c : call) : Prop :=
  match c with
  | add_variable _ _ (Some _) => False
  | _ => True
  end.

End Calls.

(** ** Gradients entry by entry *)

(** [g'] has the shape of [g]; its entry [(i, j)] is [F] of the entry of [g]
    where [P i j] holds and the entry of [g] elsewhere. *)
Definition entries_related {D : Type} (P : nat → nat → Prop) (F : D → D)
    (g g' : list (list D)) : Prop :=
  length g' = length g ∧
  ∀ i row, g !! i = Some row →
    ∃ row', g' !! i = Some row' ∧ length row' = length row ∧
      ∀ j x, row !! j = Some x →
        (P i j → row' !! j = Some (F x)) ∧ (¬ P i j → row' !! j = Some x).

(** ** Concrete programs *)

Module Examples.

(** [std::pow] at the arguments the runs below reach: the binary64 value
    nearest to the power, which is what the C library returns there. *)
Definition pow (x y : spec_float) : spec_float :=
  if SFeqb x (b64_lit 10) && SFeqb y (b64_lit 0.1)
  then S754_finite false 5669696015443460 (-52)        (* 1.2589254117941673 *)
  else if SFeqb x (b64_lit 10) && SFeqb y (b64_lit 0.9)
  then S754_finite false 8943340854785346 (-50)        (* 7.943282347242816 *)
  else if SFeqb x (b64_lit 1000) && SFeqb y (b64_lit 0.1)
  then S754_finite false 8985862618200240 (-52)        (* 1.9952623149688797 *)
  else if SFeqb x (b64_lit 1000) && SFeqb y (b64_lit 0.9)
  then S754_finite false 8816979057057162 (-44)        (* 501.18723362727235 *)
  else S754_nan.

#[local] Instance arith : DoubleArith spec_float := b64_arith pow.

(** The term [x ↦ x] of one scalar variable. *)
Definition identity : Term spec_float :=
  {| number_of_variables := 1;
     variable_dimension := λ _, 1%nat;
     evaluate := λ variables, grad_get variables 0 0;
     evaluate_gradient := λ variables _, (grad_get variables 0 0, [[b64_lit 1]]);
     evaluate_hessian := λ variables _ _,
       Return (grad_get variables 0 0, [[b64_lit 1]], λ _ _ _ _, b64_lit 0) |}.

(** The term of one scalar variable with the constant value [c]. *)
Definition constant (c : spec_float) : Term spec_float :=
  {| number_of_variables := 1;
     variable_dimension := λ _, 1%nat;
     evaluate := λ _, c;
     evaluate_gradient := λ _ _, (c, [[b64_lit 0]]);
     evaluate_hessian := λ _ _ _, Return (c, [[b64_lit 0]], λ _ _ _ _, b64_lit 0) |}.

(** The Function of one scalar variable at address 0 and one term. *)
Definition function_of (t : Term spec_float) : Function spec_float :=
  match perform_all [add_variable 0 1 None; add_term t [0%Z]] Function.new with
  | Return f => f
  | Throw _ => Function.new
  end.

(** Minimise [x] subject to a constraint of constant value [c]. *)
Definition problem (c : spec_float) (max_iterations : Z)
  : ConstrainedFunction.ConstrainedFunction spec_float :=
  {| ConstrainedFunction.impl :=
       {| ConstrainedFunction.mu := b64_lit 0;
          ConstrainedFunction.augmented_lagrangian := function_of identity;
          ConstrainedFunction.objective := function_of identity;
          ConstrainedFunction.constraints :=
            [("c"%string,
              {| ConstrainedFunction.base := function_of (constant c);
                 ConstrainedFunction.lambda := b64_lit 0;
                 ConstrainedFunction.cached_value := b64_lit 0 |})] |};
     ConstrainedFunction.function_improvement_tolerance := b64_lit 1e-12;
     ConstrainedFunction.dual_change_tolerance := b64_lit 1e-8;
     ConstrainedFunction.max_number_of_iterations := max_iterations |}.

(** An inner solver that adds one to every cell of the user's memory and
    reports an internal error. *)
Definition failing_solver : ConstrainedFunction.Solver spec_float :=
  {| ConstrainedFunction.solve_unconstrained :=
       λ _ user, (λ p, SFadd 53 1024 (user p) (b64_lit 1), INTERNAL_ERROR) |}.

(** An inner solver that leaves the user's memory as it is. *)
Definition idle_solver : ConstrainedFunction.Solver spec_float :=
  {| ConstrainedFunction.solve_unconstrained :=
       λ _ user, (user, GRADIENT_TOLERANCE) |}.

(** The user's memory with 0 in every cell. *)
Definition memory : Z → spec_float := λ _, b64_lit 0.

(** The state of the loop of [solve] on [problem c n] after [mu = 10], with
    [nu] chosen at will. *)
Definition state_of (c nu : spec_float) : ConstrainedFunction.State spec_float :=
  {| ConstrainedFunction.implementation :=
       ConstrainedFunction.set_mu (b64_lit 10) (ConstrainedFunction.impl (problem c 10));
     ConstrainedFunction.user_memory := memory;
     ConstrainedFunction.results := INTERNAL_ERROR;
     ConstrainedFunction.nu := nu;
     ConstrainedFunction.f_prev := S754_nan;
     ConstrainedFunction.iterations := 0;
     ConstrainedFunction.inner_exit_conditions := [] |}.

(** The change of variables [x = 2 t] of one scalar. *)
Definition doubling : ChangeOfVariables spec_float :=
  {| x_dimension := 1;
     t_dimension := 1;
     t_to_x := map (λ t, SFmul 53 1024 (b64_lit 2) t);
     x_to_t := map (λ x, SFdiv 53 1024 x (b64_lit 2));
     update_gradient := λ g _ gx,
       zip_with (λ a b, SFadd 53 1024 a (SFmul 53 1024 (b64_lit 2) b)) g gx |}.

(** The Function [x ↦ x] whose variable goes through [doubling]. *)
Definition transformed : Function spec_float :=
  match perform_all [add_variable 0 1 (Some doubling); add_term identity [0%Z]]
          Function.new with
  | Return f => f
  | Throw _ => Function.new
  end.

(** A change of variables from three user values to two solver values. *)
Definition projection : ChangeOfVariables spec_float :=
  {| x_dimension := 3;
     t_dimension := 2;
     t_to_x := λ t, t ++ [b64_lit 0];
     x_to_t := take 2;
     update_gradient := λ g _ gx, zip_with (SFadd 53 1024) g gx |}.

(** A term of two arguments, of dimensions 2 and 3, with the value 0. *)
Definition pair : Term spec_float :=
  {| number_of_variables := 2;
     variable_dimension := λ var, match var with O => 2%nat | _ => 3%nat end;
     evaluate := λ _, b64_lit 0;
     evaluate_gradient := λ _ gradient, (b64_lit 0, gradient);
     evaluate_hessian := λ _ gradient h, Return (b64_lit 0, gradient, h) |}.

(** Three variables are registered, one of them twice, and a term is
    added in between. *)
Definition registrations : list call :=
  [add_variable 0 2 None; add_variable 16 3 (Some projection);
   add_variable 0 2 None; add_term pair [0%Z; 16%Z]; add_variable 8 1 None].

(** The Function the registrations build. *)
Definition registered : Function spec_float :=
  match perform_all registrations Function.new with
  | Return f => f
  | Throw _ => Function.new
  end.

(** A change of variables that reports a negative dimension of the
    solver's space; line 75 takes [t_dimension()] as it comes. *)
Definition negative : ChangeOfVariables spec_float :=
  {| x_dimension := 1;
     t_dimension := -2;
     t_to_x := λ _, [b64_lit 0];
     x_to_t := λ _, [];
     update_gradient := λ g _ _, g |}.

(** A variable with that change of variables, then a plain one. *)
Definition negative_registrations : list call :=
  [add_variable 0 1 (Some negative); add_variable 8 1 None].

Definition negative_registered : Function spec_float :=
  match perform_all negative_registrations Function.new with
  | Return f => f
  | Throw _ => Function.new
  end.

(** The term [x ↦ x] of one scalar variable, in exact arithmetic. *)
Definition real_identity : Term R :=
  {| number_of_variables := 1;
     variable_dimension := λ _, 1%nat;
     evaluate := λ variables, grad_get variables 0 0;
     evaluate_gradient := λ variables _, (grad_get variables 0 0, [[1%R]]);
     evaluate_hessian := λ variables _ _,
       Return (grad_get variables 0 0, [[1%R]], λ _ _ _ _, 0%R) |}.

(** The Function whose one term is the Phi of [x ↦ x] with [sigma = 1] and
    [mu = 2]. *)
Definition penalised : Function spec_float :=
  function_of (Phi.as_Term identity (b64_lit 1) (b64_lit 2)).

(** Two variables without a change of variables, registered against the
    order of their addresses, and the term [x ↦ x] on the first. *)
Definition plain_registrations : list call :=
  [add_variable 8 1 None; add_variable 0 2 None; add_term identity [8%Z]].

Definition plain_registered : Function spec_float :=
  match perform_all plain_registrations Function.new with
  | Return f => f
  | Throw _ => Function.new
  end.

(** The user's memory whose cell [p] holds the number [p]. *)
Definition counting : Z → spec_float := b64_of_Z.

End Examples.

(** * Properties *)

(** ** The variable registry *)

Section Registry.
Context {D : Type} `{DoubleArith D}.
Implicit Types (f : Function D) (order : list Z).

Lemma to_size_t_add_l a b : to_size_t (to_size_t a + b) = to_size_t (a + b).
Proof. unfold to_size_t. by rewrite Zplus_mod_idemp_l. Qed.

Lemma to_size_t_small a : (0 ≤ a < 2 ^ 64)%Z → to_size_t a = a.
Proof. intros. unfold to_size_t. by apply Z.mod_small. Qed.

Lemma solver_sum_app f ps qs :
  solver_sum f (ps ++ qs) = (solver_sum f ps + solver_sum f qs)%Z.
Proof.
  unfold solver_sum. induction ps as [|p ps IH]; simpl; [done|]. rewrite IH. lia.
Qed.

Lemma solver_sum_ext f f' ps :
  (∀ p, p ∈ ps → variables f' !! p = variables f !! p) →
  solver_sum f' ps = solver_sum f ps.
Proof.
  induction ps as [|p ps IH]; intros Hsame; [done|].
  unfold solver_sum in *. simpl. rewrite IH.
  - unfold Function.deref. rewrite (Hsame p); [done|]. apply list_elem_of_here.
  - intros q Hq. apply Hsame. by apply list_elem_of_further.
Qed.

Lemma registry_inv_new : registry_inv [] (Function.new (D := D)).
Proof.
  repeat split.
  - constructor.
  - intros Hp. by apply not_elem_of_nil in Hp.
  - simpl. rewrite lookup_empty. by intros [? ?].
  - intros k p Hk. done.
Qed.

(** A call that returns keeps every variable already registered as it is. *)
Lemma perform_keeps (c : call) f f' p v :
  perform c f = Return f' → variables f !! p = Some v → variables f' !! p = Some v.
Proof.
  destruct c as [q d cov|t args]; simpl.
  - unfold Function.add_variable_internal. simpl.
    destruct (variables f !! q) as [w|] eqn:Hq.
    + case_bool_decide; [done|]. intros [= <-]. done.
    + intros Hreg Hp.
      assert (q ≠ p) as Hne by (intros ->; congruence).
      destruct cov as [cv|]; [case_bool_decide; [done|] |];
        unfold Function.register_variable in Hreg;
        case_bool_decide; try done; injection Hreg as <-; simpl;
        by rewrite lookup_insert_ne.
  - unfold Function.add_term. case_bool_decide; [done|].
    destruct (for_each _ _ _); [|done]. intros [= <-]. done.
Qed.

Lemma register_variable_inv order f p ud sd cov f' :
  registry_inv order f → variables f !! p = None →
  Function.register_variable p ud sd cov (Function.set_local_storage_allocated false f)
    = Return f' →
  registry_inv (order ++ [p]) f'.
Proof.
  intros (Hnd & Hdom & Hns & Hgi) Hp Hreg.
  unfold Function.register_variable in Hreg. case_bool_decide; [done|].
  injection Hreg as <-.
  assert (p ∉ order) as Hfresh.
  { intros Hin. apply Hdom in Hin. rewrite Hp in Hin. by destruct Hin. }
  set (f' := Build_Function _ _ _ _ _ _).
  assert (∀ qs, p ∉ qs → solver_sum f' qs = solver_sum f qs) as Hsum.
  { intros qs Hqs. apply solver_sum_ext. intros q Hq. simpl.
    rewrite lookup_insert_ne; [done|]. intros ->. done. }
  assert (solver_sum f' [p] = sd) as Hone.
  { unfold solver_sum, Function.deref. simpl. rewrite lookup_insert_eq. simpl. lia. }
  repeat split.
  - apply NoDup_app. repeat split; [done| |apply NoDup_singleton].
    intros q Hq Hq'. apply list_elem_of_singleton in Hq'. by subst q.
  - intros Hin. simpl. apply elem_of_app in Hin as [Hin|Hin].
    + rewrite lookup_insert_ne; [by apply Hdom|]. intros ->. done.
    + apply list_elem_of_singleton in Hin as ->. rewrite lookup_insert_eq. eauto.
  - simpl. intros Hq. apply elem_of_app.
    destruct (decide (p = p0)) as [->|Hne].
    + right. apply list_elem_of_here.
    + left. apply Hdom. by rewrite lookup_insert_ne in Hq.
  - simpl. rewrite solver_sum_app, Hone, (Hsum order Hfresh), Hns.
    apply to_size_t_add_l.
  - intros k q Hk.
    destruct (decide (k < length order)%nat) as [Hlt|Hge].
    + rewrite lookup_app_l in Hk by done.
      assert (q ∈ order) as Hq by (by eapply list_elem_of_lookup_2).
      assert (q ≠ p) as Hne by (intros ->; done).
      rewrite take_app_le by lia.
      rewrite Hsum.
      * rewrite <- (Hgi k q Hk). unfold Function.deref. simpl.
        by rewrite lookup_insert_ne.
      * intros Hin. apply Hfresh. by eapply subseteq_take.
    + rewrite lookup_app_r in Hk by lia.
      destruct (k - length order)%nat as [|n] eqn:Hk'; [|by destruct n].
      injection Hk as <-.
      assert (k = length order) as -> by lia.
      rewrite take_app_length, (Hsum order Hfresh).
      unfold Function.deref. simpl. rewrite lookup_insert_eq. simpl. done.
Qed.

Lemma perform_inv (c : call) order f f' :
  registry_inv order f → perform c f = Return f' →
  registry_inv (note_registration order c) f'.
Proof.
  intros Hinv Hc. destruct c as [q d cov|t args]; simpl in *.
  - unfold Function.add_variable_internal in Hc. simpl in Hc.
    destruct (variables f !! q) as [w|] eqn:Hq.
    + case_bool_decide; [done|]. injection Hc as <-.
      destruct Hinv as (Hnd & Hdom & Hns & Hgi).
      rewrite bool_decide_eq_true_2 by (apply Hdom; eauto).
      done.
    + assert (q ∉ order) as Hfresh.
      { destruct Hinv as (_ & Hdom & _). intros Hin. apply Hdom in Hin.
        rewrite Hq in Hin. by destruct Hin. }
      rewrite bool_decide_eq_false_2 by done.
      destruct cov as [cv|]; [case_bool_decide; [done|] |];
        by eapply register_variable_inv.
  - unfold Function.add_term in Hc. case_bool_decide; [done|].
    destruct (for_each _ _ _); [|done]. injection Hc as <-. done.
Qed.

Lemma perform_all_inv (cs : list call) order f f' :
  registry_inv order f → perform_all cs f = Return f' →
  registry_inv (foldl note_registration order cs) f'.
Proof.
  revert order f. induction cs as [|c cs IH]; intros order f Hinv Hrun; simpl in *.
  - by injection Hrun as <-.
  - unfold perform_all in Hrun. simpl in Hrun.
    destruct (perform c f) as [f1|] eqn:Hc; [|done].
    eapply IH; [|exact Hrun]. by eapply perform_inv.
Qed.

Lemma perform_all_keeps (cs : list call) f f' p v :
  perform_all cs f = Return f' → variables f !! p = Some v →
  variables f' !! p = Some v.
Proof.
  revert f. induction cs as [|c cs IH]; intros f Hrun Hp; unfold perform_all in *;
    simpl in *.
  - by injection Hrun as <-.
  - destruct (perform c f) as [f1|] eqn:Hc; [|done].
    eapply IH; [exact Hrun|]. by eapply perform_keeps.
Qed.


Lemma perform_nonnegative (c : call) f f' :
  nonnegative_t_dimension c → perform c f = Return f' →
  (∀ p v, variables f !! p = Some v → (0 ≤ solver_dimension v)%Z) →
  ∀ p v, variables f' !! p = Some v → (0 ≤ solver_dimension v)%Z.
Proof.
  intros Hc Hrun Hf p v. destruct c as [q d cov|t args]; simpl in *.
  - unfold Function.add_variable_internal in Hrun. simpl in Hrun.
    destruct (variables f !! q) as [w|] eqn:Hq.
    + case_bool_decide; [done|]. injection Hrun as <-. apply Hf.
    + destruct cov as [cv|]; [case_bool_decide; [done|] |];
        unfold Function.register_variable in Hrun;
        case_bool_decide; try done; injection Hrun as <-; simpl;
        (destruct (decide (q = p)) as [->|Hne];
         [rewrite lookup_insert_eq; intros [= <-]; simpl; lia
         |rewrite lookup_insert_ne by done; apply Hf]).
  - unfold Function.add_term in Hrun. case_bool_decide; [done|].
    destruct (for_each _ _ _); [|done]. injection Hrun as <-. apply Hf.
Qed.

Lemma perform_all_nonnegative (cs : list call) f f' :
  Forall nonnegative_t_dimension cs → perform_all cs f = Return f' →
  (∀ p v, variables f !! p = Some v → (0 ≤ solver_dimension v)%Z) →
  ∀ p v, variables f' !! p = Some v → (0 ≤ solver_dimension v)%Z.
Proof.
  intros Hcs. revert f. induction Hcs as [|c cs Hc Hcs IH]; intros f Hrun Hf;
    unfold perform_all in *; simpl in *.
  - by injection Hrun as <-.
  - destruct (perform c f) as [f1|] eqn:Hc1; [|done].
    eapply IH; [exact Hrun|]. by eapply perform_nonnegative.
Qed.

Lemma solver_sum_nonnegative f ps :
  (∀ p v, variables f !! p = Some v → (0 ≤ solver_dimension v)%Z) →
  (0 ≤ solver_sum f ps)%Z.
Proof.
  intros Hf. induction ps as [|p ps IH]; unfold solver_sum in *; simpl; [lia|].
  unfold Function.deref at 1. destruct (variables f !! p) as [v|] eqn:Hp; simpl.
  - specialize (Hf p v Hp). lia.
  - lia.
Qed.

Lemma solver_sum_take f ps k :
  (∀ p v, variables f !! p = Some v → (0 ≤ solver_dimension v)%Z) →
  (0 ≤ solver_sum f (take k ps) ≤ solver_sum f ps)%Z.
Proof.
  intros Hf. rewrite <- (take_drop k ps) at 3. rewrite solver_sum_app.
  pose proof (solver_sum_nonnegative f (take k ps) Hf).
  pose proof (solver_sum_nonnegative f (drop k ps) Hf). lia.
Qed.

(** The sum over the registry is the sum along any duplicate-free list of
    its keys. *)
Lemma solver_total_sum order f :
  NoDup order → (∀ p, p ∈ order ↔ is_Some (variables f !! p)) →
  solver_total f = solver_sum f order.
Proof.
  revert f. induction order as [|p order IH]; intros f Hnd Hdom.
  - assert (variables f = ∅) as Hempty.
    { apply map_empty. intros q. destruct (variables f !! q) eqn:Hq; [|done].
      assert (q ∈ []) as Hin by (apply Hdom; eauto). by apply not_elem_of_nil in Hin. }
    unfold solver_total. rewrite Hempty. by rewrite map_fold_empty.
  - apply NoDup_cons in Hnd as [Hp Hnd].
    destruct (Hdom p) as [[v Hv] _]; [apply list_elem_of_here|].
    set (g := Function.set_variables (delete p (variables f)) f).
    assert (solver_total g = solver_sum g order) as Hg.
    { apply IH; [done|]. intros q. simpl. split.
      - intros Hq. rewrite lookup_delete_ne by (intros ->; done).
        apply Hdom. by apply list_elem_of_further.
      - intros Hq. destruct (decide (p = q)) as [->|Hne].
        + rewrite lookup_delete_eq in Hq. by destruct Hq.
        + rewrite lookup_delete_ne in Hq by done. apply Hdom in Hq.
          apply elem_of_cons in Hq as [->|Hq]; done. }
    assert (solver_sum g order = solver_sum f order) as Hsame.
    { apply solver_sum_ext. intros q Hq. simpl.
      apply lookup_delete_ne. intros ->. done. }
    unfold solver_total in *. simpl in Hg.
    rewrite <- (insert_delete_id (variables f) p v Hv).
    rewrite map_fold_insert_L.
    + rewrite Hg, Hsame. unfold solver_sum at 2. simpl.
      unfold Function.deref at 1. by rewrite Hv.
    + intros. lia.
    + apply lookup_delete_eq.
Qed.

(** C4, as amended.  Index consistency.  Variables and terms are added to
    a new Function by calls that all return; every change of variables
    reports a
    nonnegative [t_dimension] and the dimensions add up to less than 2^64,
    the range of [size_t].  Then the sum of [solver_dimension] over the
    registry is [number_of_scalars]; the registered variables are those of
    [registration_order]; the [global_index] of each is the sum of
    [solver_dimension] over the variables registered before it; and no
    further call of [add_variable_internal] or [add_term] changes the
    [global_index] of a registered variable. *)
Theorem index_consistency (calls : list call) f :
  perform_all calls Function.new = Return f →
  Forall nonnegative_t_dimension calls →
  (solver_total f < 2 ^ 64)%Z →
  solver_total f = number_of_scalars f ∧
  (∀ p, is_Some (variables f !! p) ↔ p ∈ registration_order calls) ∧
  (∀ k p, registration_order calls !! k = Some p →
     ∃ v, variables f !! p = Some v ∧
          global_index v = solver_sum f (take k (registration_order calls))) ∧
  (∀ more f' p v,
     perform_all more f = Return f' → variables f !! p = Some v →
     ∃ v', variables f' !! p = Some v' ∧ global_index v' = global_index v).
Proof.
  intros Hrun Hwf Hfit.
  pose proof (perform_all_inv calls [] _ f registry_inv_new Hrun)
    as (Hnd & Hdom & Hns & Hgi).
  fold (registration_order calls) in *.
  assert (∀ p v, variables f !! p = Some v → (0 ≤ solver_dimension v)%Z) as Hpos.
  { eapply perform_all_nonnegative; [exact Hwf|exact Hrun|].
    intros p v. simpl. by rewrite lookup_empty. }
  pose proof (solver_total_sum _ f Hnd Hdom) as Htotal.
  repeat split.
  - rewrite Hns, <- Htotal. symmetry. apply to_size_t_small.
    pose proof (solver_sum_nonnegative f (registration_order calls) Hpos). lia.
  - apply Hdom.
  - apply Hdom.
  - intros k p Hk.
    destruct (Hdom p) as [[v Hv] _]; [by eapply list_elem_of_lookup_2|].
    exists v. split; [done|].
    specialize (Hgi k p Hk). unfold Function.deref in Hgi. rewrite Hv in Hgi.
    simpl in Hgi. rewrite Hgi. apply to_size_t_small.
    pose proof (solver_sum_take f (registration_order calls) k Hpos). lia.
  - intros more f' p v Hmore Hv. exists v. split; [|done].
    by eapply perform_all_keeps.
Qed.

End Registry.

(** ** Loops *)

Section Loops.
Context {S : Type}.

Lemma for_loop_S (n : nat) (body : nat → S → S) (s : S) :
  for_loop (Datatypes.S n) body s = body n (for_loop n body s).
Proof. unfold for_loop. by rewrite seq_S, foldl_snoc. Qed.

(** The invariant rule of a counted loop. *)
Lemma for_loop_invariant (I : nat → S → Prop) (n : nat) (body : nat → S → S) (s : S) :
  I 0%nat s →
  (∀ k s', (k < n)%nat → I k s' → I (Datatypes.S k) (body k s')) →
  I n (for_loop n body s).
Proof.
  intros Hstart Hstep. induction n as [|n IH].
  - exact Hstart.
  - rewrite for_loop_S. apply Hstep; [lia|]. apply IH. intros k s' Hk. apply Hstep. lia.
Qed.

End Loops.

(** ** The Phi wrapper *)

Section GradientEntries.
Context {D : Type} `{DoubleArith D}.

Lemma entries_related_refl (F : D → D) (g : list (list D)) :
  entries_related (λ _ _, False) F g g.
Proof.
  split; [done|]. intros i row Hi. exists row. repeat split; [done|tauto|done].
Qed.

Lemma entries_related_weaken (P Q : nat → nat → Prop) (F : D → D) g g' :
  (∀ i j, P i j ↔ Q i j) → entries_related P F g g' → entries_related Q F g g'.
Proof.
  intros HPQ [Hlen Hrel]. split; [done|]. intros i row Hi.
  destruct (Hrel i row Hi) as (row' & Hi' & Hlen' & Hent).
  exists row'. repeat split; try done; intros HQ; apply (Hent j x); try done.
  - by apply HPQ.
  - intros HP. apply HQ. by apply HPQ.
Qed.

(** One assignment [g[i][j] = F(g[i][j])] at an entry not yet rewritten. *)
Lemma entries_related_set (P : nat → nat → Prop) (F : D → D) g g' (i j : nat) :
  ¬ P i j → entries_related P F g g' →
  entries_related (λ i' j', P i' j' ∨ (i' = i ∧ j' = j)) F g
    (grad_set g' i j (F (grad_get g' i j))).
Proof.
  intros Hnew [Hlen Hrel]. unfold grad_set. split.
  - by rewrite length_alter.
  - intros i' row Hi'. destruct (Hrel i' row Hi') as (row' & Hg' & Hlen' & Hent).
    destruct (decide (i' = i)) as [->|Hne].
    + exists (<[j := F (grad_get g' i j)]> row'). repeat split.
      * rewrite list_lookup_alter_eq, Hg'. done.
      * by rewrite length_insert.
      * intros [HP|[_ ->]].
        -- destruct (decide (j0 = j)) as [->|Hj]; [done|].
           rewrite list_lookup_insert_ne by done. by apply (Hent j0 x).
        -- assert (row' !! j = Some x) as Hold by (by apply (Hent j x)).
           unfold grad_get. rewrite Hg'. simpl. rewrite Hold. simpl.
           apply list_lookup_insert_eq. rewrite Hlen'. by eapply lookup_lt_Some.
      * intros Hno. rewrite list_lookup_insert_ne by (intros ->; tauto).
        apply (Hent j0 x); [done|tauto].
    + exists row'. repeat split.
      * by rewrite list_lookup_alter_ne.
      * done.
      * intros [HP|[? _]]; [by apply (Hent j0 x)|done].
      * intros Hno. apply (Hent j0 x); [done|tauto].
Qed.

(** The two nested loops of [Phi::evaluate] rewrite exactly the entries of
    the arguments of the term. *)
Lemma gradient_loops (F : D → D) (n : nat) (dim : nat → nat) (g : list (list D)) :
  entries_related (λ i j, (i < n)%nat ∧ (j < dim i)%nat) F g
    (for_loop n
       (λ i g, for_loop (dim i) (λ j g, grad_set g i j (F (grad_get g i j))) g) g).
Proof.
  apply (for_loop_invariant
           (λ k g', entries_related (λ i j, (i < k)%nat ∧ (j < dim i)%nat) F g g')).
  - eapply entries_related_weaken; [|apply entries_related_refl]. intros; simpl; lia.
  - intros k g' Hk Hinv.
    apply (entries_related_weaken
             (λ i j, ((i < k)%nat ∧ (j < dim i)%nat) ∨ (i = k ∧ (j < dim k)%nat))).
    { intros i j. split.
      - intros [[? ?]|[-> ?]]; lia.
      - intros [? ?]. destruct (decide (i = k)) as [->|]; [right|left]; lia. }
    apply (for_loop_invariant
             (λ m g'', entries_related
                (λ i j, ((i < k)%nat ∧ (j < dim i)%nat) ∨ (i = k ∧ (j < m)%nat)) F g g'')).
    + eapply entries_related_weaken; [|exact Hinv]. intros; simpl; lia.
    + intros m g'' Hm Hinner.
      eapply entries_related_weaken; [|apply entries_related_set; [|exact Hinner]].
      * intros; simpl; lia.
      * simpl. lia.
Qed.

End GradientEntries.

Section PhiReal.
Open Scope R_scope.

Lemma lit_0 : Q2R 0 = 0.
Proof. unfold Q2R. cbn. lra. Qed.

Lemma lit_1 : Q2R 1.0 = 1.
Proof. unfold Q2R. cbn. lra. Qed.

Lemma lit_2 : Q2R 2 = 2.
Proof. unfold Q2R. cbn. lra. Qed.

Lemma lit_2_0 : Q2R 2.0 = 2.
Proof. unfold Q2R. cbn. lra. Qed.

Lemma Phi_active_real (sigma mu t : R) :
  Phi.active sigma mu t = true ↔ - t - sigma / mu <= 0.
Proof.
  unfold Phi.active. simpl. rewrite lit_0.
  destruct (Rle_dec (- t - sigma / mu) 0); split; intros; done.
Qed.

Lemma Phi_active_value_real (sigma mu t : R) :
  Phi.active_value sigma mu t = sigma * t + mu / 2 * t ^ 2.
Proof. unfold Phi.active_value. simpl. rewrite lit_2. lra. Qed.

Lemma Phi_inactive_value_real (sigma mu : R) :
  Phi.inactive_value sigma mu = - sigma ^ 2 / (2 * mu).
Proof.
  unfold Phi.inactive_value. simpl. rewrite lit_1, lit_2_0.
  unfold Rdiv. ring.
Qed.

Lemma Phi_active_gradient_real (sigma mu t g : R) :
  Phi.active_gradient sigma mu t g = (sigma + mu * t) * g.
Proof. unfold Phi.active_gradient. simpl. ring. Qed.

(** C1.  The Phi wrapper in exact arithmetic, for [mu > 0].  With [t] the
    value of the wrapped term: when [-t - sigma/mu <= 0] the value is
    [sigma*t + (mu/2)*t^2] and every gradient entry of an argument is
    [(sigma + mu*t)] times the entry the wrapped term wrote; otherwise the
    value is [-sigma^2/(2*mu)] and every such entry is 0.  The first two
    parts are the value-only evaluator, the last two the evaluator with
    gradient. *)
Theorem Phi_evaluate_spec (term : Term R) (sigma mu : R)
    (variables gradient : list (list R)) :
  0 < mu →
  let phi := Phi.as_Term term sigma mu in
  let t := evaluate term variables in
  let tg := evaluate_gradient term variables gradient in
  let out := evaluate_gradient phi variables gradient in
  (- t - sigma / mu <= 0 → evaluate phi variables = sigma * t + mu / 2 * t ^ 2) ∧
  (¬ - t - sigma / mu <= 0 → evaluate phi variables = - sigma ^ 2 / (2 * mu)) ∧
  (- tg.1 - sigma / mu <= 0 →
     out.1 = sigma * tg.1 + mu / 2 * tg.1 ^ 2 ∧
     ∀ i j row x,
       (i < number_of_variables term)%nat → (j < variable_dimension term i)%nat →
       tg.2 !! i = Some row → row !! j = Some x →
       ∃ row', out.2 !! i = Some row' ∧ row' !! j = Some ((sigma + mu * tg.1) * x)) ∧
  (¬ - tg.1 - sigma / mu <= 0 →
     out.1 = - sigma ^ 2 / (2 * mu) ∧
     ∀ i j row x,
       (i < number_of_variables term)%nat → (j < variable_dimension term i)%nat →
       tg.2 !! i = Some row → row !! j = Some x →
       ∃ row', out.2 !! i = Some row' ∧ row' !! j = Some 0).
Proof.
  intros Hmu phi t tg out. subst phi t tg out.
  unfold Phi.as_Term. cbn [evaluate evaluate_gradient].
  unfold Phi.evaluate, Phi.evaluate_gradient.
  destruct (evaluate_gradient term variables gradient) as [t g] eqn:Hg.
  cbn [fst snd].
  split; [|split; [|split]].
  - intros Hle. apply Phi_active_real in Hle. rewrite Hle.
    apply Phi_active_value_real.
  - intros Hgt. destruct (Phi.active sigma mu _) eqn:Hact.
    + apply Phi_active_real in Hact. done.
    + apply Phi_inactive_value_real.
  - intros Hle. apply Phi_active_real in Hle. rewrite Hle. cbn [fst snd].
    split; [apply Phi_active_value_real|].
    intros i j row x Hi Hj Hrow Hx.
    destruct (gradient_loops (Phi.active_gradient sigma mu t)
                (Phi.number_of_variables term) (Phi.variable_dimension term) g)
      as [_ Hrel].
    destruct (Hrel i row Hrow) as (row' & Hrow' & _ & Hent).
    exists row'. split; [exact Hrow'|].
    rewrite <- Phi_active_gradient_real. by apply (Hent j x).
  - intros Hgt. destruct (Phi.active sigma mu t) eqn:Hact.
    + apply Phi_active_real in Hact. done.
    + cbn [fst snd]. split; [apply Phi_inactive_value_real|].
      intros i j row x Hi Hj Hrow Hx.
      destruct (gradient_loops (λ _, Phi.inactive_gradient (D := R))
                  (Phi.number_of_variables term) (Phi.variable_dimension term) g)
        as [_ Hrel].
      destruct (Hrel i row Hrow) as (row' & Hrow' & _ & Hent).
      exists row'. split; [exact Hrow'|].
      rewrite <- lit_0. by apply (Hent j x).
Qed.

(** C5.  Phi at the switching surface, in exact arithmetic with [mu > 0]:
    at [t = -sigma/mu] the test of the evaluators selects the first branch,
    the value of the first branch is the value of the second, and the
    gradient factor of the first branch gives the zero gradient of the
    second.  Hence, for a wrapped term whose value is [-sigma/mu], the
    evaluator returns the value of the second branch, and the evaluator
    with gradient returns that value and writes 0, the gradient of the
    second branch, into every entry of every argument. *)
Theorem Phi_branches_agree (sigma mu : R) :
  0 < mu →
  let t := - sigma / mu in
  Phi.active sigma mu t = true ∧
  Phi.active_value sigma mu t = Phi.inactive_value sigma mu ∧
  (∀ g, Phi.active_gradient sigma mu t g = Phi.inactive_gradient) ∧
  (∀ (term : Term R) variables,
     evaluate term variables = t →
     Phi.evaluate term sigma mu variables = Phi.inactive_value sigma mu) ∧
  (∀ (term : Term R) variables gradient,
     let tg := evaluate_gradient term variables gradient in
     let out := Phi.evaluate_gradient term sigma mu variables gradient in
     tg.1 = t →
     out.1 = Phi.inactive_value sigma mu ∧
     ∀ i j row x,
       (i < number_of_variables term)%nat → (j < variable_dimension term i)%nat →
       tg.2 !! i = Some row → row !! j = Some x →
       ∃ row', out.2 !! i = Some row' ∧
               row' !! j = Some ((sigma + mu * t) * x) ∧ (sigma + mu * t) * x = 0).
Proof.
  intros Hmu t.
  assert (Phi.active sigma mu t = true) as Hact.
  { apply Phi_active_real. subst t. apply Req_le. field. lra. }
  assert (Phi.active_value sigma mu t = Phi.inactive_value sigma mu) as Hval.
  { rewrite Phi_active_value_real, Phi_inactive_value_real. subst t. field. lra. }
  split; [done|]. split; [done|]. split; [|split].
  - intros g. rewrite Phi_active_gradient_real. unfold Phi.inactive_gradient.
    simpl. rewrite lit_0. subst t. field. lra.
  - intros term variables Ht. unfold Phi.evaluate. rewrite Ht, Hact. exact Hval.
  - intros term variables gradient. cbn zeta. unfold Phi.evaluate_gradient.
    destruct (evaluate_gradient term variables gradient) as [t' g]. cbn [fst snd].
    intros ->. rewrite Hact. cbn [fst snd]. split; [exact Hval|].
    intros i j row x Hi Hj Hrow Hx.
    destruct (gradient_loops (Phi.active_gradient sigma mu t)
                (Phi.number_of_variables term) (Phi.variable_dimension term) g)
      as [_ Hrel].
    destruct (Hrel i row Hrow) as (row' & Hrow' & _ & Hent).
    exists row'. split; [exact Hrow'|]. split.
    + rewrite <- Phi_active_gradient_real. by apply (Hent j x).
    + subst t. field. lra.
Qed.

End PhiReal.

(** ** The dual update *)

Section DualUpdate.
Context {D : Type} `{DoubleArith D}.

(** The loop of lines 217-230 gives every constraint the multiplier
    [new_lambda] of its own cached value and old multiplier. *)
Lemma update_duals_updated (mu : D) (cs : list (string * ConstrainedFunction.Constraint D)) :
  ConstrainedFunction.updated (ConstrainedFunction.update_duals mu cs) =
  (λ itr, (itr.1,
           {| ConstrainedFunction.base := ConstrainedFunction.base itr.2;
              ConstrainedFunction.lambda :=
                ConstrainedFunction.new_lambda mu
                  (ConstrainedFunction.cached_value itr.2)
                  (ConstrainedFunction.lambda itr.2);
              ConstrainedFunction.cached_value :=
                ConstrainedFunction.cached_value itr.2 |})) <$> cs.
Proof.
  unfold ConstrainedFunction.update_duals.
  set (step := λ acc itr, _).
  set (upd := λ itr, _).
  assert (∀ acc, ConstrainedFunction.updated (foldl step acc cs) =
                 ConstrainedFunction.updated acc ++ (upd <$> cs)) as Hgen.
  { induction cs as [|itr cs IH]; intros acc; simpl.
    - by rewrite app_nil_r.
    - rewrite IH. simpl. by rewrite <- app_assoc. }
  by rewrite Hgen.
Qed.

End DualUpdate.

Section DualUpdateReal.
Open Scope R_scope.

Lemma new_lambda_real (mu c lambda : R) :
  ConstrainedFunction.new_lambda mu c lambda =
  if Rle_dec (c + lambda / mu) 0 then 0 else lambda + mu * c.
Proof.
  unfold ConstrainedFunction.new_lambda. simpl. rewrite lit_0.
  by destruct (Rle_dec (c + lambda / mu) 0).
Qed.

(** C2, as amended.  The dual update in exact arithmetic, for [mu > 0]:
    every constraint gets the multiplier [new_lambda]; when
    [c + lambda/mu > 0] it is [lambda + mu*c], which is positive, and it
    exceeds the old multiplier exactly when [c > 0]; when
    [c + lambda/mu <= 0] it is 0. *)
Theorem dual_update_spec (mu : R) (cs : list (string * ConstrainedFunction.Constraint R)) :
  0 < mu →
  map (λ itr, ConstrainedFunction.lambda itr.2)
      (ConstrainedFunction.updated (ConstrainedFunction.update_duals mu cs)) =
  map (λ itr, ConstrainedFunction.new_lambda mu
                (ConstrainedFunction.cached_value itr.2)
                (ConstrainedFunction.lambda itr.2)) cs ∧
  ∀ c lambda,
    (c + lambda / mu > 0 →
       ConstrainedFunction.new_lambda mu c lambda = lambda + mu * c ∧
       ConstrainedFunction.new_lambda mu c lambda > 0 ∧
       (ConstrainedFunction.new_lambda mu c lambda > lambda ↔ c > 0)) ∧
    (c + lambda / mu <= 0 → ConstrainedFunction.new_lambda mu c lambda = 0).
Proof.
  intros Hmu. split.
  - rewrite update_duals_updated. rewrite <- list_fmap_compose. done.
  - intros c lambda. rewrite new_lambda_real.
    assert (lambda + mu * c = mu * (c + lambda / mu)) as Hfactor by (field; lra).
    destruct (Rle_dec (c + lambda / mu) 0) as [Hle|Hgt]; split; try lra.
    intros Hpos. split; [done|]. split.
    + rewrite Hfactor. apply Rmult_lt_0_compat; lra.
    + split; intros Hc.
      * assert (0 < mu * c) as Hprod by lra.
        destruct (Rle_or_lt c 0) as [Hneg|]; [|lra].
        assert (mu * c <= mu * 0) by (apply Rmult_le_compat_l; lra). lra.
      * assert (0 < mu * c) by (apply Rmult_lt_0_compat; lra). lra.
Qed.

(** In exact arithmetic too the test [a <= b] fails whenever [a > b], and
    [1.0 / pow(mu, 0.1)] is [mu] to the power [-0.1]. *)
Lemma Rgt_not_le_test (a b : R) : (a >? b)%D = true → (a <=? b)%D = false.
Proof.
  simpl. destruct (Rlt_dec b a), (Rle_dec a b); try done. lra.
Qed.

Lemma reset_nu_real (mu : R) :
  (dlit 1.0 / dpow mu (dlit 0.1))%D = Rpower mu (- (1 / 10)).
Proof.
  simpl. rewrite lit_1, Rpower_Ropp.
  replace (Q2R 0.1) with (1 / 10) by (unfold Q2R; cbn; lra).
  unfold Rdiv at 1. by rewrite Rmult_1_l.
Qed.

(** C2 as stated fails: with [mu = 10], [lambda = 20] and [c = -1] the
    test [c + lambda/mu > 0] holds, and the new multiplier [lambda + mu*c]
    is 10, below the old one. *)
Lemma dual_update_can_decrease :
  0 < 10 ∧ -1 + 20 / 10 > 0 ∧
  ConstrainedFunction.new_lambda 10 (-1) 20 = 20 + 10 * -1 ∧
  ¬ ConstrainedFunction.new_lambda 10 (-1) 20 > 20.
Proof.
  rewrite new_lambda_real.
  destruct (Rle_dec (-1 + 20 / 10) 0) as [Hle|Hgt]; [lra|].
  repeat split; lra.
Qed.

End DualUpdateReal.

(** ** The outer loop *)

Section Solve.
Context {D : Type} `{DoubleArith D} `{DoubleSpecial D}.
Implicit Types (cf : ConstrainedFunction.ConstrainedFunction D)
  (solver : ConstrainedFunction.Solver D) (s : ConstrainedFunction.State D).

Import ConstrainedFunction.

Lemma cache_values_multipliers (user : Z → D) (cs : list (string * Constraint D)) :
  (λ itr, lambda itr.2) <$> cached (cache_values user cs) = (λ itr, lambda itr.2) <$> cs.
Proof.
  unfold cache_values.
  set (step := λ acc itr, _).
  assert (∀ acc, (λ itr, lambda itr.2) <$> cached (foldl step acc cs) =
                 ((λ itr, lambda itr.2) <$> cached acc) ++ ((λ itr, lambda itr.2) <$> cs))
    as Hgen.
  { induction cs as [|itr cs IH]; intros acc; simpl.
    - by rewrite app_nil_r.
    - rewrite IH. simpl. rewrite fmap_app. simpl. by rewrite <- app_assoc. }
  by rewrite Hgen.
Qed.

(** A turn that leaves the loop has written one of the three conditions,
    and [FUNCTION_TOLERANCE] only when the test of line 205 succeeded. *)
Lemma iteration_break cf solver s s' :
  iteration cf solver s = inl s' →
  written_by_loop (results s') ∧
  inner_exit_conditions s' = inner_exit_conditions s ++ [(after_solver solver s).2] ∧
  (results s' = FUNCTION_TOLERANCE →
   function_tolerance_reached (function_improvement_tolerance cf)
     (objective_value solver s) (f_prev s) = true).
Proof.
  unfold iteration, objective_value, after_solver, written_by_loop.
  destruct (solve_unconstrained solver (implementation s) (user_memory s))
    as [user written].
  cbn [fst snd].
  destruct (function_tolerance_reached _ _ _).
  - intros [= <-]. cbn. tauto.
  - destruct (_ <=? _)%D.
    + destruct (_ && _).
      * intros [= <-]. cbn. repeat split; try tauto. done.
      * case_bool_decide; [|done]. intros [= <-]. cbn. repeat split; try tauto. done.
    + case_bool_decide; [|done]. intros [= <-]. cbn. repeat split; try tauto. done.
Qed.

(** A turn that goes on leaves in [results] what the inner solver wrote,
    has counted one more iteration and is below the bound. *)
Lemma iteration_continue cf solver s s' :
  iteration cf solver s = inr s' →
  results s' = (after_solver solver s).2 ∧
  inner_exit_conditions s' = inner_exit_conditions s ++ [(after_solver solver s).2] ∧
  iterations s' = (iterations s + 1)%Z ∧
  (iterations s' < max_number_of_iterations cf)%Z ∧
  f_prev s' = objective_value solver s.
Proof.
  unfold iteration, objective_value, after_solver.
  destruct (solve_unconstrained solver (implementation s) (user_memory s))
    as [user written].
  cbn [fst snd].
  destruct (function_tolerance_reached _ _ _); [done|].
  destruct (_ <=? _)%D.
  - destruct (_ && _); [done|].
    case_bool_decide; [done|]. intros [= <-]. cbn. repeat split; try done. lia.
  - case_bool_decide; [done|]. intros [= <-]. cbn. repeat split; try done. lia.
Qed.

Lemma loop_results cf solver (fuel : nat) s s' :
  loop fuel cf solver s = Some s' →
  written_by_loop (results s') ∧
  (length (inner_exit_conditions s) < length (inner_exit_conditions s'))%nat.
Proof.
  revert s. induction fuel as [|fuel IH]; intros s; simpl; [done|].
  destruct (iteration cf solver s) as [s1|s1] eqn:Hturn.
  - intros [= <-]. apply iteration_break in Hturn as (Hres & Hinner & _).
    split; [done|]. rewrite Hinner, length_app. simpl. lia.
  - intros Hloop. apply IH in Hloop as [Hres Hlen]. split; [done|].
    apply iteration_continue in Hturn as (_ & Hinner & _).
    rewrite Hinner, length_app in Hlen. simpl in Hlen. lia.
Qed.

Lemma iteration_ignores_inner_condition cf solver solver' s1 s2 :
  (∀ i u, (solve_unconstrained solver' i u).1 = (solve_unconstrained solver i u).1) →
  same_but_results s1 s2 →
  match iteration cf solver s1, iteration cf solver' s2 with
  | inl a, inl b => same_but_results a b ∧ results a = results b
  | inr a, inr b => same_but_results a b
  | _, _ => False
  end.
Proof.
  intros Hsame (Himpl & Huser & Hnu & Hprev & Hit & Hlen).
  unfold iteration. rewrite <- Himpl, <- Huser, <- Hnu, <- Hprev, <- Hit.
  specialize (Hsame (implementation s1) (user_memory s1)).
  destruct (solve_unconstrained solver (implementation s1) (user_memory s1))
    as [user written].
  destruct (solve_unconstrained solver' (implementation s1) (user_memory s1))
    as [user' written'].
  cbn [fst] in Hsame. subst user'.
  assert (length (inner_exit_conditions s1 ++ [written]) =
          length (inner_exit_conditions s2 ++ [written'])) as Hlen'.
  { rewrite !length_app. simpl. lia. }
  unfold same_but_results.
  destruct (function_tolerance_reached _ _ _); [cbn; tauto|].
  destruct (_ <=? _)%D.
  - destruct (_ && _); [cbn; tauto|].
    case_bool_decide; cbn; tauto.
  - case_bool_decide; cbn; tauto.
Qed.

Lemma loop_ignores_inner_condition cf solver solver' (fuel : nat) s1 s2 :
  (∀ i u, (solve_unconstrained solver' i u).1 = (solve_unconstrained solver i u).1) →
  same_but_results s1 s2 →
  match loop fuel cf solver s1, loop fuel cf solver' s2 with
  | Some a, Some b => same_but_results a b ∧ results a = results b
  | None, None => True
  | _, _ => False
  end.
Proof.
  intros Hsame. revert s1 s2. induction fuel as [|fuel IH]; intros s1 s2 Hrel;
    simpl; [done|].
  pose proof (iteration_ignores_inner_condition cf solver solver' s1 s2 Hsame Hrel)
    as Hturn.
  destruct (iteration cf solver s1) as [a|a], (iteration cf solver' s2) as [b|b];
    try done.
  by apply IH.
Qed.

End Solve.

Section SolveClaims.
Context {D : Type} `{DoubleArith D} `{DoubleSpecial D}.
Implicit Types (cf : ConstrainedFunction.ConstrainedFunction D)
  (solver : ConstrainedFunction.Solver D) (s : ConstrainedFunction.State D).

Import ConstrainedFunction.

(** C3, as amended.  When [solve] returns, [results->exit_condition] is
    [FUNCTION_TOLERANCE], [GRADIENT_TOLERANCE] or [NO_CONVERGENCE]; a turn
    of the loop writes one of these three when it leaves the loop and
    nothing when it goes on, so that the value the inner solver wrote stays
    in place; and the loop never reads that value: with an inner solver that
    moves the variables in the same way and writes other exit conditions,
    [solve] makes the same number of inner calls and ends with the same
    multipliers, penalty, variables and exit condition. *)
Theorem solve_exit_conditions cf solver (user : Z → D) :
  (∀ fuel r, solve fuel solver user cf = Some r → written_by_loop (final_results r)) ∧
  (∀ s s', iteration cf solver s = inl s' → written_by_loop (results s')) ∧
  (∀ s s', iteration cf solver s = inr s' → results s' = (after_solver solver s).2) ∧
  (∀ solver' fuel,
     (∀ i u, (solve_unconstrained solver' i u).1 = (solve_unconstrained solver i u).1) →
     same_outcome (solve fuel solver user cf) (solve fuel solver' user cf)).
Proof.
  repeat split.
  - intros fuel r. unfold solve. case_bool_decide.
    + intros [= <-]. cbn. unfold written_by_loop. tauto.
    + intros Hrun. apply fmap_Some in Hrun as (s' & Hloop & ->).
      by apply loop_results in Hloop as [Hres _].
  - intros s s' Hturn. by apply iteration_break in Hturn as [Hres _].
  - intros s s' Hturn. by apply iteration_continue in Hturn as [Hres _].
  - intros solver' fuel Hsame. unfold solve. case_bool_decide; [done|].
    match goal with
    | |- same_outcome (finish <$> loop fuel cf solver ?s0) _ =>
        pose proof (loop_ignores_inner_condition cf solver solver' fuel s0 s0 Hsame)
          as Hloop
    end.
    destruct (loop fuel cf solver _) as [a|], (loop fuel cf solver' _) as [b|];
      cbn in *; try (by apply Hloop; repeat split).
    destruct Hloop as [(? & ? & ? & ? & ? & ?) ?]; [by repeat split|]. done.
Qed.

(** C6.  A turn of the loop that reaches the test [max_violation <= nu]
    and fails it (as it does when [max_violation > nu]) multiplies [mu] by
    100, sets [nu] to [1.0 / pow(mu, 0.1)] for the new [mu], and leaves the
    multiplier of every constraint as it was. *)
Theorem penalty_branch cf solver s s' :
  function_tolerance_reached (function_improvement_tolerance cf)
    (objective_value solver s) (f_prev s) = false →
  (max_violation (violation solver s) <=? nu s)%D = false →
  iteration cf solver s = inl s' ∨ iteration cf solver s = inr s' →
  mu (implementation s') = (mu (implementation s) * dlit 100)%D ∧
  nu s' = (dlit 1.0 / dpow (mu (implementation s')) (dlit 0.1))%D ∧
  multipliers (implementation s') = multipliers (implementation s).
Proof.
  unfold iteration, objective_value, violation, after_solver, multipliers.
  destruct (solve_unconstrained solver (implementation s) (user_memory s))
    as [user written].
  cbn [fst snd]. intros -> Hgt. cbn [set_constraints constraints mu]. rewrite Hgt.
  case_bool_decide; (intros [[= <-]|[= <-]]; cbn; repeat split; try done;
    apply cache_values_multipliers).
Qed.

(** While the previous value of the objective is NaN the loop cannot
    leave through the function tolerance: a call that ends with
    [FUNCTION_TOLERANCE] on a problem with variables has called the inner
    solver twice. *)
Lemma function_tolerance_needs_two_calls cf solver (user : Z → D) fuel r :
  (∀ tolerance f, function_tolerance_reached tolerance f quiet_NaN = false) →
  Function.get_number_of_variables (augmented_lagrangian (impl cf)) ≠ 0%nat →
  solve fuel solver user cf = Some r →
  final_results r = FUNCTION_TOLERANCE →
  (2 ≤ length (solver_calls r))%nat.
Proof.
  intros Hnan Hvars. unfold solve. rewrite bool_decide_eq_false_2 by done.
  intros Hrun Hexit. apply fmap_Some in Hrun as (s' & Hloop & ->). cbn in *.
  destruct fuel as [|fuel]; [done|]. simpl in Hloop.
  destruct (iteration cf solver _) as [s1|s1] eqn:Hturn.
  - injection Hloop as <-.
    apply iteration_break in Hturn as (_ & _ & Hreached).
    specialize (Hreached Hexit). cbn in Hreached. by rewrite Hnan in Hreached.
  - apply iteration_continue in Hturn as (_ & Hinner & _).
    apply loop_results in Hloop as [_ Hlen].
    rewrite Hinner in Hlen. cbn in Hlen. lia.
Qed.

(** [is_feasible] returns true exactly when the test [c_x > 1e-12] fails
    for every constraint. *)
Lemma is_feasible_tests (user : Z → D) cf :
  is_feasible user cf = true ↔
  Forall (λ itr, (Function.evaluate user (base itr.2) >? dlit 1e-12)%D = false)
    (constraints (impl cf)).
Proof.
  unfold is_feasible. induction (constraints (impl cf)) as [|itr cs IH]; simpl.
  - split; [constructor|done].
  - destruct (_ <? _)%D eqn:Htest.
    + split; [done|]. intros Hall. apply Forall_cons in Hall as [Hhead _]. congruence.
    + rewrite IH. split.
      * intros Hall. by constructor.
      * intros Hall. by apply Forall_cons in Hall as [_ Htail].
Qed.

End SolveClaims.

(** ** binary64 *)

Section Binary64.
Variable pow : spec_float → spec_float → spec_float.
Let binary64 : DoubleArith spec_float := b64_arith pow.
#[local] Existing Instance binary64.

Import ConstrainedFunction.

(** Comparing the other way round gives the opposite answer. *)
Lemma SFcompare_antisym (a b : spec_float) :
  SFcompare b a = CompOpp <$> SFcompare a b.
Proof.
  destruct a as [sa|sa| |sa ma ea], b as [sb|sb| |sb mb eb]; simpl;
    try reflexivity; try (by destruct sa); try (by destruct sb);
    try (by destruct sa, sb).
  destruct sa, sb; simpl; try reflexivity;
    rewrite (Z.compare_antisym eb ea); destruct (eb ?= ea)%Z; simpl;
    try reflexivity; repeat f_equal; symmetry;
    exact (Pos.compare_cont_antisym ma mb Eq).
Qed.

(** [a > b] is the negation of [a <= b] except when one of the two is NaN,
    where both are false. *)
Lemma SFltb_SFleb (a b : spec_float) :
  SFltb b a = match SFcompare a b with Some _ => negb (SFleb a b) | None => false end.
Proof.
  unfold SFltb, SFleb. rewrite (SFcompare_antisym a b).
  by destruct (SFcompare a b) as [[]|].
Qed.

(** On binary64 the test [a <= b] fails whenever [a > b]: a turn of the
    loop with [max_violation > nu] takes the branch of lines 248-261. *)
Lemma SFltb_not_SFleb (a b : spec_float) : SFltb b a = true → SFleb a b = false.
Proof.
  rewrite SFltb_SFleb. destruct (SFcompare a b); [|done].
  by intros ->%negb_true_iff.
Qed.

Lemma SFcompare_nan (a b : spec_float) :
  SFcompare a b = None ↔ a = S754_nan ∨ b = S754_nan.
Proof.
  destruct a as [sa|sa| |sa ma ea], b as [sb|sb| |sb mb eb]; simpl;
    split; intros Hn; try done; try tauto; try (by destruct Hn).
Qed.

(** The test of lines 205-206 with NaN as the previous value. *)
Lemma function_tolerance_NaN (tolerance f : spec_float) :
  function_tolerance_reached tolerance f quiet_NaN = false.
Proof.
  change (SFltb (SFdiv 53 1024 (SFabs (SFsub 53 1024 f S754_nan))
                  (SFadd 53 1024 (SFabs f) tolerance)) tolerance = false).
  assert (SFsub 53 1024 f S754_nan = S754_nan) as -> by (by destruct f).
  assert (∀ y, SFdiv 53 1024 (SFabs S754_nan) y = S754_nan) as -> by (by intros []).
  done.
Qed.

(** C9.  With [f_prev] initialised to NaN the test of lines 205-206 is false
    for every objective value and every tolerance, and a call of [solve] on
    a problem with at least one variable that ends with
    [FUNCTION_TOLERANCE] has called the inner solver at least twice. *)
Theorem first_iteration_never_function_tolerance
    (cf : ConstrainedFunction spec_float) (solver : Solver spec_float)
    (user : Z → spec_float) (fuel : nat) (r : Solved spec_float) :
  Function.get_number_of_variables (augmented_lagrangian (impl cf)) ≠ 0%nat →
  solve fuel solver user cf = Some r →
  final_results r = FUNCTION_TOLERANCE →
  (∀ tolerance f, function_tolerance_reached tolerance f quiet_NaN = false) ∧
  (2 ≤ length (solver_calls r))%nat.
Proof.
  intros Hvars Hrun Hexit. split; [apply function_tolerance_NaN|].
  eapply function_tolerance_needs_two_calls; eauto using function_tolerance_NaN.
Qed.

(** C8, as amended.  [is_feasible] returns true exactly when the value of
    every constraint is at most [1e-12] or is NaN. *)
Theorem is_feasible_spec (user : Z → spec_float) (cf : ConstrainedFunction spec_float) :
  is_feasible user cf = true ↔
  Forall (λ itr,
            let c_x := Function.evaluate user (base itr.2) in
            (c_x <=? dlit 1e-12)%D = true ∨ c_x = S754_nan)
    (constraints (impl cf)).
Proof.
  rewrite is_feasible_tests. apply Forall_proper; [|done].
  intros itr. cbn zeta. set (c_x := Function.evaluate user (base itr.2)).
  change (c_x >? dlit 1e-12)%D with (SFltb (b64_lit 1e-12) c_x).
  change (c_x <=? dlit 1e-12)%D with (SFleb c_x (b64_lit 1e-12)).
  rewrite SFltb_SFleb.
  destruct (SFcompare c_x (b64_lit 1e-12)) as [c|] eqn:Hcmp.
  - rewrite negb_false_iff. split; [tauto|]. intros [Hle|Hnan]; [done|].
    rewrite Hnan in Hcmp. done.
  - apply SFcompare_nan in Hcmp as [Hnan|Hlit]; [tauto|].
    by vm_compute in Hlit.
Qed.

End Binary64.

(** ** The sparse Hessian and its pattern *)

Section SparseHessian.
Context {D : Type} `{DoubleArith D}.
Implicit Types (f : Function D) (m : SparseMatrix D) (indices : list (Triplet D)).

Lemma for_loop_related {S1 S2 : Type} (R : S1 → S2 → Prop) (n : nat)
    (body1 : nat → S1 → S1) (body2 : nat → S2 → S2) (s1 : S1) (s2 : S2) :
  R s1 s2 →
  (∀ k a b, (k < n)%nat → R a b → R (body1 k a) (body2 k b)) →
  R (for_loop n body1 s1) (for_loop n body2 s2).
Proof.
  intros Hstart Hstep. induction n as [|n IH]; [done|].
  rewrite !for_loop_S. apply Hstep; [lia|]. apply IH. intros k a b Hk. apply Hstep. lia.
Qed.

(** A matrix built from triplets stores an entry exactly at their
    positions. *)
Lemma stored_setFromTriplets indices m (i j : Z) :
  stored (setFromTriplets indices m) i j ↔ (i, j) ∈ positions indices.
Proof.
  unfold stored, setFromTriplets, positions. cbn [entries].
  set (step := λ (e : gmap (Z * Z) D) (t : Triplet D), _).
  assert (∀ e t, is_Some (step e t !! (i, j)) ↔
                 is_Some (e !! (i, j)) ∨ (i, j) = (t.1.1, t.1.2)) as Hstep.
  { intros e t. subst step. cbn beta.
    destruct (decide ((t.1.1, t.1.2) = (i, j))) as [Heq|Hne].
    - rewrite Heq, lookup_insert_eq. split; [intros _; by right|intros _; eauto].
    - rewrite lookup_insert_ne by done. split; [tauto|].
      intros [?|Heq]; [done|]. by symmetry in Heq. }
  assert (∀ e, is_Some (foldl step e indices !! (i, j)) ↔
               is_Some (e !! (i, j)) ∨
               (i, j) ∈ (λ t : Triplet D, (t.1.1, t.1.2)) <$> indices) as Hgen.
  { induction indices as [|t indices IH]; intros e; simpl.
    - rewrite elem_of_nil. tauto.
    - rewrite IH, Hstep, elem_of_cons. tauto. }
  rewrite Hgen, lookup_empty. split; [intros [[? ?]|?]; done|tauto].
Qed.

(** Copying the solver's vector into the scratch of the variables leaves
    their global indices alone. *)
Lemma argument_copy_global_to_local (x : list D) f (t : AddedTerm D) (var : nat) :
  global_index (Function.argument (Function.copy_global_to_local x f) t var) =
  global_index (Function.argument f t var).
Proof.
  unfold Function.argument, Function.deref, Function.copy_global_to_local. cbn.
  rewrite lookup_fmap.
  destruct (variables f !! _) as [v|]; [|done]. cbn.
  by destruct (change_of_variables v).
Qed.

Lemma evaluate_term_sparse_hessians f (ts : list (AddedTerm D))
    (s0 s : Function.TermLoop D) :
  for_each ts (Function.evaluate_term_sparse f) s0 = Return s →
  length (Function.term_hessians s) = (length (Function.term_hessians s0) + length ts)%nat.
Proof.
  revert s0. induction ts as [|t ts IH]; intros s0; simpl.
  - intros [= <-]. lia.
  - destruct (Function.evaluate_term_sparse f t s0) as [s1|] eqn:Hterm; [|done].
    intros Hrest. rewrite (IH _ Hrest).
    unfold Function.evaluate_term_sparse in Hterm.
    destruct (evaluate_hessian _ _ _ _) as [[[v scratch] h]|]; [|done].
    destruct (Function.scatter_gradient_sparse _ _ _ _); [|done].
    injection Hterm as <-. cbn. rewrite length_app. simpl. lia.
Qed.

Lemma foldl_zip_related {A B S1 S2 : Type} (R : S1 → S2 → Prop)
    (step1 : S1 → A * B → S1) (step2 : S2 → A → S2) (l : list A) (k : list B)
    (s1 : S1) (s2 : S2) :
  (∀ a b c d, R c d → R (step1 c (a, b)) (step2 d a)) →
  length k = length l → R s1 s2 →
  R (foldl step1 s1 (zip l k)) (foldl step2 s2 l).
Proof.
  intros Hstep. revert k s1 s2.
  induction l as [|a l IH]; intros [|b k] s1 s2 Hlen Hstart; simpl in *; try done.
  apply IH; [lia|]. by apply Hstep.
Qed.

(** The numeric triplets lie at the positions of the pattern triplets. *)
Lemma hessian_triplets_positions (x : list D) f (hs : list (BlockHessian D)) :
  length hs = length (terms f) →
  positions (Function.hessian_triplets (Function.copy_global_to_local x f)
               (zip (terms f) hs)) =
  positions (Function.pattern_triplets f).
Proof.
  intros Hlen. unfold Function.hessian_triplets, Function.pattern_triplets.
  apply (foldl_zip_related (λ a b, positions a = positions b)); [|done|done].
  intros t h a b Hab. cbn [fst snd].
  apply (for_loop_related (λ a b, positions a = positions b)); [done|]. intros var0 a0 b0 _ H0.
  apply (for_loop_related (λ a b, positions a = positions b)); [done|]. intros var1 a1 b1 _ H1.
  apply (for_loop_related (λ a b, positions a = positions b)); [done|]. intros i a2 b2 _ H2.
  apply (for_loop_related (λ a b, positions a = positions b)); [done|]. intros j a3 b3 _ H3.
  unfold positions in *. rewrite !fmap_app, H3. cbn.
  by rewrite !argument_copy_global_to_local.
Qed.

(** C7.  Whenever the numeric sparse-Hessian overload of
    [Function::evaluate] returns, every position at which the matrix it
    has built stores an entry is a position at which the pattern matrix of
    [create_sparse_hessian] stores one.  (The call returns only if no
    argument of a term has a change of variables.) *)
Theorem sparse_pattern_superset f (x gradient : list D) (hessian : option (SparseMatrix D))
    (scratch : list (list D)) (pattern : SparseMatrix D)
    (v : D) (g : list D) m :
  Function.evaluate_sparse x gradient hessian scratch f = (Return v, g, Some m) →
  ∀ i j, stored m i j → stored (Function.create_sparse_hessian pattern f).1 i j.
Proof.
  unfold Function.evaluate_sparse, Function.create_sparse_hessian.
  destruct hessian as [m0|]; [|done].
  destruct (hessian_is_enabled f); [|done]. cbn [negb].
  destruct (for_each _ _ _) as [s|] eqn:Hterms; [|done].
  intros [= _ _ <-] i j. cbn [fst].
  rewrite !stored_setFromTriplets.
  apply evaluate_term_sparse_hessians in Hterms. cbn in Hterms.
  by rewrite hessian_triplets_positions.
Qed.

End SparseHessian.

(** ** The dense Hessian *)

Section DenseHessian.
Context {D : Type} `{DoubleArith D}.
Implicit Types (f : Function D) (t : AddedTerm D) (s : Function.TermLoop D).

Lemma change_of_variables_copy_global_to_local (x : list D) f t (var : nat) :
  is_Some (change_of_variables (Function.argument (Function.copy_global_to_local x f) t var))
  ↔ is_Some (change_of_variables (Function.argument f t var)).
Proof.
  unfold Function.argument, Function.deref, Function.copy_global_to_local. cbn.
  rewrite lookup_fmap.
  destruct (variables f !! _) as [v|]; [|done]. cbn.
  destruct (change_of_variables v) eqn:Hcov; cbn; by rewrite Hcov.
Qed.

Lemma scatter_gradient_length f (x : list D) t (scratch : list (list D)) (storage : list D) :
  length (Function.scatter_gradient f x t scratch storage) = length storage.
Proof.
  unfold Function.scatter_gradient.
  apply (for_loop_invariant (λ _ st, length st = length storage)); [done|].
  intros var st _ Hst. destruct (change_of_variables _).
  - apply (for_loop_invariant (λ _ st', length st' = length storage)); [exact Hst|].
    intros i st' _ Hst'. destruct (_ !! i); [|done]. by rewrite length_insert.
  - apply (for_loop_invariant (λ _ st', length st' = length storage)); [exact Hst|].
    intros i st' _ Hst'. unfold vec_add. by rewrite length_alter.
Qed.

(** The loop over the terms either evaluates every term, keeping the
    length of the thread's gradient, or stops at a term that throws. *)
Lemma evaluate_terms_dense f (x : list D) (ts : list (AddedTerm D)) s0 :
  match for_each ts (Function.evaluate_term true f x) s0 with
  | Return s =>
      length (Function.thread_gradient_storage s) =
      length (Function.thread_gradient_storage s0)
  | Throw what =>
      ∃ t args scratch h,
        t ∈ ts ∧ evaluate_hessian (term t) args scratch h = Throw what
  end.
Proof.
  revert s0. induction ts as [|t ts IH]; intros s0; simpl; [done|].
  unfold Function.evaluate_term at 1.
  destruct (evaluate_hessian (term t) _ _ _) as [[[v scratch] h]|what] eqn:Hterm.
  - specialize (IH {| Function.value := (Function.value s0 + v)%D;
                      Function.thread_gradient_scratch := scratch;
                      Function.thread_gradient_storage :=
                        Function.scatter_gradient f x t scratch
                          (Function.thread_gradient_storage s0);
                      Function.term_hessians := Function.term_hessians s0 ++ [h] |}).
    destruct (for_each ts _ _) as [s|what].
    + cbn in IH. by rewrite IH, scatter_gradient_length.
    + destruct IH as (t' & args & sc & h' & Hin & Hthrow).
      exists t', args, sc, h'. split; [by apply list_elem_of_further|done].
  - eexists t, _, _, _. split; [apply list_elem_of_here|exact Hterm].
Qed.

(** The scatter pass throws only at an argument with a change of
    variables, and only the message of line 512. *)
Lemma scatter_dense_raise f (ths : list (AddedTerm D * BlockHessian D))
    (m0 m : DenseMatrix D) (what : string) :
  for_each_step ths (Function.scatter_term_dense f) m0 = Raise what m →
  what = Function.not_supported_for_Hessians ∧
  ∃ th var, th ∈ ths ∧ (var < number_of_variables (term th.1))%nat ∧
            is_Some (change_of_variables (Function.argument f th.1 var)).
Proof.
  revert m0. induction ths as [|th ths IH]; intros m0; simpl; [done|].
  destruct (Function.scatter_term_dense f th m0) as [m1|what1 m1] eqn:Hterm.
  - intros Hrest. destruct (IH _ Hrest) as (Hwhat & th' & var & Hin & Hvar & Hcov).
    split; [done|]. exists th', var. split; [by apply list_elem_of_further|done].
  - intros [= -> ->]. unfold Function.scatter_term_dense in Hterm.
    assert (∀ vars m2,
              for_each_step vars
                (λ var0 m,
                   match change_of_variables (Function.argument f th.1 var0) with
                   | Some _ => Raise Function.not_supported_for_Hessians m
                   | None =>
                       Next (for_loop (number_of_variables (term th.1))
                               (λ var1 m, Function.scatter_block_dense f th.1 th.2 var0 var1 m) m)
                   end) m2 = Raise what m →
              what = Function.not_supported_for_Hessians ∧
              ∃ var, var ∈ vars ∧
                     is_Some (change_of_variables (Function.argument f th.1 var)))
      as Hvars.
    { induction vars as [|var vars IHv]; intros m2; simpl; [done|].
      destruct (change_of_variables (Function.argument f th.1 var)) as [cov|] eqn:Hcov.
      - intros [= <- <-]. split; [done|]. exists var.
        split; [apply list_elem_of_here|]. rewrite Hcov. eauto.
      - intros Hrest. destruct (IHv _ Hrest) as (Hwhat & var' & Hin & Hcov').
        split; [done|]. exists var'. split; [by apply list_elem_of_further|done]. }
    destruct (Hvars _ _ Hterm) as (Hwhat & var & Hin & Hcov).
    split; [done|]. exists th, var. split; [apply list_elem_of_here|].
    split; [|done]. apply elem_of_seq in Hin. lia.
Qed.

(** The scatter pass keeps the size the Hessian was resized to. *)
Lemma scatter_dense_rows f (ths : list (AddedTerm D * BlockHessian D))
    (m0 m : DenseMatrix D) (what : string) :
  for_each_step ths (Function.scatter_term_dense f) m0 = Raise what m →
  rows m = rows m0 ∧ cols m = cols m0.
Proof.
  assert (∀ th vars m1 m2 w,
            (for_each_step vars
               (λ var0 m,
                  match change_of_variables (Function.argument f th.1 var0) with
                  | Some _ => Raise Function.not_supported_for_Hessians m
                  | None =>
                      Next (for_loop (number_of_variables (term th.1))
                              (λ var1 m,
                                 Function.scatter_block_dense f th.1 th.2 var0 var1 m) m)
                  end) m1 = Raise w m2 ∨
             for_each_step vars
               (λ var0 m,
                  match change_of_variables (Function.argument f th.1 var0) with
                  | Some _ => Raise Function.not_supported_for_Hessians m
                  | None =>
                      Next (for_loop (number_of_variables (term th.1))
                              (λ var1 m,
                                 Function.scatter_block_dense f th.1 th.2 var0 var1 m) m)
                  end) m1 = Next m2) →
            rows m2 = rows m1 ∧ cols m2 = cols m1) as Hterm.
  { intros th vars. induction vars as [|var vars IHv]; intros m1 m2 w; simpl.
    - intros [?|[= <-]]; done.
    - destruct (change_of_variables _).
      + intros [[= _ <-]|?]; done.
      + intros Hrest. apply IHv in Hrest as [-> ->].
        apply (for_loop_invariant (λ _ m', rows m' = rows m1 ∧ cols m' = cols m1));
          [done|].
        intros var1 m' _ Hm'. unfold Function.scatter_block_dense.
        apply (for_loop_invariant (λ _ m'', rows m'' = rows m1 ∧ cols m'' = cols m1));
          [exact Hm'|].
        intros i m'' _ Hm''.
        apply (for_loop_invariant (λ _ m3, rows m3 = rows m1 ∧ cols m3 = cols m1));
          [exact Hm''|].
        intros j m3 _ Hm3. exact Hm3. }
  revert m0. induction ths as [|th ths IH]; intros m0; simpl; [done|].
  destruct (Function.scatter_term_dense f th m0) as [m1|what1 m1] eqn:Hth.
  - intros Hrest. apply IH in Hrest as [-> ->].
    eapply (Hterm th _ m0 m1 what). right. exact Hth.
  - intros [= -> ->]. eapply (Hterm th _ m0 m what). left. exact Hth.
Qed.

(** C10.  Suppose the dense overload of [Function::evaluate] ends with the
    exception of line 512, and no term throws an exception with that
    message from its own evaluator.  Then the loop over the terms has run
    to its end, every term evaluated; the [gradient] of the caller has been
    replaced by the assembled gradient, of length [number_of_scalars]; the
    [hessian] of the caller has been resized and holds what the scatter
    pass had added when it threw; and some argument of some term has a
    change of variables. *)
Theorem dense_hessian_failure_after_gradient f (x gradient : list D)
    (hessian : DenseMatrix D) (scratch : list (list D))
    (g' : list D) (h' : option (DenseMatrix D)) :
  (∀ t args sc h, t ∈ terms f →
     evaluate_hessian (term t) args sc h ≠ Throw Function.not_supported_for_Hessians) →
  Function.evaluate_dense x gradient (Some hessian) scratch f
    = (Throw Function.not_supported_for_Hessians, g', h') →
  let f' := Function.copy_global_to_local x f in
  ∃ s m,
    for_each (terms f') (Function.evaluate_term true f' x)
      (Function.start_term_loop scratch f') = Return s ∧
    g' = Function.assemble_gradient (Function.thread_gradient_storage s) ∧
    length g' = Z.to_nat (number_of_scalars f) ∧
    h' = Some m ∧
    rows m = static_cast_int (number_of_scalars f) ∧
    (∃ t var, t ∈ terms f ∧ (var < number_of_variables (term t))%nat ∧
              is_Some (change_of_variables (Function.argument f t var))).
Proof.
  intros Hterms Hcall f'. unfold Function.evaluate_dense in Hcall.
  cbn [is_Some] in Hcall.
  rewrite bool_decide_eq_true_2 in Hcall by eauto. cbn [andb] in Hcall.
  destruct (hessian_is_enabled f); cbn [negb] in Hcall; [|done].
  fold f' in Hcall.
  pose proof (evaluate_terms_dense f' x (terms f') (Function.start_term_loop scratch f'))
    as Hloop.
  destruct (for_each (terms f') _ _) as [s|what] eqn:Hrun.
  - destruct (for_each_step _ _ _) as [m|what m] eqn:Hscatter; [done|].
    injection Hcall as -> <- <-.
    pose proof (scatter_dense_rows _ _ _ _ _ Hscatter) as [Hrows _].
    apply scatter_dense_raise in Hscatter as (_ & [t h] & var & Hin & Hvar & Hcov).
    exists s, m. repeat split; try done.
    + unfold Function.assemble_gradient. rewrite length_fmap, Hloop. cbn.
      by rewrite length_replicate.
    + exists t, var. split.
      * apply elem_of_zip_l in Hin. done.
      * split; [done|]. by apply change_of_variables_copy_global_to_local in Hcov.
  - injection Hcall as -> _ _.
    destruct Hloop as (t & args & sc & h & Hin & Hthrow).
    by apply Hterms in Hthrow.
Qed.

End DenseHessian.

(** ** The properties at concrete inputs *)

Section Concrete.
#[local] Existing Instance Examples.arith.
Import ConstrainedFunction.

(** C1 at [sigma = 1], [mu = 2] and the identity term at [x = 3]. *)
Lemma Phi_evaluate_spec_witness :
  (0 < 2)%R ∧
  evaluate (Phi.as_Term Examples.real_identity 1%R 2%R) [[3%R]] =
    (1 * 3 + 2 / 2 * 3 ^ 2)%R.
Proof.
  split; [lra|].
  destruct (Phi_evaluate_spec Examples.real_identity 1%R 2%R [[3%R]] [[0%R]])
    as (Hactive & _); [lra|].
  apply Hactive. cbn. lra.
Defined.

(** C5 at [sigma = 1], [mu = 2] and the identity term at [x = -1/2], on
    the switching surface: the evaluator with gradient writes 0 over the
    entry 1 that the identity wrote. *)
Lemma Phi_branches_agree_witness :
  (0 < 2)%R ∧
  Phi.active_value 1%R 2%R (- (1) / 2)%R = Phi.inactive_value 1%R 2%R ∧
  (evaluate_gradient Examples.real_identity [[(- (1) / 2)%R]] [[7%R]]).1
    = (- (1) / 2)%R ∧
  ∃ row', (Phi.evaluate_gradient Examples.real_identity 1%R 2%R
             [[(- (1) / 2)%R]] [[7%R]]).2 !! 0%nat = Some row' ∧
          row' !! 0%nat = Some ((1 + 2 * (- (1) / 2)) * 1)%R ∧
          ((1 + 2 * (- (1) / 2)) * 1 = 0)%R.
Proof.
  split; [lra|].
  destruct (Phi_branches_agree 1%R 2%R) as (_ & Hvalue & _ & _ & Hgradient); [lra|].
  split; [exact Hvalue|].
  assert ((evaluate_gradient Examples.real_identity [[(- (1) / 2)%R]] [[7%R]]).1
          = (- (1) / 2)%R) as Hsurface by reflexivity.
  split; [exact Hsurface|].
  destruct (Hgradient Examples.real_identity [[(- (1) / 2)%R]] [[7%R]] Hsurface)
    as [_ Hentries].
  exact (Hentries 0%nat 0%nat [1%R] 1%R ltac:(cbn; lia) ltac:(cbn; lia)
           eq_refl eq_refl).
Defined.

(** C2 (amended) at [mu = 10]: a positive value and multiplier grow. *)
Lemma dual_update_spec_witness :
  (0 < 10)%R ∧ (new_lambda 10 1 20 = 20 + 10 * 1)%R.
Proof.
  split; [lra|].
  destruct (dual_update_spec 10%R []) as (_ & Hnew); [lra|].
  destruct (Hnew 1%R 20%R) as ((Hvalue & _) & _); [lra|].
  exact Hvalue.
Defined.

(** C4 on [Examples.registrations]: five scalars. *)
Lemma index_consistency_witness :
  perform_all Examples.registrations Function.new = Return Examples.registered ∧
  solver_total Examples.registered = number_of_scalars Examples.registered ∧
  number_of_scalars Examples.registered = 5%Z.
Proof.
  assert (perform_all Examples.registrations Function.new = Return Examples.registered)
    as Hrun.
  { unfold Examples.registered.
    destruct (perform_all Examples.registrations Function.new) as [f|what] eqn:Hcalls;
      [reflexivity|].
    assert (match perform_all Examples.registrations Function.new with
            | Return _ => True
            | Throw _ => False
            end) as Hreturns by (vm_compute; exact I).
    rewrite Hcalls in Hreturns. destruct Hreturns. }
  split; [exact Hrun|]. split; [|vm_compute; reflexivity].
  refine (proj1 (index_consistency Examples.registrations _ Hrun _ _)).
  - repeat constructor. cbn. lia.
  - vm_compute. reflexivity.
Defined.

(** C3 (amended) on a run whose inner solver reports an internal error. *)
Lemma solve_exit_conditions_witness :
  final_results <$> solve 2 Examples.failing_solver Examples.memory
                      (Examples.problem (b64_lit 0.5) 2)
  = Some NO_CONVERGENCE.
Proof.
  pose proof (solve_exit_conditions (Examples.problem (b64_lit 0.5) 2)
                Examples.failing_solver Examples.memory) as (Hexit & _).
  destruct (solve 2 _ _ _) as [r|] eqn:Hrun; [|by vm_compute in Hrun].
  specialize (Hexit 2%nat r Hrun).
  vm_compute in Hrun. injection Hrun as <-. reflexivity.
Defined.

(** C6 on a turn with [max_violation = 0.5] and [nu = 0.1]: [mu] goes from
    10 to 1000. *)
Lemma penalty_branch_witness :
  ∃ s', iteration (Examples.problem (b64_lit 0.5) 10) Examples.idle_solver
          (Examples.state_of (b64_lit 0.5) (b64_lit 0.1)) = inr s' ∧
        mu (implementation s') = b64_lit 1000 ∧
        multipliers (implementation s') = [b64_lit 0].
Proof.
  eexists. split; [vm_compute; reflexivity|].
  match goal with
  | |- mu (implementation ?s') = _ ∧ _ =>
      destruct (penalty_branch (Examples.problem (b64_lit 0.5) 10) Examples.idle_solver
                  (Examples.state_of (b64_lit 0.5) (b64_lit 0.1)) s')
        as (Hmu & _ & Hlambda)
  end.
  - vm_compute. reflexivity.
  - vm_compute. reflexivity.
  - right. vm_compute. reflexivity.
  - split; [rewrite Hmu|rewrite Hlambda]; vm_compute; reflexivity.
Defined.

(** C7 on the identity term: the position (0, 0) of the numeric matrix is
    in the pattern. *)
Lemma sparse_pattern_superset_witness :
  stored (Function.create_sparse_hessian
            {| sparse_rows := 0; sparse_cols := 0; entries := ∅ |}
            (Examples.function_of Examples.identity)).1 0 0.
Proof.
  eapply (sparse_pattern_superset (Examples.function_of Examples.identity)
            [b64_lit 1] [b64_lit 7]
            (Some {| sparse_rows := 0; sparse_cols := 0; entries := ∅ |})
            [[b64_lit 0]]).
  - vm_compute. reflexivity.
  - vm_compute. eauto.
Defined.

(** C9 on a run that ends with [FUNCTION_TOLERANCE]: two inner calls. *)
Lemma first_iteration_never_function_tolerance_witness :
  ∃ r, solve 10 Examples.idle_solver Examples.memory (Examples.problem (b64_lit 0.5) 10)
       = Some r ∧
       final_results r = FUNCTION_TOLERANCE ∧ (2 ≤ length (solver_calls r))%nat.
Proof.
  eexists. split; [vm_compute; reflexivity|]. split; [reflexivity|].
  refine (proj2 (first_iteration_never_function_tolerance Examples.pow
                   (Examples.problem (b64_lit 0.5) 10) Examples.idle_solver
                   Examples.memory 10 _ _ _ _)).
  - vm_compute. discriminate.
  - vm_compute. reflexivity.
  - reflexivity.
Defined.

(** C10 on [Examples.transformed]: the call fails and the gradient [7] of
    the caller has become [2]. *)
Lemma dense_hessian_failure_after_gradient_witness :
  ∃ h', Function.evaluate_dense [b64_lit 1] [b64_lit 7]
          (Some {| rows := 0; cols := 0; coeff := λ _ _, b64_lit 0 |})
          [[b64_lit 0]] Examples.transformed
        = (Throw Function.not_supported_for_Hessians, [b64_lit 2], h') ∧
        length [b64_lit 2] = Z.to_nat (number_of_scalars Examples.transformed).
Proof.
  eexists. split; [vm_compute; reflexivity|].
  edestruct (dense_hessian_failure_after_gradient Examples.transformed
               [b64_lit 1] [b64_lit 7]
               {| rows := 0; cols := 0; coeff := λ _ _, b64_lit 0 |} [[b64_lit 0]])
    as (s & m & _ & _ & Hlength & _).
  - intros t args sc h Hin. vm_compute in Hin.
    apply list_elem_of_singleton in Hin as ->. discriminate.
  - vm_compute. reflexivity.
  - exact Hlength.
Defined.

(** C4 as stated fails: every call of [Examples.negative_registrations]
    returns, the first variable has the solver dimension -2 and the second
    the dimension 1, yet [number_of_scalars] is 2^64 - 1 and not their sum
    -1, and the [global_index] of the second variable is 2^64 - 2 and not
    the dimension -2 of the variable registered before it. *)
Lemma index_consistency_with_negative_t_dimension :
  perform_all Examples.negative_registrations Function.new
    = Return Examples.negative_registered ∧
  registration_order Examples.negative_registrations = [0%Z; 8%Z] ∧
  solver_total Examples.negative_registered = (-1)%Z ∧
  number_of_scalars Examples.negative_registered = (2 ^ 64 - 1)%Z ∧
  solver_sum Examples.negative_registered [0%Z] = (-2)%Z ∧
  global_index (Function.deref Examples.negative_registered 8) = (2 ^ 64 - 2)%Z.
Proof.
  split.
  { unfold Examples.negative_registered.
    destruct (perform_all Examples.negative_registrations Function.new)
      as [f|what] eqn:Hcalls; [reflexivity|].
    assert (match perform_all Examples.negative_registrations Function.new with
            | Return _ => True
            | Throw _ => False
            end) as Hreturns by (vm_compute; exact I).
    rewrite Hcalls in Hreturns. destruct Hreturns. }
  repeat split; vm_compute; reflexivity.
Qed.

(** C3 as stated fails: the inner solver writes [INTERNAL_ERROR] at its
    first call and the loop goes on to a second call. *)
Lemma solve_continues_after_internal_error :
  solver_calls <$> solve 2 Examples.failing_solver Examples.memory
                     (Examples.problem (b64_lit 0.5) 2)
  = Some [INTERNAL_ERROR; INTERNAL_ERROR].
Proof. vm_compute. reflexivity. Qed.

(** C8 as stated fails: a constraint whose value is NaN is not at most
    [1e-12], and [is_feasible] returns true. *)
Lemma is_feasible_with_NaN :
  is_feasible Examples.memory (Examples.problem S754_nan 10) = true ∧
  Exists (λ itr, (Function.evaluate Examples.memory (base itr.2) <=? dlit 1e-12)%D = false)
    (constraints (impl (Examples.problem S754_nan 10))).
Proof.
  split; [vm_compute; reflexivity|].
  apply Exists_cons_hd. vm_compute. reflexivity.
Qed.

End Concrete.

(** * Further properties *)


(** ** More on the registry *)

Section RegistryCalls.
Context {D : Type} `{DoubleArith D}.
Implicit Types (f : Function D) (t : AddedTerm D).

(** X1.  [add_variable_internal] returns exactly in two cases: the pointer
    is registered with the dimension given, or it is not registered, the
    dimension is not negative and it is the [x_dimension] of the change of
    variables, if one is given. *)
Theorem add_variable_internal_returns (p : Z) (d : Z)
    (cov : option (ChangeOfVariables D)) f :
  returns (Function.add_variable_internal p d cov f) ↔
  match variables f !! p with
  | Some v => user_dimension v = d
  | None => (0 ≤ d)%Z ∧ ∀ c, cov = Some c → d = x_dimension c
  end.
Proof.
  unfold returns, Function.add_variable_internal, Function.register_variable. cbn.
  destruct (variables f !! p) as [v|].
  - case_bool_decide as Hd; split.
    + by intros [? ?].
    + done.
    + done.
    + eauto.
  - destruct cov as [c|].
    + case_bool_decide as Hc.
      * split; [by intros [? ?]|]. intros [_ Hx]. by specialize (Hx c eq_refl).
      * subst d. case_bool_decide as Hneg; split.
        -- by intros [? ?].
        -- lia.
        -- intros _. split; [lia|]. by intros ? [= <-].
        -- eauto.
    + case_bool_decide as Hneg; split.
      * by intros [? ?].
      * lia.
      * intros _. split; [lia|done].
      * eauto.
Qed.

(** X2.  Registering is idempotent: after a call that returned, the same
    pointer and dimension can be given again, with any change of variables
    or none, and the call returns the Function unchanged. *)
Theorem add_variable_internal_again (p : Z) (d : Z)
    (cov cov' : option (ChangeOfVariables D)) f f' :
  Function.add_variable_internal p d cov f = Return f' →
  Function.add_variable_internal p d cov' f' = Return f'.
Proof.
  unfold Function.add_variable_internal, Function.register_variable. cbn.
  destruct (variables f !! p) as [v|] eqn:Hp.
  - case_bool_decide as Hd; [done|]. intros [= <-]. cbn. rewrite Hp.
    rewrite bool_decide_eq_false_2 by (intros Hne; by apply Hne). done.
  - destruct cov as [c|].
    + case_bool_decide as Hc; [done|].
      case_bool_decide; [done|]. intros [= <-]. cbn. rewrite lookup_insert_eq. cbn.
      rewrite bool_decide_eq_false_2 by (intros Hne; by apply Hne). done.
    + case_bool_decide; [done|]. intros [= <-]. cbn. rewrite lookup_insert_eq. cbn.
      rewrite bool_decide_eq_false_2 by (intros Hne; by apply Hne). done.
Qed.

Lemma check_arguments_return f (tm : Term D) (arguments : list Z) (vars : list nat) :
  for_each vars (Function.check_argument f tm arguments) tt = Return tt ↔
  ∀ var, var ∈ vars →
    ∃ p v, arguments !! var = Some p ∧ variables f !! p = Some v ∧
           user_dimension v = Z.of_nat (variable_dimension tm var).
Proof.
  induction vars as [|var vars IH]; simpl.
  - split; [|done]. intros _ var Hin. by apply elem_of_nil in Hin.
  - unfold Function.check_argument at 1.
    destruct (arguments !! var) as [p|] eqn:Harg.
    + destruct (variables f !! p) as [v|] eqn:Hp.
      * case_bool_decide as Hd.
        -- split; [done|]. intros Hall.
           destruct (Hall var) as (p' & v' & Hp' & Hv' & Hdim); [apply list_elem_of_here|].
           congruence.
        -- rewrite IH. split.
           ++ intros Hall var' Hin. apply elem_of_cons in Hin as [->|Hin]; eauto.
           ++ intros Hall var' Hin. apply Hall. by apply list_elem_of_further.
      * split; [done|]. intros Hall.
        destruct (Hall var) as (p' & v' & Hp' & Hv' & Hdim); [apply list_elem_of_here|].
        congruence.
    + split; [done|]. intros Hall.
      destruct (Hall var) as (p' & v' & Hp' & Hv' & Hdim); [apply list_elem_of_here|].
      congruence.
Qed.

(** What a returning call of [add_term] has checked and done. *)
Lemma add_term_Return (tm : Term D) (arguments : list Z) f f' :
  Function.add_term tm arguments f = Return f' →
  number_of_variables tm = length arguments ∧
  (∀ var p, arguments !! var = Some p →
     ∃ v, variables f !! p = Some v ∧
          user_dimension v = Z.of_nat (variable_dimension tm var)) ∧
  variables f' = variables f ∧ number_of_scalars f' = number_of_scalars f ∧
  ∃ t, terms f' = terms f ++ [t] ∧ term t = tm ∧ user_variables t = arguments.
Proof.
  unfold Function.add_term. case_bool_decide as Harity; [done|].
  destruct (for_each _ _ _) as [[]|what] eqn:Hcheck; [|done].
  intros [= <-]. cbn. split; [done|]. split.
  - pose proof (proj1 (check_arguments_return _ _ _ _) Hcheck) as Hall.
    cbn in Hall. intros var p Hvar.
    destruct (Hall var) as (p' & v & Hp' & Hv & Hdim).
    { apply elem_of_seq. apply lookup_lt_Some in Hvar. lia. }
    exists v. split; [congruence|done].
  - split; [done|]. split; [done|]. eexists. split; [reflexivity|]. done.
Qed.

(** X3.  [add_term] returns exactly when the term has as many variables as
    there are arguments and every argument is a registered variable whose
    user dimension is the one the term declares; it then appends one term
    and changes neither the registry nor the count of scalars. *)
Theorem add_term_returns (tm : Term D) (arguments : list Z) f :
  (returns (Function.add_term tm arguments f) ↔
   number_of_variables tm = length arguments ∧
   ∀ var p, arguments !! var = Some p →
     ∃ v, variables f !! p = Some v ∧
          user_dimension v = Z.of_nat (variable_dimension tm var)) ∧
  (∀ f', Function.add_term tm arguments f = Return f' →
     variables f' = variables f ∧ number_of_scalars f' = number_of_scalars f ∧
     ∃ t, terms f' = terms f ++ [t] ∧ term t = tm ∧ user_variables t = arguments).
Proof.
  unfold returns, Function.add_term. split.
  - case_bool_decide as Harity.
    + split; [by intros [? ?]|]. by intros [? _].
    + destruct (for_each _ _ _) as [[]|what] eqn:Hcheck.
      * pose proof (proj1 (check_arguments_return _ _ _ _) Hcheck) as Hall.
        cbn in Hall. clear Hcheck. rename Hall into Hcheck.
        split; [|eauto]. intros _.
        split; [done|]. intros var p Hvar.
        destruct (Hcheck var) as (p' & v & Hp' & Hv & Hdim).
        { apply elem_of_seq. apply lookup_lt_Some in Hvar. lia. }
        exists v. split; [congruence|done].
      * split; [by intros [? ?]|]. intros [_ Hall].
        assert (for_each (seq 0 (number_of_variables tm))
                  (Function.check_argument (Function.set_local_storage_allocated false f)
                     tm arguments) tt = Return tt) as Hok; [|congruence].
        apply check_arguments_return. intros var Hin. apply elem_of_seq in Hin.
        destruct (lookup_lt_is_Some_2 arguments var) as [p Hp]; [lia|].
        destruct (Hall var p Hp) as (v & Hv & Hdim). eauto.
  - intros f'. case_bool_decide; [done|].
    destruct (for_each _ _ _); [|done]. intros [= <-]. cbn.
    split; [done|]. split; [done|]. eexists. split; [reflexivity|]. done.
Qed.

End RegistryCalls.


Section RegistryInvariants.
Context {D : Type} `{DoubleArith D}.
Implicit Types (f : Function D) (t : AddedTerm D).

Lemma well_formed_term_keeps f f' t :
  (∀ p v, variables f !! p = Some v → variables f' !! p = Some v) →
  well_formed_term f t → well_formed_term f' t.
Proof.
  intros Hkeep [Harity Hargs]. split; [done|]. intros var p Hvar.
  destruct (Hargs var p Hvar) as (v & Hv & Hdim). eauto.
Qed.

Lemma perform_well_formed (c : call) f f' :
  well_formed f → perform c f = Return f' → well_formed f'.
Proof.
  intros [Hvars Hterms] Hc.
  assert (∀ p v, variables f !! p = Some v → variables f' !! p = Some v) as Hkeep.
  { intros p v. by eapply perform_keeps. }
  destruct c as [q d cov|tm args]; simpl in Hc.
  - split.
    + unfold Function.add_variable_internal in Hc. cbn in Hc.
      destruct (variables f !! q) as [w|] eqn:Hq.
      * case_bool_decide; [done|]. injection Hc as <-. exact Hvars.
      * assert (∀ ud sd cv,
                  Function.register_variable q ud sd cv
                    (Function.set_local_storage_allocated false f) = Return f' →
                  match cv with
                  | None => sd = ud
                  | Some c => ud = x_dimension c ∧ sd = t_dimension c
                  end →
                  ∀ p v, variables f' !! p = Some v → well_formed_variable v) as Hreg.
        { intros ud sd cv Hreg Hdims p v.
          unfold Function.register_variable in Hreg. case_bool_decide; [done|].
          injection Hreg as <-. cbn.
          destruct (decide (q = p)) as [->|Hne].
          - rewrite lookup_insert_eq. intros [= <-]. repeat split; cbn; try lia.
            + by rewrite length_replicate.
            + exact Hdims.
          - rewrite lookup_insert_ne by done. apply Hvars. }
        destruct cov as [cv|].
        -- case_bool_decide; [done|]. by eapply Hreg.
        -- by eapply Hreg.
    + assert (terms f' = terms f) as ->.
      { unfold Function.add_variable_internal, Function.register_variable in Hc.
        cbn in Hc. destruct (variables f !! q).
        - case_bool_decide; [done|]. by injection Hc as <-.
        - destruct cov; repeat (case_bool_decide; [done|]); by injection Hc as <-. }
      eapply Forall_impl; [exact Hterms|]. intros t. by apply well_formed_term_keeps.
  - destruct (add_term_Return tm args f f' Hc)
      as (Harity & Hall & Hsame & _ & t & Hts & Htm & Hargs).
    split.
    + rewrite Hsame. exact Hvars.
    + rewrite Hts. apply Forall_app. split.
      * eapply Forall_impl; [exact Hterms|]. intros t'. by apply well_formed_term_keeps.
      * apply Forall_singleton.
        split; [by rewrite Htm, Hargs|]. rewrite Htm, Hargs, Hsame. exact Hall.
Qed.

Lemma perform_all_well_formed (calls : list call) f f' :
  well_formed f → perform_all calls f = Return f' → well_formed f'.
Proof.
  revert f. induction calls as [|c calls IH]; intros f Hwf Hrun; unfold perform_all in *;
    simpl in *.
  - by injection Hrun as <-.
  - destruct (perform c f) as [f1|] eqn:Hc; [|done].
    eapply IH; [|exact Hrun]. by eapply perform_well_formed.
Qed.

Lemma well_formed_new : well_formed (Function.new (D := D)).
Proof. split; [|constructor]. intros p v. cbn. by rewrite lookup_empty. Qed.

(** X4.  A Function built from a new one by calls that all return satisfies
    the invariants of the data model: every variable has a nonnegative user
    dimension, scratch space of that length and dimensions that follow its
    change of variables; every term has as many arguments as variables,
    each a registered variable of the dimension the term declares. *)
Theorem built_well_formed (calls : list call) f :
  perform_all calls Function.new = Return f → well_formed f.
Proof. apply perform_all_well_formed, well_formed_new. Qed.

(** X5.  The number of variables of a Function built by calls that all
    return is the number of distinct pointers that were registered. *)
Theorem number_of_variables_registered (calls : list call) f :
  perform_all calls Function.new = Return f →
  Function.get_number_of_variables f = length (registration_order calls).
Proof.
  intros Hrun.
  pose proof (perform_all_inv calls [] _ f registry_inv_new Hrun) as (Hnd & Hdom & _).
  fold (registration_order calls) in *.
  unfold Function.get_number_of_variables.
  rewrite <- size_dom. unfold size, set_size. cbn.
  apply Permutation_length. apply NoDup_Permutation; [apply NoDup_elements|done|].
  intros p. rewrite elem_of_elements, elem_of_dom. symmetry. apply Hdom.
Qed.

Lemma solver_sum_take_S f (order : list Z) (k : nat) (p : Z) :
  order !! k = Some p →
  solver_sum f (take (S k) order) =
  (solver_sum f (take k order) + solver_dimension (Function.deref f p))%Z.
Proof.
  intros Hk. rewrite (take_S_r _ _ _ Hk), solver_sum_app.
  f_equal. unfold solver_sum. simpl. lia.
Qed.

Lemma solver_sum_take_le f (order : list Z) (j k : nat) :
  (∀ p v, variables f !! p = Some v → (0 ≤ solver_dimension v)%Z) →
  (j ≤ k)%nat →
  (solver_sum f (take j order) ≤ solver_sum f (take k order))%Z.
Proof.
  intros Hpos Hjk.
  replace (take j order) with (take j (take k order)) by (rewrite take_take; f_equal; lia).
  by apply solver_sum_take.
Qed.

(** A registry whose indices are the running sums, with dimensions that
    are not negative and a total below [2^64], lays the variables out one
    after the other. *)
Lemma registry_disjoint_ranges (order : list Z) f :
  registry_inv order f →
  (∀ p v, variables f !! p = Some v → (0 ≤ solver_dimension v)%Z) →
  (solver_total f < 2 ^ 64)%Z →
  disjoint_ranges f.
Proof.
  intros (Hnd & Hdom & Hns & Hgi) Hpos Hfit.
  pose proof (solver_total_sum _ f Hnd Hdom) as Htotal.
  assert (number_of_scalars f = solver_sum f order) as Hn.
  { rewrite Hns. apply to_size_t_small.
    pose proof (solver_sum_nonnegative f order Hpos). lia. }
  assert (∀ k p v, order !! k = Some p → variables f !! p = Some v →
            global_index v = solver_sum f (take k order)) as Hindex.
  { intros k p v Hk Hv. specialize (Hgi k p Hk). unfold Function.deref in Hgi.
    rewrite Hv in Hgi. cbn in Hgi. rewrite Hgi. apply to_size_t_small.
    pose proof (solver_sum_take f order k Hpos). lia. }
  assert (∀ k p v, order !! k = Some p → variables f !! p = Some v →
            (global_index v + solver_dimension v)%Z = solver_sum f (take (S k) order))
    as Hnext.
  { intros k p v Hk Hv. rewrite (solver_sum_take_S f order k p Hk), (Hindex k p v Hk Hv).
    unfold Function.deref. by rewrite Hv. }
  split.
  - intros p v Hv.
    assert (p ∈ order) as Hin by (apply Hdom; eauto).
    apply list_elem_of_lookup_1 in Hin as [k Hk].
    rewrite (Hnext k p v Hk Hv), (Hindex k p v Hk Hv), Hn.
    pose proof (solver_sum_take f order k Hpos).
    pose proof (solver_sum_take f order (S k) Hpos). lia.
  - intros p q v w Hne Hv Hw.
    assert (p ∈ order) as Hp by (apply Hdom; eauto).
    assert (q ∈ order) as Hq by (apply Hdom; eauto).
    apply list_elem_of_lookup_1 in Hp as [j Hj].
    apply list_elem_of_lookup_1 in Hq as [k Hk].
    assert (j ≠ k) as Hjk by (intros ->; congruence).
    destruct (decide (j < k)%nat).
    + left. rewrite (Hnext j p v Hj Hv), (Hindex k q w Hk Hw).
      apply solver_sum_take_le; [done|lia].
    + right. rewrite (Hnext k q w Hk Hw), (Hindex j p v Hj Hv).
      apply solver_sum_take_le; [done|lia].
Qed.

(** X6.  Under the hypotheses of index consistency, the variables of a
    Function built by calls take disjoint ranges
    [global_index, global_index + solver_dimension) of the solver's vector,
    and every range lies inside [0, number_of_scalars). *)
Theorem built_disjoint_ranges (calls : list call) f :
  perform_all calls Function.new = Return f →
  Forall nonnegative_t_dimension calls →
  (solver_total f < 2 ^ 64)%Z →
  disjoint_ranges f.
Proof.
  intros Hrun Hwf Hfit.
  apply (registry_disjoint_ranges (registration_order calls)); [|  |done].
  - exact (perform_all_inv calls [] _ f registry_inv_new Hrun).
  - eapply perform_all_nonnegative; [exact Hwf|exact Hrun|].
    intros p v. simpl. by rewrite lookup_empty.
Qed.

(** Registering without a change of variables gives a Function without
    one. *)
Lemma built_plain (calls : list call) f :
  Forall without_change_of_variables calls →
  perform_all calls Function.new = Return f → plain f.
Proof.
  intros Hcalls.
  assert (∀ f0, plain f0 → perform_all calls f0 = Return f → plain f) as Hgen.
  { induction Hcalls as [|c calls Hc Hcalls IH]; intros f0 Hplain Hrun;
      unfold perform_all in *; simpl in *.
    - by injection Hrun as <-.
    - destruct (perform c f0) as [f1|] eqn:Hc1; [|done].
      eapply IH; [|exact Hrun]. intros p v.
      destruct c as [q d [cv|]|tm args]; [done| |]; simpl in Hc1.
      + unfold Function.add_variable_internal, Function.register_variable in Hc1.
        cbn in Hc1. destruct (variables f0 !! q) eqn:Hq.
        * case_bool_decide; [done|]. injection Hc1 as <-. apply Hplain.
        * case_bool_decide; [done|]. injection Hc1 as <-. cbn.
          destruct (decide (q = p)) as [->|Hne].
          -- rewrite lookup_insert_eq. by intros [= <-].
          -- rewrite lookup_insert_ne by done. apply Hplain.
      + destruct (add_term_Return tm args f0 f1 Hc1) as (_ & _ & -> & _). apply Hplain. }
  apply Hgen. intros p v. cbn. by rewrite lookup_empty.
Qed.

(** A Function built without changes of variables, with a total below
    [2^64], is ready for the copies. *)
Lemma built_copy_ready (calls : list call) f (x : list D) :
  Forall without_change_of_variables calls →
  perform_all calls Function.new = Return f →
  (solver_total f < 2 ^ 64)%Z →
  length x = Z.to_nat (number_of_scalars f) →
  copy_ready f x.
Proof.
  intros Hcalls Hrun Hfit Hlen.
  pose proof (built_plain calls f Hcalls Hrun) as Hplain.
  pose proof (perform_all_well_formed calls _ f well_formed_new Hrun) as [Hvars _].
  assert (∀ p v, variables f !! p = Some v →
            (0 ≤ user_dimension v)%Z ∧ solver_dimension v = user_dimension v) as Hdims.
  { intros p v Hv. destruct (Hvars p v Hv) as (Hpos & _ & Hcov).
    by rewrite (Hplain p v Hv) in Hcov. }
  split; [done|]. split; [|done].
  apply (registry_disjoint_ranges (registration_order calls)); [| |done].
  - exact (perform_all_inv calls [] _ f registry_inv_new Hrun).
  - intros p v Hv. destruct (Hdims p v Hv). lia.
Qed.

End RegistryInvariants.


(** ** Between the user's memory and the solver's vector *)

Section Copies.
Context {D : Type} `{DoubleArith D}.
Implicit Types (f : Function D) (x : list D) (user : Z → D).

Lemma deref_Some f (p : Z) (v : AddedVariable D) :
  variables f !! p = Some v → Function.deref f p = v.
Proof. intros Hv. unfold Function.deref. by rewrite Hv. Qed.

Lemma keys_in_order_spec (m : gmap Z (AddedVariable D)) :
  NoDup (Function.keys_in_order m) ∧
  ∀ p, p ∈ Function.keys_in_order m ↔ is_Some (m !! p).
Proof.
  unfold Function.keys_in_order. split.
  - rewrite merge_sort_Permutation. apply NoDup_elements.
  - intros p. rewrite merge_sort_Permutation, elem_of_elements. apply elem_of_dom.
Qed.

Lemma for_loop_ext {S : Type} (n : nat) (body1 body2 : nat → S → S) (s : S) :
  (∀ k a, (k < n)%nat → body1 k a = body2 k a) →
  for_loop n body1 s = for_loop n body2 s.
Proof.
  intros Hsame. apply (for_loop_related eq); [done|]. intros k a b Hk ->. by apply Hsame.
Qed.

(** The loop [for i < n: x[g + i] = u(i)] writes the cells of its range and
    no other. *)
Lemma write_range_lookup (n : nat) (g : Z) (u : nat → D) x (m : nat) :
  (0 ≤ g)%Z →
  for_loop n (λ i x, <[Z.to_nat (g + Z.of_nat i) := u i]> x) x !! m =
  if bool_decide (Z.to_nat g ≤ m < Z.to_nat g + n ∧ m < length x)%nat
  then Some (u (m - Z.to_nat g)%nat) else x !! m.
Proof.
  intros Hg.
  assert (∀ k, length (for_loop k (λ i x, <[Z.to_nat (g + Z.of_nat i) := u i]> x) x)
               = length x) as Hlen.
  { induction k as [|k IH]; [done|]. by rewrite for_loop_S, length_insert. }
  induction n as [|n IH].
  - rewrite bool_decide_eq_false_2; [done|lia].
  - rewrite for_loop_S.
    replace (Z.to_nat (g + Z.of_nat n)) with (Z.to_nat g + n)%nat by lia.
    destruct (decide (m = Z.to_nat g + n)%nat) as [->|Hne].
    + destruct (decide (Z.to_nat g + n < length x)%nat).
      * rewrite list_lookup_insert_eq by (rewrite Hlen; lia).
        rewrite bool_decide_eq_true_2 by lia. do 2 f_equal. lia.
      * rewrite list_insert_ge by (rewrite Hlen; lia). rewrite IH.
        rewrite !bool_decide_eq_false_2 by lia. done.
    + rewrite list_lookup_insert_ne by done. rewrite IH.
      repeat case_bool_decide; try done; lia.
Qed.

Lemma write_range_length (n : nat) (g : Z) (u : nat → D) x :
  length (for_loop n (λ i x, <[Z.to_nat (g + Z.of_nat i) := u i]> x) x) = length x.
Proof.
  apply (for_loop_invariant (λ _ x', length x' = length x)); [done|].
  intros k x' _ Hx'. by rewrite length_insert.
Qed.

Lemma write_variable_length user f x p :
  length (Function.write_variable user f x p) = length x.
Proof.
  unfold Function.write_variable. cbn zeta. destruct (change_of_variables _).
  - apply (for_loop_invariant (λ _ x', length x' = length x)); [done|].
    intros i x' _ Hx'. destruct (_ !! i); [|done]. by rewrite length_insert.
  - apply write_range_length.
Qed.

Lemma copy_user_to_global_cells user x f (ks : list Z) :
  copy_ready f x →
  (∀ k, k ∈ ks → is_Some (variables f !! k)) →
  ∀ p v (i : nat),
    variables f !! p = Some v → (Z.of_nat i < user_dimension v)%Z →
    foldl (Function.write_variable user f) x ks
      !! Z.to_nat (global_index v + Z.of_nat i) =
    if bool_decide (p ∈ ks) then Some (user (p + Z.of_nat i)%Z)
    else x !! Z.to_nat (global_index v + Z.of_nat i).
Proof.
  intros (Hplain & [Hin Hdisj] & Hdims & Hlen) Hks p v i Hv Hi.
  revert x Hlen. induction ks as [|k ks IH]; intros x Hlen; cbn [foldl].
  - rewrite bool_decide_eq_false_2; [done|apply not_elem_of_nil].
  - destruct (Hks k) as [w Hw]; [apply list_elem_of_here|].
    destruct (Hin k w Hw) as [Hw0 HwN]. destruct (Hdims k w Hw) as [Hwd Hws].
    destruct (Hin p v Hv) as [Hv0 HvN]. destruct (Hdims p v Hv) as [Hvd Hvs].
    rewrite IH.
    2: { intros k' Hk'. apply Hks. by apply list_elem_of_further. }
    2: { by rewrite write_variable_length. }
    unfold Function.write_variable. rewrite (deref_Some f k w Hw). cbn zeta.
    rewrite (Hplain k w Hw).
    rewrite write_range_lookup by done.
    destruct (decide (p = k)) as [->|Hne].
    + assert (w = v) as -> by congruence.
      rewrite (bool_decide_eq_true_2 (k ∈ k :: ks)) by apply list_elem_of_here.
      rewrite (bool_decide_eq_true_2 (_ ∧ _)) by lia.
      replace (Z.to_nat (global_index v + Z.of_nat i) - Z.to_nat (global_index v))%nat
        with i by lia.
      by case_bool_decide.
    + rewrite (bool_decide_eq_false_2 (_ ∧ _)).
      2: { destruct (Hdisj p k v w Hne Hv Hw); lia. }
      rewrite (bool_decide_ext (p ∈ k :: ks) (p ∈ ks)); [done|].
      rewrite elem_of_cons. split; [intros [Heq|?]; [by destruct Hne|done]|by right].
Qed.

(** After [copy_user_to_global] the cells of every variable hold the
    user's values. *)
Lemma copy_user_to_global_reads user x f p v (i : nat) :
  copy_ready f x → variables f !! p = Some v → (Z.of_nat i < user_dimension v)%Z →
  vec_get (Function.copy_user_to_global user x f) (global_index v + Z.of_nat i) =
  user (p + Z.of_nat i)%Z.
Proof.
  intros Hready Hv Hi. unfold vec_get, Function.copy_user_to_global.
  destruct (keys_in_order_spec (variables f)) as [_ Hkeys].
  rewrite (copy_user_to_global_cells user x f _ Hready) with (p := p); try done.
  - rewrite bool_decide_eq_true_2; [done|]. apply Hkeys. eauto.
  - intros k Hk. by apply Hkeys.
Qed.

(** X7.  For a Function without changes of variables whose variables are
    laid out without overlap, writing the user's values into the solver's
    vector and reading them back leaves every cell of the user's memory as
    it was. *)
Theorem copy_user_to_global_to_user user x f :
  copy_ready f x →
  ∀ a, Function.copy_global_to_user (Function.copy_user_to_global user x f) user f a
       = user a.
Proof.
  intros Hready a. unfold Function.copy_global_to_user.
  destruct (keys_in_order_spec (variables f)) as [_ Hkeys].
  set (xs := Function.copy_user_to_global user x f).
  assert (∀ ks, (∀ k, k ∈ ks → is_Some (variables f !! k)) →
            ∀ u, (∀ b, u b = user b) →
            ∀ b, foldl (Function.read_variable xs f) u ks b = user b) as Hgen.
  { induction ks as [|k ks IH]; intros Hks u Hu b; cbn [foldl]; [apply Hu|].
    apply IH; [intros k' Hk'; apply Hks; by apply list_elem_of_further|].
    destruct (Hks k) as [w Hw]; [apply list_elem_of_here|].
    unfold Function.read_variable. rewrite (deref_Some f k w Hw). cbn zeta.
    pose proof Hready as (Hplain & _ & Hdims & _). rewrite (Hplain k w Hw).
    apply (for_loop_invariant (λ _ u', ∀ c, u' c = user c)); [exact Hu|].
    intros i u' Hi Hu' c. unfold Function.store. case_bool_decide as Hc; [|apply Hu'].
    subst c. subst xs. apply copy_user_to_global_reads; [done|done|lia]. }
  apply Hgen; [|done]. intros k Hk. by apply Hkeys.
Qed.

(** X8.  For such a Function, [evaluate(x)] on the vector that
    [copy_user_to_global] has filled is [evaluate()] on the user's values. *)
Theorem evaluate_at_copy_user_to_global user x f :
  copy_ready f x →
  Function.evaluate_at (Function.copy_user_to_global user x f) f =
  Function.evaluate user f.
Proof.
  intros Hready. unfold Function.evaluate_at, Function.evaluate. f_equal.
  unfold Function.copy_global_to_local, Function.copy_user_to_local. f_equal.
  apply map_eq. intros p. rewrite lookup_fmap, map_lookup_imap.
  destruct (variables f !! p) as [v|] eqn:Hv; [|done]. cbn.
  pose proof Hready as (Hplain & Hranges & Hdims & Hlen).
  rewrite (Hplain p v Hv). do 2 f_equal.
  apply for_loop_ext. intros i ts Hi. f_equal.
  apply copy_user_to_global_reads; [done|done|lia].
Qed.

End Copies.

(** ** The scratch space *)

Section Storage.
Context {D : Type} `{DoubleArith D}.
Implicit Types (f : Function D) (t : AddedTerm D).

Lemma foldl_max_Z {A : Type} (g : A → Z) (l : list A) (acc : Z) :
  (acc ≤ foldl (λ acc a, Z.max acc (g a)) acc l)%Z ∧
  ∀ a, a ∈ l → (g a ≤ foldl (λ acc a, Z.max acc (g a)) acc l)%Z.
Proof.
  revert acc. induction l as [|b l IH]; intros acc; cbn [foldl].
  - split; [lia|]. intros a Ha. by apply elem_of_nil in Ha.
  - destruct (IH (Z.max acc (g b))) as [Hacc Hall]. split; [lia|].
    intros a Ha. apply elem_of_cons in Ha as [->|Ha]; [lia|by apply Hall].
Qed.

Lemma foldl_max_nat {A : Type} (g : A → nat) (l : list A) (acc : nat) :
  (acc ≤ foldl (λ acc a, Nat.max acc (g a)) acc l)%nat ∧
  ∀ a, a ∈ l → (g a ≤ foldl (λ acc a, Nat.max acc (g a)) acc l)%nat.
Proof.
  revert acc. induction l as [|b l IH]; intros acc; cbn [foldl].
  - split; [lia|]. intros a Ha. by apply elem_of_nil in Ha.
  - destruct (IH (Nat.max acc (g b))) as [Hacc Hall]. split; [lia|].
    intros a Ha. apply elem_of_cons in Ha as [->|Ha]; [lia|by apply Hall].
Qed.

(** X9.  The scratch gradients that [allocate_local_storage] sizes are
    large enough for every term that [add_term] accepted: a term has at
    most [max_arity] arguments, and each argument has at most
    [max_variable_dimension] scalars. *)
Theorem scratch_suffices f t :
  well_formed f → t ∈ terms f →
  (number_of_variables (term t) ≤ Function.max_arity f)%nat ∧
  ∀ var, (var < number_of_variables (term t))%nat →
    (Z.of_nat (variable_dimension (term t) var) ≤ Function.max_variable_dimension f)%Z.
Proof.
  intros [_ Hterms] Ht. rewrite Forall_forall in Hterms.
  destruct (Hterms t Ht) as [Harity Hargs]. split.
  - rewrite Harity. unfold Function.max_arity.
    by apply (foldl_max_nat (λ t, length (user_variables t)) (terms f) 1).
  - intros var Hvar.
    destruct (lookup_lt_is_Some_2 (user_variables t) var) as [p Hp]; [lia|].
    destruct (Hargs var p Hp) as (v & Hv & <-).
    unfold Function.max_variable_dimension.
    rewrite <- (deref_Some f p v Hv).
    apply (foldl_max_Z (λ p, user_dimension (Function.deref f p))).
    apply keys_in_order_spec. eauto.
Qed.

End Storage.


(** ** Failures of the gradient and Hessian overloads *)

Section Failures.
Context {D : Type} `{DoubleArith D}.
Implicit Types (f : Function D) (t : AddedTerm D) (s : Function.TermLoop D).

(** X11.  When the dense overload throws, either the [gradient] and
    [hessian] of the caller are as they were, or the exception is the one
    of line 512. *)
Theorem evaluate_dense_failure f (x gradient : list D)
    (hessian : option (DenseMatrix D)) (scratch : list (list D))
    (what : string) (g' : list D) (h' : option (DenseMatrix D)) :
  Function.evaluate_dense x gradient hessian scratch f = (Throw what, g', h') →
  (g' = gradient ∧ h' = hessian) ∨ what = Function.not_supported_for_Hessians.
Proof.
  unfold Function.evaluate_dense.
  destruct (_ && _); [intros [= _ <- <-]; by left|].
  destruct (for_each _ _ _) as [s|w]; [|intros [= _ <- <-]; by left].
  destruct hessian as [m0|]; [|done].
  destruct (for_each_step _ _ _) as [m|w m] eqn:Hscatter; [done|].
  intros [= <- _ _]. right. by apply scatter_dense_raise in Hscatter as [-> _].
Qed.

(** X12.  When the sparse overload throws, the [gradient] and [hessian] of
    the caller are as they were. *)
Theorem evaluate_sparse_failure f (x gradient : list D)
    (hessian : option (SparseMatrix D)) (scratch : list (list D))
    (what : string) (g' : list D) (h' : option (SparseMatrix D)) :
  Function.evaluate_sparse x gradient hessian scratch f = (Throw what, g', h') →
  g' = gradient ∧ h' = hessian.
Proof.
  unfold Function.evaluate_sparse.
  destruct hessian as [m|]; [|by intros [= _ <- <-]].
  destruct (negb _); [by intros [= _ <- <-]|].
  destruct (for_each _ _ _); [done|]. by intros [= _ <- <-].
Qed.

Lemma evaluate_terms_dense_hessians f (x : list D) (ts : list (AddedTerm D)) s0 s :
  for_each ts (Function.evaluate_term true f x) s0 = Return s →
  length (Function.term_hessians s) = (length (Function.term_hessians s0) + length ts)%nat.
Proof.
  revert s0. induction ts as [|t ts IH]; intros s0; cbn [for_each].
  - intros [= <-]. cbn. lia.
  - destruct (Function.evaluate_term true f x t s0) as [s1|] eqn:Hterm; [|done].
    intros Hrest. rewrite (IH _ Hrest).
    unfold Function.evaluate_term in Hterm.
    destruct (evaluate_hessian _ _ _ _) as [[[v scratch] h]|]; [|done].
    injection Hterm as <-. cbn. rewrite length_app. simpl. lia.
Qed.

Lemma scatter_dense_next f (ths : list (AddedTerm D * BlockHessian D))
    (m0 m : DenseMatrix D) :
  for_each_step ths (Function.scatter_term_dense f) m0 = Next m →
  ∀ th var, th ∈ ths → (var < number_of_variables (term th.1))%nat →
            change_of_variables (Function.argument f th.1 var) = None.
Proof.
  revert m0. induction ths as [|th ths IH]; intros m0; simpl.
  - intros _ th var Hin. by apply elem_of_nil in Hin.
  - destruct (Function.scatter_term_dense f th m0) as [m1|w m1] eqn:Hterm; [|done].
    intros Hrest th' var Hin Hvar. apply elem_of_cons in Hin as [->|Hin].
    + clear Hrest IH. unfold Function.scatter_term_dense in Hterm.
      assert (var ∈ seq 0 (number_of_variables (term th.1))) as Hseq
        by (apply elem_of_seq; lia).
      revert Hseq m0 Hterm. generalize (seq 0 (number_of_variables (term th.1))).
      intros vars. induction vars as [|var0 vars IHv]; intros Hseq m0; simpl.
      * by apply elem_of_nil in Hseq.
      * destruct (change_of_variables (Function.argument f th.1 var0)) eqn:Hcov; [done|].
        intros Hrest. apply elem_of_cons in Hseq as [->|Hseq]; [done|].
        by eapply IHv.
    + by eapply IH.
Qed.

(** X13.  A call of the dense overload with a Hessian that returns shows
    that no argument of any term has a change of variables and that
    Hessians are enabled; the gradient it leaves has [number_of_scalars]
    entries. *)
Theorem evaluate_dense_returns f (x gradient : list D) (hessian : DenseMatrix D)
    (scratch : list (list D)) (v : D) (g' : list D) (h' : option (DenseMatrix D)) :
  Function.evaluate_dense x gradient (Some hessian) scratch f = (Return v, g', h') →
  (∀ t var, t ∈ terms f → (var < number_of_variables (term t))%nat →
     change_of_variables (Function.argument f t var) = None) ∧
  length g' = Z.to_nat (number_of_scalars f) ∧
  hessian_is_enabled f = true.
Proof.
  unfold Function.evaluate_dense.
  rewrite bool_decide_eq_true_2 by eauto. cbn [andb].
  destruct (hessian_is_enabled f); cbn [negb]; [|done].
  set (f' := Function.copy_global_to_local x f).
  pose proof (evaluate_terms_dense f' x (terms f') (Function.start_term_loop scratch f'))
    as Hloop.
  destruct (for_each (terms f') _ _) as [s|] eqn:Hrun; [|done].
  destruct (for_each_step _ _ _) as [m|] eqn:Hscatter; [|done].
  intros [= _ <- _]. split; [|split; [|done]].
  - intros t var Hin Hvar.
    apply evaluate_terms_dense_hessians in Hrun. cbn in Hrun.
    assert (∃ h, (t, h) ∈ zip (terms f') (Function.term_hessians s)) as [h Hth].
    { change (terms f') with (terms f) in *.
      apply list_elem_of_lookup_1 in Hin as [k Hk].
      destruct (lookup_lt_is_Some_2 (Function.term_hessians s) k) as [h Hh].
      { rewrite Hrun. by eapply lookup_lt_Some. }
      exists h. apply list_elem_of_lookup_2 with k. rewrite lookup_zip_with, Hk. cbn.
      by rewrite Hh. }
    pose proof (scatter_dense_next f' _ _ _ Hscatter (t, h) var Hth Hvar) as Hcov.
    cbn in Hcov.
    destruct (change_of_variables (Function.argument f t var)) eqn:Hf; [|done].
    assert (is_Some (change_of_variables (Function.argument f' t var))) as [c' Hc].
    { apply change_of_variables_copy_global_to_local. rewrite Hf. eauto. }
    congruence.
  - unfold Function.assemble_gradient. rewrite length_fmap, Hloop. cbn.
    by rewrite length_replicate.
Qed.

Lemma scatter_gradient_sparse_return f t (scratch : list (list D)) (storage storage' : list D) :
  Function.scatter_gradient_sparse f t scratch storage = Return storage' →
  ∀ var, (var < length (user_variables t))%nat →
         change_of_variables (Function.argument f t var) = None.
Proof.
  unfold Function.scatter_gradient_sparse. intros Hrun var Hvar.
  assert (var ∈ seq 0 (length (user_variables t))) as Hseq by (apply elem_of_seq; lia).
  revert Hseq storage Hrun. generalize (seq 0 (length (user_variables t))).
  intros vars. induction vars as [|var0 vars IH]; intros Hseq storage; simpl.
  - by apply elem_of_nil in Hseq.
  - destruct (change_of_variables (Function.argument f t var0)) eqn:Hcov; [done|].
    intros Hrest. apply elem_of_cons in Hseq as [->|Hseq]; [done|]. by eapply IH.
Qed.

(** X14.  A call of the sparse overload that returns shows that no argument
    of any term has a change of variables. *)
Theorem evaluate_sparse_returns f (x gradient : list D)
    (hessian : option (SparseMatrix D)) (scratch : list (list D))
    (v : D) (g' : list D) (h' : option (SparseMatrix D)) :
  Function.evaluate_sparse x gradient hessian scratch f = (Return v, g', h') →
  ∀ t var, t ∈ terms f → (var < length (user_variables t))%nat →
    change_of_variables (Function.argument f t var) = None.
Proof.
  unfold Function.evaluate_sparse.
  destruct hessian as [m|]; [|done]. destruct (negb _); [done|].
  set (f' := Function.copy_global_to_local x f).
  destruct (for_each (terms f') _ _) as [s|] eqn:Hrun; [|done].
  intros _ t var Hin Hvar. change (terms f') with (terms f) in Hrun.
  assert (∀ ts s0 s1, for_each ts (Function.evaluate_term_sparse f') s0 = Return s1 →
            t ∈ ts → change_of_variables (Function.argument f' t var) = None) as Hgen.
  { induction ts as [|t0 ts IH]; intros s0 s1; simpl.
    - intros _ Ht. by apply elem_of_nil in Ht.
    - destruct (Function.evaluate_term_sparse f' t0 s0) as [s2|] eqn:Hterm; [|done].
      intros Hrest Ht. apply elem_of_cons in Ht as [->|Ht]; [|by eapply IH].
      unfold Function.evaluate_term_sparse in Hterm.
      destruct (evaluate_hessian _ _ _ _) as [[[v0 sc] h]|]; [|done].
      destruct (Function.scatter_gradient_sparse f' t0 sc _) as [st|] eqn:Hsc; [|done].
      by eapply scatter_gradient_sparse_return. }
  specialize (Hgen _ _ _ Hrun Hin).
  destruct (change_of_variables (Function.argument f t var)) eqn:Hf; [|done].
  assert (is_Some (change_of_variables (Function.argument f' t var))) as [c' Hc].
  { apply change_of_variables_copy_global_to_local. rewrite Hf. eauto. }
  congruence.
Qed.

End Failures.

(** ** The sparsity pattern *)

Section SparsityPattern.
Context {D : Type} `{DoubleArith D}.

(** A loop that appends to a list appends the concatenation of what its
    turns append. *)
Lemma for_loop_bind {A : Type} (n : nat) (body : nat → list A → list A)
    (E : nat → list A) :
  (∀ k acc, body k acc = acc ++ E k) →
  ∀ acc, for_loop n body acc = acc ++ (seq 0 n ≫= E).
Proof.
  intros Hbody. induction n as [|n IH]; intros acc.
  - unfold for_loop. cbn. by rewrite app_nil_r.
  - rewrite for_loop_S, IH, Hbody, seq_S, bind_app, <- app_assoc. cbn.
    by rewrite app_nil_r.
Qed.

Lemma foldl_bind {A B : Type} (body : list A → B → list A) (E : B → list A) (l : list B) :
  (∀ acc b, body acc b = acc ++ E b) →
  ∀ acc, foldl body acc l = acc ++ (l ≫= E).
Proof.
  intros Hbody. induction l as [|b l IH]; intros acc; cbn.
  - by rewrite app_nil_r.
  - by rewrite IH, Hbody, <- app_assoc.
Qed.

Lemma pattern_triplets_bind (f : Function D) :
  Function.pattern_triplets f = terms f ≫= Function.term_pattern f.
Proof.
  unfold Function.pattern_triplets.
  rewrite (foldl_bind _ (Function.term_pattern f)); [done|].
  intros acc t. unfold Function.term_pattern.
  apply for_loop_bind. intros var0 acc0. cbn zeta.
  apply for_loop_bind. intros var1 acc1. cbn zeta.
  apply for_loop_bind. intros i acc2.
  apply for_loop_bind. intros j acc3. done.
Qed.

Lemma elem_of_term_pattern (f : Function D) (t : AddedTerm D) (tr : Triplet D) :
  tr ∈ Function.term_pattern f t ↔
  ∃ var0 var1 i j : nat,
    (var0 < number_of_variables (term t))%nat ∧
    (var1 < number_of_variables (term t))%nat ∧
    (i < variable_dimension (term t) var0)%nat ∧
    (j < variable_dimension (term t) var1)%nat ∧
    tr = (static_cast_int (to_size_t (Z.of_nat i + global_index (Function.argument f t var0))),
          static_cast_int (to_size_t (Z.of_nat j + global_index (Function.argument f t var1))),
          dlit 1.0).
Proof.
  unfold Function.term_pattern. split.
  - intros (var0 & (var1 & (i & (j & Htr & Hj)%list_elem_of_bind & Hi)%list_elem_of_bind
                           & Hvar1)%list_elem_of_bind & Hvar0)%list_elem_of_bind.
    apply list_elem_of_singleton in Htr.
    apply elem_of_seq in Hvar0, Hvar1, Hi, Hj.
    exists var0, var1, i, j. repeat split; try lia. done.
  - intros (var0 & var1 & i & j & Hvar0 & Hvar1 & Hi & Hj & ->).
    apply list_elem_of_bind. exists var0. split; [|apply elem_of_seq; lia].
    apply list_elem_of_bind. exists var1. split; [|apply elem_of_seq; lia].
    apply list_elem_of_bind. exists i. split; [|apply elem_of_seq; lia].
    apply list_elem_of_bind. exists j. split; [|apply elem_of_seq; lia].
    by apply list_elem_of_singleton.
Qed.

(** X15.  The pattern that [create_sparse_hessian] stores is symmetric:
    with the entry at [(i, j)] it stores the entry at [(j, i)]. *)
Theorem sparse_pattern_symmetric (m : SparseMatrix D) (f : Function D) (i j : Z) :
  stored (Function.create_sparse_hessian m f).1 i j →
  stored (Function.create_sparse_hessian m f).1 j i.
Proof.
  unfold Function.create_sparse_hessian. cbn [fst].
  rewrite !stored_setFromTriplets, pattern_triplets_bind. unfold positions.
  intros (tr & Hpos & (t & Htr & Ht)%list_elem_of_bind)%list_elem_of_fmap.
  apply elem_of_term_pattern in Htr
    as (var0 & var1 & i' & j' & Hvar0 & Hvar1 & Hi & Hj & ->).
  cbn in Hpos. injection Hpos as -> ->.
  apply list_elem_of_fmap.
  eexists (_, _, dlit 1.0). split; [reflexivity|].
  apply list_elem_of_bind. exists t. split; [|done].
  apply elem_of_term_pattern. exists var1, var0, j', i'. by repeat split.
Qed.

Lemma length_bind {A B : Type} (E : A → list B) (l : list A) :
  length (l ≫= E) = sum_list_with (λ x, length (E x)) l.
Proof.
  induction l as [|x l IH]; [done|].
  rewrite bind_cons, length_app, IH. done.
Qed.

Lemma sum_list_with_ext {A : Type} (g g' : A → nat) (l : list A) :
  (∀ x, g x = g' x) → sum_list_with g l = sum_list_with g' l.
Proof. intros Hext. induction l as [|x l IH]; cbn; [done|]. by rewrite Hext, IH. Qed.

Lemma sum_list_with_mul_l {A : Type} (c : nat) (g : A → nat) (l : list A) :
  sum_list_with (λ x, c * g x)%nat l = (c * sum_list_with g l)%nat.
Proof. induction l as [|x l IH]; cbn; [lia|]. rewrite IH. lia. Qed.

Lemma sum_list_with_mul_r {A : Type} (c : nat) (g : A → nat) (l : list A) :
  sum_list_with (λ x, g x * c)%nat l = (sum_list_with g l * c)%nat.
Proof. induction l as [|x l IH]; cbn; [lia|]. rewrite IH. lia. Qed.

Lemma length_term_pattern (f : Function D) (t : AddedTerm D) :
  length (Function.term_pattern f t) = (Function.term_scalars (term t) * Function.term_scalars (term t))%nat.
Proof.
  unfold Function.term_pattern, Function.term_scalars. rewrite length_bind.
  rewrite <- sum_list_with_mul_r. apply sum_list_with_ext. intros var0.
  rewrite length_bind. rewrite <- sum_list_with_mul_l.
  apply sum_list_with_ext. intros var1.
  rewrite length_bind.
  rewrite (sum_list_with_ext _ (λ _, variable_dimension (term t) var1 * 1)%nat).
  2:{ intros i. rewrite length_bind.
      rewrite (sum_list_with_ext _ (λ _, 1 * 1)%nat) by done.
      rewrite sum_list_with_mul_l.
      assert (∀ n k, sum_list_with (λ _ : nat, 1%nat) (seq k n) = n) as Hones.
      { induction n as [|n IH]; intros k; cbn; [done|]. by rewrite IH. }
      rewrite Hones. lia. }
  rewrite sum_list_with_mul_l.
  assert (∀ n k, sum_list_with (λ _ : nat, 1%nat) (seq k n) = n) as Hones.
  { induction n as [|n IH]; intros k; cbn; [done|]. by rewrite IH. }
  rewrite Hones. lia.
Qed.

(** X16.  The number of Hessian elements that [create_sparse_hessian]
    records is the sum over the terms of the square of the number of
    scalars of the term's arguments: a position reached from several terms,
    or twice from one term, is counted every time. *)
Theorem number_of_hessian_elements_count (m : SparseMatrix D) (f : Function D) :
  (Function.create_sparse_hessian m f).2 =
  Z.of_nat (sum_list_with (λ t, Function.term_scalars (term t) * Function.term_scalars (term t))%nat (terms f)).
Proof.
  unfold Function.create_sparse_hessian. cbn [snd]. f_equal.
  rewrite pattern_triplets_bind, length_bind.
  apply sum_list_with_ext, length_term_pattern.
Qed.

End SparsityPattern.

(** ** More on the Phi wrapper *)

Section PhiFrame.
Context {D : Type} `{DoubleArith D}.

(** X17.  The evaluator with gradient of Phi keeps the shape of the
    gradient storage and leaves every entry outside the arguments of the
    wrapped term as the wrapped term left it. *)
Theorem Phi_gradient_frame (term : Term D) (sigma mu : D)
    (variables gradient : list (list D)) (i : nat) (row : list D) :
  (evaluate_gradient term variables gradient).2 !! i = Some row →
  ∃ row',
    (Phi.evaluate_gradient term sigma mu variables gradient).2 !! i = Some row' ∧
    length row' = length row ∧
    ∀ j x, row !! j = Some x →
           ¬ ((i < number_of_variables term)%nat ∧ (j < variable_dimension term i)%nat) →
           row' !! j = Some x.
Proof.
  unfold Phi.evaluate_gradient.
  destruct (evaluate_gradient term variables gradient) as [t g]. cbn [snd].
  intros Hrow. destruct (Phi.active sigma mu t); cbn [snd].
  - destruct (gradient_loops (Phi.active_gradient sigma mu t)
                (Phi.number_of_variables term) (Phi.variable_dimension term) g)
      as [_ Hrel].
    destruct (Hrel i row Hrow) as (row' & Hrow' & Hlen & Hent).
    exists row'. split; [done|]. split; [done|]. intros j x Hx Hout.
    by apply (Hent j x).
  - destruct (gradient_loops (λ _, Phi.inactive_gradient (D := D))
                (Phi.number_of_variables term) (Phi.variable_dimension term) g)
      as [_ Hrel].
    destruct (Hrel i row Hrow) as (row' & Hrow' & Hlen & Hent).
    exists row'. split; [done|]. split; [done|]. intros j x Hx Hout.
    by apply (Hent j x).
Qed.

End PhiFrame.

Section PhiShape.
Open Scope R_scope.

Lemma Phi_evaluate_real (term : Term R) (sigma mu : R) (variables : list (list R)) :
  Phi.evaluate term sigma mu variables =
  let t := evaluate term variables in
  if Rle_dec (- t - sigma / mu) 0 then sigma * t + mu / 2 * t ^ 2
  else - sigma ^ 2 / (2 * mu).
Proof.
  unfold Phi.evaluate. cbn zeta.
  destruct (Phi.active sigma mu _) eqn:Hact.
  - apply Phi_active_real in Hact. destruct (Rle_dec _ 0); [|done].
    apply Phi_active_value_real.
  - destruct (Rle_dec _ 0) as [Hle|]; [|apply Phi_inactive_value_real].
    apply Phi_active_real in Hle. congruence.
Qed.

(** Completing the square: both branches of Phi in one formula. *)
Lemma Phi_evaluate_max (term : Term R) (sigma mu : R) (variables : list (list R)) :
  0 < mu →
  Phi.evaluate term sigma mu variables =
  mu / 2 * Rmax 0 (evaluate term variables + sigma / mu) ^ 2 - sigma ^ 2 / (2 * mu).
Proof.
  intros Hmu. rewrite Phi_evaluate_real. cbn zeta.
  set (t := evaluate term variables).
  destruct (Rle_dec (- t - sigma / mu) 0) as [Hle|Hgt].
  - rewrite Rmax_right by lra. field. lra.
  - rewrite Rmax_left by lra. unfold Rdiv. ring.
Qed.

(** X19.  In exact arithmetic and for [mu > 0], the value of Phi is
    [(mu/2) * max(0, t + sigma/mu)^2 - sigma^2/(2*mu)] with [t] the value of
    the wrapped term; in particular it is never below [-sigma^2/(2*mu)],
    the value of the second branch. *)
Theorem Phi_closed_form (term : Term R) (sigma mu : R) (variables : list (list R)) :
  0 < mu →
  let t := evaluate term variables in
  Phi.evaluate term sigma mu variables =
    mu / 2 * Rmax 0 (t + sigma / mu) ^ 2 - sigma ^ 2 / (2 * mu) ∧
  Phi.inactive_value sigma mu <= Phi.evaluate term sigma mu variables.
Proof.
  intros Hmu t. split; [by apply Phi_evaluate_max|].
  rewrite Phi_evaluate_max, Phi_inactive_value_real by done. fold t.
  assert (0 <= mu / 2 * Rmax 0 (t + sigma / mu) ^ 2).
  { apply Rmult_le_pos; [lra|]. apply pow2_ge_0. }
  unfold Rdiv in *. lra.
Qed.

(** X20.  In exact arithmetic and for [mu > 0], Phi does not decrease when
    the value of the constraint grows. *)
Theorem Phi_monotone (term : Term R) (sigma mu : R) (variables variables' : list (list R)) :
  0 < mu →
  evaluate term variables <= evaluate term variables' →
  Phi.evaluate term sigma mu variables <= Phi.evaluate term sigma mu variables'.
Proof.
  intros Hmu Hle.
  rewrite !Phi_evaluate_max by done.
  set (a := Rmax 0 (evaluate term variables + sigma / mu)).
  set (b := Rmax 0 (evaluate term variables' + sigma / mu)).
  assert (0 <= a) by apply Rmax_l.
  assert (a <= b).
  { unfold a, b. apply Rmax_lub; [apply Rmax_l|].
    eapply Rle_trans; [|apply Rmax_r]. lra. }
  assert (a ^ 2 <= b ^ 2) by (apply pow_incr; lra).
  assert (mu / 2 * a ^ 2 <= mu / 2 * b ^ 2) by (apply Rmult_le_compat_l; lra).
  lra.
Qed.

(** X21.  In exact arithmetic, for [mu > 0] and a multiplier [sigma >= 0]:
    where the constraint holds ([t <= 0]) Phi is not positive, and with
    [sigma = 0] it is the quadratic penalty [(mu/2) * max(0, t)^2]. *)
Theorem Phi_feasible (term : Term R) (sigma mu : R) (variables : list (list R)) :
  0 < mu → 0 <= sigma →
  let t := evaluate term variables in
  (t <= 0 → Phi.evaluate term sigma mu variables <= 0) ∧
  (sigma = 0 → Phi.evaluate term sigma mu variables = mu / 2 * Rmax 0 t ^ 2).
Proof.
  intros Hmu Hsigma t. split.
  - intros Ht. rewrite Phi_evaluate_real. fold t. cbn zeta.
    destruct (Rle_dec (- t - sigma / mu) 0) as [Hle|Hgt].
    + assert (0 <= sigma + mu * t).
      { assert (sigma + mu * t = mu * (t + sigma / mu)) as -> by (field; lra).
        apply Rmult_le_pos; lra. }
      assert (sigma * t + mu / 2 * t ^ 2 = t * (sigma + mu * t) - mu / 2 * t ^ 2) as ->
        by (field; lra).
      assert (t * (sigma + mu * t) <= 0).
      { replace 0 with (0 * (sigma + mu * t)) by ring.
        apply Rmult_le_compat_r; lra. }
      assert (0 <= mu / 2 * t ^ 2).
      { apply Rmult_le_pos; [lra|]. apply pow2_ge_0. }
      lra.
    + assert (0 <= sigma ^ 2 / (2 * mu)).
      { apply Rmult_le_pos; [apply pow2_ge_0|].
        apply Rlt_le, Rinv_0_lt_compat. lra. }
      unfold Rdiv in *. lra.
  - intros ->. rewrite Phi_evaluate_max by done. fold t. replace (t + 0 / mu) with t by (field; lra). field. lra.
Qed.

End PhiShape.

(** ** More on solve *)

Section SolveFrame.
Context {D : Type} `{DoubleArith D} `{DoubleSpecial D}.
Implicit Types (cf : ConstrainedFunction.ConstrainedFunction D)
  (solver : ConstrainedFunction.Solver D) (s : ConstrainedFunction.State D).

Import ConstrainedFunction.

Lemma cache_values_cached (user : Z → D) (cs : list (string * Constraint D)) :
  cached (cache_values user cs) =
  (λ itr, (itr.1, {| base := base itr.2; lambda := lambda itr.2;
                     cached_value := Function.evaluate user (base itr.2) |})) <$> cs.
Proof.
  unfold cache_values.
  set (step := λ acc itr, _).
  set (upd := λ itr, _).
  assert (∀ acc, cached (foldl step acc cs) = cached acc ++ (upd <$> cs)) as Hgen.
  { induction cs as [|itr cs IH]; intros acc; simpl.
    - by rewrite app_nil_r.
    - rewrite IH. simpl. by rewrite <- app_assoc. }
  by rewrite Hgen.
Qed.

(** The value [max_violation] is the initial 0 or the value of a
    constraint that passed the test [acc < c_x] of [std::max]. *)
Lemma cache_values_max_violation (user : Z → D) (cs : list (string * Constraint D)) :
  max_violation (cache_values user cs) = dlit 0 ∨
  ∃ itr a, itr ∈ cs ∧
    max_violation (cache_values user cs) = Function.evaluate user (base itr.2) ∧
    (a <? Function.evaluate user (base itr.2))%D = true.
Proof.
  unfold cache_values.
  set (step := λ acc itr, _).
  set (P := λ (l : list (string * Constraint D)) (m : D),
         m = dlit 0 ∨ ∃ itr a, itr ∈ l ∧ m = Function.evaluate user (base itr.2)
                             ∧ (a <? Function.evaluate user (base itr.2))%D = true).
  assert (∀ seen acc, P seen (max_violation acc) →
            P (seen ++ cs) (max_violation (foldl step acc cs))) as Hgen.
  { induction cs as [|itr cs IH]; intros seen acc Hacc; simpl.
    - by rewrite app_nil_r.
    - replace (seen ++ itr :: cs) with ((seen ++ [itr]) ++ cs)
        by (by rewrite <- app_assoc).
      apply IH. subst step. cbn [max_violation]. unfold dmax.
      destruct (_ <? _)%D eqn:Hlt.
      + right. exists itr, (max_violation acc).
        split; [apply elem_of_app; right; apply list_elem_of_singleton; done|]. by split.
      + destruct Hacc as [Hz|(itr' & a & Hin & Hv)]; [by left|].
        right. exists itr', a. split; [apply elem_of_app; by left|done]. }
  apply (Hgen [] _). by left.
Qed.

(** What one turn of the loop does to the Implementation and to the
    user's memory, whichever way it ends. *)
Lemma iteration_implementation cf solver s s' :
  iteration cf solver s = inl s' ∨ iteration cf solver s = inr s' →
  let user := (after_solver solver s).1 in
  let cs := cached (cache_values user (constraints (implementation s))) in
  user_memory s' = user ∧
  objective (implementation s') = objective (implementation s) ∧
  augmented_lagrangian (implementation s') = augmented_lagrangian (implementation s) ∧
  ((mu (implementation s') = mu (implementation s) ∧
    (constraints (implementation s') = cs ∨
     constraints (implementation s') = updated (update_duals (mu (implementation s)) cs))) ∨
   (mu (implementation s') = (mu (implementation s) * dlit 100)%D ∧
    constraints (implementation s') = cs)).
Proof.
  unfold iteration, after_solver.
  destruct (solve_unconstrained solver (implementation s) (user_memory s))
    as [user written].
  cbn [fst snd set_constraints constraints mu].
  destruct (function_tolerance_reached _ _ _).
  { intros [[= <-]|[=]]. cbn. repeat split; try done. left. split; [done|]. by left. }
  destruct (_ <=? _)%D.
  - destruct (_ && _).
    + intros [[= <-]|[=]]. cbn. repeat split; try done. left. split; [done|]. by right.
    + case_bool_decide; intros [[= <-]|[= <-]]; cbn; repeat split; try done;
        left; (split; [done|]); by right.
  - case_bool_decide; intros [[= <-]|[= <-]]; cbn; repeat split; try done;
      right; by split.
Qed.

(** A turn that ends with [GRADIENT_TOLERANCE] has just updated the
    multipliers and seen [max_violation < 1e-8]. *)
Lemma iteration_gradient_tolerance cf solver s s' :
  iteration cf solver s = inl s' → results s' = GRADIENT_TOLERANCE →
  let user := (after_solver solver s).1 in
  let v := cache_values user (constraints (implementation s)) in
  user_memory s' = user ∧
  mu (implementation s') = mu (implementation s) ∧
  constraints (implementation s') = updated (update_duals (mu (implementation s)) (cached v)) ∧
  (max_violation v <? dlit 1e-8)%D = true.
Proof.
  unfold iteration, after_solver.
  destruct (solve_unconstrained solver (implementation s) (user_memory s))
    as [user written].
  cbn [fst snd set_constraints constraints mu].
  destruct (function_tolerance_reached _ _ _); [by intros [= <-]|].
  destruct (_ <=? _)%D.
  - destruct (_ && _) eqn:Htests.
    + intros [= <-] _. cbn. apply andb_true_iff in Htests as [_ Hviol]. done.
    + case_bool_decide; [|done]. by intros [= <-].
  - case_bool_decide; [|done]. by intros [= <-].
Qed.

(** Induction on the turns of the loop. *)
Lemma loop_invariant (P Q : State D → Prop) cf solver :
  (∀ s s1, P s → iteration cf solver s = inr s1 → P s1) →
  (∀ s s', P s → iteration cf solver s = inl s' → Q s') →
  ∀ (fuel : nat) s s', P s → loop fuel cf solver s = Some s' → Q s'.
Proof.
  intros Hstep Hlast. induction fuel as [|fuel IH]; intros s s' Hs; simpl; [done|].
  destruct (iteration cf solver s) as [s1|s1] eqn:Hturn.
  - intros [= <-]. by eapply Hlast.
  - apply IH. by eapply Hstep.
Qed.

Lemma names_and_bases_cached (user : Z → D) cs :
  names_and_bases (cached (cache_values user cs)) = names_and_bases cs.
Proof.
  unfold names_and_bases. rewrite cache_values_cached, <- list_fmap_compose.
  by apply list_fmap_ext.
Qed.

Lemma names_and_bases_updated (m : D) cs :
  names_and_bases (updated (update_duals m cs)) = names_and_bases cs.
Proof.
  unfold names_and_bases. rewrite update_duals_updated, <- list_fmap_compose.
  by apply list_fmap_ext.
Qed.

Lemma iteration_frame cf solver s s' :
  iteration cf solver s = inl s' ∨ iteration cf solver s = inr s' →
  objective (implementation s') = objective (implementation s) ∧
  augmented_lagrangian (implementation s') = augmented_lagrangian (implementation s) ∧
  names_and_bases (constraints (implementation s')) =
  names_and_bases (constraints (implementation s)).
Proof.
  intros Hturn. apply iteration_implementation in Hturn as (_ & Hobj & Hal & Hcs).
  split; [done|]. split; [done|].
  destruct Hcs as [(_ & [->| ->])|(_ & ->)];
    rewrite ?names_and_bases_updated; apply names_and_bases_cached.
Qed.

(** X22.  [solve] changes nothing of the problem but the penalty [mu], the
    multipliers and the cached values: when it returns, the objective, the
    augmented Lagrangian and the names and functions of the constraints are
    those it was called with. *)
Theorem solve_frame cf solver (user : Z → D) (fuel : nat) r :
  solve fuel solver user cf = Some r →
  objective (final_implementation r) = objective (impl cf) ∧
  augmented_lagrangian (final_implementation r) = augmented_lagrangian (impl cf) ∧
  (λ itr, (itr.1, base itr.2)) <$> constraints (final_implementation r) =
  (λ itr, (itr.1, base itr.2)) <$> constraints (impl cf).
Proof.
  unfold solve. case_bool_decide; [by intros [= <-]|].
  intros Hrun. apply fmap_Some in Hrun as (s' & Hloop & ->). cbn [finish final_implementation].
  set (P := λ s : State D,
         objective (implementation s) = objective (impl cf) ∧
         augmented_lagrangian (implementation s) = augmented_lagrangian (impl cf) ∧
         names_and_bases (constraints (implementation s)) =
         names_and_bases (constraints (impl cf))).
  refine (loop_invariant P P cf solver _ _ fuel _ s' _ Hloop).
  - intros s s1 (Hobj & Hal & Hcs) Hturn.
    destruct (iteration_frame cf solver s s1 (or_intror Hturn)) as (Ho & Ha & Hc).
    unfold P. by rewrite Ho, Ha, Hc.
  - intros s s1 (Hobj & Hal & Hcs) Hturn.
    destruct (iteration_frame cf solver s s1 (or_introl Hturn)) as (Ho & Ha & Hc).
    unfold P. by rewrite Ho, Ha, Hc.
  - done.
Qed.

Lemma cached_values_coherent (user : Z → D) (m : D) cs :
  let cs' := cached (cache_values user cs) in
  Forall (λ itr, cached_value itr.2 = Function.evaluate user (base itr.2)) cs' ∧
  Forall (λ itr, cached_value itr.2 = Function.evaluate user (base itr.2))
    (updated (update_duals m cs')).
Proof.
  cbn zeta. rewrite update_duals_updated, cache_values_cached. split.
  - apply Forall_fmap, Forall_forall. by intros itr _.
  - apply Forall_fmap, Forall_fmap, Forall_forall. by intros itr _.
Qed.

(** X23.  When [solve] returns from the loop, the cached value of every
    constraint is the value of that constraint at the point where the
    variables have been left. *)
Theorem solve_cached_values cf solver (user : Z → D) (fuel : nat) r :
  Function.get_number_of_variables (augmented_lagrangian (impl cf)) ≠ 0%nat →
  solve fuel solver user cf = Some r →
  Forall (λ itr, cached_value itr.2 = Function.evaluate (final_user_memory r) (base itr.2))
    (constraints (final_implementation r)).
Proof.
  intros Hvars. unfold solve. rewrite bool_decide_eq_false_2 by done.
  intros Hrun. apply fmap_Some in Hrun as (s' & Hloop & ->).
  cbn [finish final_implementation final_user_memory].
  set (Q := λ s : State D,
         Forall (λ itr, cached_value itr.2 = Function.evaluate (user_memory s) (base itr.2))
           (constraints (implementation s))).
  refine (loop_invariant (λ _, True) Q cf solver _ _ fuel _ s' I Hloop); [done|].
  intros s s1 _ Hturn. unfold Q.
  apply (λ H, iteration_implementation cf solver s s1 (or_introl H)) in Hturn
    as (-> & _ & _ & Hcs).
  destruct Hcs as [(_ & [->| ->])|(_ & ->)];
    apply cached_values_coherent; exact (dlit 0).
Qed.

(** X24.  On a problem with variables [solve] calls the inner solver at
    least once and at most [max(1, max_number_of_iterations)] times, and
    when it ends with [NO_CONVERGENCE] it has made exactly that many calls. *)
Theorem solve_number_of_calls cf solver (user : Z → D) (fuel : nat) r :
  Function.get_number_of_variables (augmented_lagrangian (impl cf)) ≠ 0%nat →
  solve fuel solver user cf = Some r →
  (1 ≤ Z.of_nat (length (solver_calls r)) ≤ Z.max 1 (max_number_of_iterations cf))%Z ∧
  (final_results r = NO_CONVERGENCE →
   Z.of_nat (length (solver_calls r)) = Z.max 1 (max_number_of_iterations cf)).
Proof.
  intros Hvars. unfold solve. rewrite bool_decide_eq_false_2 by done.
  intros Hrun. apply fmap_Some in Hrun as (s' & Hloop & ->).
  cbn [finish solver_calls final_results].
  set (P := λ s : State D,
         iterations s = Z.of_nat (length (inner_exit_conditions s)) ∧
         (iterations s = 0 ∨ iterations s < max_number_of_iterations cf)%Z).
  set (Q := λ s : State D,
         (1 ≤ Z.of_nat (length (inner_exit_conditions s))
            ≤ Z.max 1 (max_number_of_iterations cf))%Z ∧
         (results s = NO_CONVERGENCE →
          Z.of_nat (length (inner_exit_conditions s)) =
          Z.max 1 (max_number_of_iterations cf))).
  refine (loop_invariant P Q cf solver _ _ fuel _ s' _ Hloop).
  - intros s s1 [Hcount Hbound] Hturn.
    apply iteration_continue in Hturn as (_ & Hinner & Hnext & Hlt & _).
    split; [|by right]. rewrite Hnext, Hinner, length_app, Hcount. simpl. lia.
  - intros s s1 [Hcount Hbound] Hturn. unfold Q.
    pose proof (iteration_break cf solver s s1 Hturn) as (_ & Hinner & _).
    rewrite Hinner, length_app. simpl. split; [lia|].
    revert Hturn. unfold iteration.
    destruct (solve_unconstrained solver (implementation s) (user_memory s))
      as [user' written].
    destruct (function_tolerance_reached _ _ _); [by intros [= <-]|].
    destruct (_ <=? _)%D.
    + destruct (_ && _); [by intros [= <-]|].
      case_bool_decide; [|done]. intros [= <-] _. lia.
    + case_bool_decide; [|done]. intros [= <-] _. lia.
  - split; [done|by left].
Qed.

(** X25.  The penalty only grows by factors of 100 from its initial value
    10: when [solve] returns from the loop, [mu] is 10 multiplied by 100
    as many times as the loop took the penalty branch, which is at most
    once per call of the inner solver. *)
Theorem solve_penalty cf solver (user : Z → D) (fuel : nat) r :
  Function.get_number_of_variables (augmented_lagrangian (impl cf)) ≠ 0%nat →
  solve fuel solver user cf = Some r →
  ∃ k : nat, (k ≤ length (solver_calls r))%nat ∧
    mu (final_implementation r) = Nat.iter k (λ m, (m * dlit 100)%D) (dlit 10).
Proof.
  intros Hvars. unfold solve. rewrite bool_decide_eq_false_2 by done.
  intros Hrun. apply fmap_Some in Hrun as (s' & Hloop & ->).
  cbn [finish solver_calls final_implementation].
  set (P := λ s : State D,
         ∃ k : nat, (k ≤ length (inner_exit_conditions s))%nat ∧
           mu (implementation s) = Nat.iter k (λ m, (m * dlit 100)%D) (dlit 10)).
  assert (∀ s s1, P s →
            iteration cf solver s = inl s1 ∨ iteration cf solver s = inr s1 → P s1)
    as Hturn.
  { intros s s1 (k & Hk & Hmu) Hturn.
    assert (inner_exit_conditions s1 =
            inner_exit_conditions s ++ [(after_solver solver s).2]) as Hinner.
    { destruct Hturn as [Hturn|Hturn].
      - by apply iteration_break in Hturn as (_ & ? & _).
      - by apply iteration_continue in Hturn as (_ & ? & _). }
    apply iteration_implementation in Hturn as (_ & _ & _ & Hcs).
    unfold P. rewrite Hinner, length_app. simpl.
    destruct Hcs as [(-> & _)|(-> & _)].
    - exists k. split; [lia|done].
    - exists (S k). split; [lia|]. simpl. by rewrite Hmu. }
  refine (loop_invariant P P cf solver _ _ fuel _ s' _ Hloop).
  - intros s s1 HP Hiter. apply (Hturn s s1 HP). by right.
  - intros s s1 HP Hiter. apply (Hturn s s1 HP). by left.
  - exists 0%nat. split; [cbn; lia|done].
Qed.

End SolveFrame.

Section SolveBinary64.
Variable pow : spec_float → spec_float → spec_float.
Let binary64' : DoubleArith spec_float := b64_arith pow.
#[local] Existing Instance binary64'.

Import ConstrainedFunction.

(** X26.  In binary64 the largest violation found by the scan of the
    constraints is never NaN, whatever the constraints evaluate to: a NaN
    value fails the comparison of [std::max] and is skipped. *)
Theorem max_violation_not_NaN (user : Z → spec_float)
    (cs : list (string * Constraint spec_float)) :
  is_nan (max_violation (cache_values user cs)) = false ∧
  (Forall (λ itr, is_nan (Function.evaluate user (base itr.2)) = true) cs →
   max_violation (cache_values user cs) = dlit 0).
Proof.
  destruct (cache_values_max_violation user cs) as [Hz|(itr & a & Hin & Hv & Hlt)].
  - rewrite Hz. split; [by vm_compute|done].
  - assert (is_nan (Function.evaluate user (base itr.2)) = false) as Hnan.
    { change (SFltb a (Function.evaluate user (base itr.2)) = true) in Hlt.
      destruct (Function.evaluate user (base itr.2)); try done.
      unfold SFltb in Hlt.
      by rewrite (proj2 (SFcompare_nan a S754_nan) (or_intror eq_refl)) in Hlt. }
    rewrite Hv. split; [done|]. intros Hall.
    rewrite Forall_forall in Hall. specialize (Hall itr Hin). congruence.
Qed.

End SolveBinary64.

(** ** The point where solve reports GRADIENT_TOLERANCE *)

Section GradientTolerance.
Variable pow : spec_float → spec_float → spec_float.
Let binary64'' : DoubleArith spec_float := b64_arith pow.
#[local] Existing Instance binary64''.

Import ConstrainedFunction.

Lemma SFcompare_rank (a b : spec_float) :
  is_nan a = false → is_nan b = false →
  SFcompare a b =
  Some (if decide (rank_lt (SFrank a) (SFrank b)) then Lt
        else if decide (rank_lt (SFrank b) (SFrank a)) then Gt else Eq).
Proof.
  intros Ha Hb.
  destruct a as [sa|sa| |sa ma ea], b as [sb|sb| |sb mb eb]; try done;
    try (destruct sa); try (destruct sb); cbn [SFcompare SFrank];
    unfold rank_lt; cbn [fst snd];
    try (repeat case_decide; try reflexivity; lia).
  - destruct (Z.compare_spec ea eb) as [Heq|Hlt|Hgt].
    + change (Pos.compare_cont Eq ma mb) with (Pos.compare ma mb).
      destruct (Pos.compare_spec ma mb); cbn [CompOpp];
        repeat case_decide; try reflexivity; lia.
    + repeat case_decide; try reflexivity; lia.
    + repeat case_decide; try reflexivity; lia.
  - destruct (Z.compare_spec ea eb) as [Heq|Hlt|Hgt].
    + change (Pos.compare_cont Eq ma mb) with (Pos.compare ma mb).
      destruct (Pos.compare_spec ma mb);
        repeat case_decide; try reflexivity; lia.
    + repeat case_decide; try reflexivity; lia.
    + repeat case_decide; try reflexivity; lia.
Qed.

Lemma SFltb_rank (a b : spec_float) :
  is_nan a = false → is_nan b = false →
  SFltb a b = true ↔ rank_lt (SFrank a) (SFrank b).
Proof.
  intros Ha Hb. unfold SFltb. rewrite (SFcompare_rank a b Ha Hb).
  repeat case_decide; split; try done; intros Hlt; exfalso;
    unfold rank_lt in *; lia.
Qed.

Lemma SFltb_not_nan (a b : spec_float) : SFltb a b = true → is_nan b = false.
Proof.
  unfold SFltb. destruct b; try done.
  by rewrite (proj2 (SFcompare_nan a S754_nan) (or_intror eq_refl)).
Qed.

Lemma SFltb_not_nan_l (a b : spec_float) : SFltb a b = true → is_nan a = false.
Proof. unfold SFltb. by destruct a. Qed.

(** What [std::max] keeps is below the bound when the maximum is. *)
Lemma dmax_below (acc c bound : spec_float) :
  is_nan acc = false →
  SFltb (dmax acc c) bound = true →
  SFltb acc bound = true ∧ (is_nan c = true ∨ SFltb c bound = true).
Proof.
  intros Hacc. unfold dmax. change (acc <? c)%D with (SFltb acc c).
  destruct (SFltb acc c) eqn:Hlt; intros Hbound.
  - pose proof (SFltb_not_nan _ _ Hlt) as Hc.
    pose proof (SFltb_not_nan _ _ Hbound) as Hb.
    split; [|by right].
    apply SFltb_rank in Hlt, Hbound; try done. apply SFltb_rank; try done.
    unfold rank_lt in *. lia.
  - split; [done|]. destruct (is_nan c) eqn:Hc; [by left|right].
    pose proof (SFltb_not_nan _ _ Hbound) as Hb.
    apply SFltb_rank in Hbound; try done. apply SFltb_rank; try done.
    assert (¬ rank_lt (SFrank acc) (SFrank c)) as Hge.
    { intros Hr. apply SFltb_rank in Hr; try done. congruence. }
    unfold rank_lt in *. lia.
Qed.

Lemma dmax_not_nan (acc c : spec_float) : is_nan acc = false → is_nan (dmax acc c) = false.
Proof.
  intros Hacc. unfold dmax. change (acc <? c)%D with (SFltb acc c).
  destruct (SFltb acc c) eqn:Hlt; [|done]. by eapply SFltb_not_nan.
Qed.

(** When [max_violation] is below a bound, the value of every constraint
    is below it or is NaN. *)
Lemma max_violation_below (user : Z → spec_float)
    (cs : list (string * Constraint spec_float)) (bound : spec_float) :
  SFltb (max_violation (cache_values user cs)) bound = true →
  Forall (λ itr, is_nan (Function.evaluate user (base itr.2)) = true ∨
                 SFltb (Function.evaluate user (base itr.2)) bound = true) cs.
Proof.
  unfold cache_values.
  set (step := λ acc itr, _).
  assert (∀ acc : Violation spec_float,
            is_nan (max_violation acc) = false →
            SFltb (max_violation (foldl step acc cs)) bound = true →
            SFltb (max_violation acc) bound = true ∧
            Forall (λ itr, is_nan (Function.evaluate user (base itr.2)) = true ∨
                           SFltb (Function.evaluate user (base itr.2)) bound = true) cs)
    as Hgen.
  { induction cs as [|itr cs IH]; intros acc Hacc Hbound; cbn [foldl] in *.
    - split; [done|constructor].
    - destruct (IH (step acc itr)) as [Hstep Hall]; [|done|].
      { subst step. cbn [max_violation]. by apply dmax_not_nan. }
      subst step. cbn [max_violation] in Hstep.
      apply dmax_below in Hstep as [Hacc' Hc]; [|done].
      split; [done|]. by constructor. }
  intros Hbound. apply Hgen in Hbound as [_ Hall]; [done|].
  cbn [max_violation]. by vm_compute.
Qed.

(** X27.  In binary64, when [solve] ends with [GRADIENT_TOLERANCE], the
    cached value of every constraint is its value at the final point, and
    that value is below [1e-8] or is NaN. *)
Theorem gradient_tolerance_point (cf : ConstrainedFunction spec_float)
    (solver : Solver spec_float) (user : Z → spec_float) (fuel : nat)
    (r : Solved spec_float) :
  solve fuel solver user cf = Some r →
  final_results r = GRADIENT_TOLERANCE →
  Forall (λ itr,
            cached_value itr.2 = Function.evaluate (final_user_memory r) (base itr.2) ∧
            (is_nan (cached_value itr.2) = true ∨
             SFltb (cached_value itr.2) (b64_lit 1e-8) = true))
    (constraints (final_implementation r)).
Proof.
  unfold solve. case_bool_decide; [by intros [= <-]|].
  intros Hrun. apply fmap_Some in Hrun as (s' & Hloop & ->).
  cbn [finish final_implementation final_user_memory final_results].
  set (Q := λ s : State spec_float,
         results s = GRADIENT_TOLERANCE →
         Forall (λ itr,
                   cached_value itr.2 = Function.evaluate (user_memory s) (base itr.2) ∧
                   (is_nan (cached_value itr.2) = true ∨
                    SFltb (cached_value itr.2) (b64_lit 1e-8) = true))
           (constraints (implementation s))).
  refine (loop_invariant (λ _, True) Q cf solver _ _ fuel _ s' I Hloop); [done|].
  intros s s1 _ Hturn Hexit.
  destruct (iteration_gradient_tolerance cf solver s s1 Hturn Hexit)
    as (-> & _ & -> & Hviol).
  rewrite update_duals_updated, cache_values_cached.
  apply Forall_fmap, Forall_fmap.
  eapply Forall_impl; [exact (max_violation_below _ _ _ Hviol)|].
  intros itr Hitr. unfold compose. cbn [cached_value base fst snd]. by split.
Qed.

End GradientTolerance.

(** ** The value across the overloads *)

Section Values.
Context {D : Type} `{DoubleArith D}.
Implicit Types (f : Function D) (t : AddedTerm D) (s : Function.TermLoop D).

Lemma evaluate_terms_value f (x : list D) (ts : list (AddedTerm D)) s0 :
  (∀ t vars g, t ∈ ts → (evaluate_gradient (term t) vars g).1 = evaluate (term t) vars) →
  ∃ s, for_each ts (Function.evaluate_term false f x) s0 = Return s ∧
       Function.value s =
       foldl (λ value t, value + evaluate (term t) (Function.term_arguments f t))%D
         (Function.value s0) ts.
Proof.
  revert s0. induction ts as [|t ts IH]; intros s0 Hagree; simpl; [eauto|].
  unfold Function.evaluate_term at 1.
  pose proof (Hagree t (Function.term_arguments f t) (Function.thread_gradient_scratch s0)
                (list_elem_of_here _ _)) as Hvalue.
  destruct (evaluate_gradient (term t) _ _) as [v scratch]. cbn [fst] in Hvalue.
  edestruct IH as (s & -> & Hs).
  { intros t' vars g Hin. apply Hagree. by apply list_elem_of_further. }
  exists s. split; [done|]. rewrite Hs. cbn. by rewrite Hvalue.
Qed.

(** X28.  When the evaluator with gradient of every term returns the value
    that its plain evaluator returns, [evaluate(x, gradient)] returns the
    very value that [evaluate(x)] returns: the terms are added in the same
    order. *)
Theorem evaluate_with_gradient_value f (x gradient : list D) (scratch : list (list D)) :
  (∀ t vars g, t ∈ terms f →
     (evaluate_gradient (term t) vars g).1 = evaluate (term t) vars) →
  (Function.evaluate_with_gradient x gradient scratch f).1 =
  Return (Function.evaluate_at x f).
Proof.
  intros Hagree.
  unfold Function.evaluate_with_gradient, Function.evaluate_dense, Function.evaluate_at,
    Function.evaluate_from_local_storage.
  rewrite (bool_decide_eq_false_2 (is_Some None)) by (by intros [? ?]). cbn [andb].
  set (f' := Function.copy_global_to_local x f).
  destruct (evaluate_terms_value f' x (terms f') (Function.start_term_loop scratch f'))
    as (s & -> & Hs); [exact Hagree|].
  cbn [fst]. by rewrite Hs.
Qed.

End Values.

(** ** Phi and the Hessian overloads *)

Section PhiHessian.
Context {D : Type} `{DoubleArith D}.
Implicit Types (f : Function D) (t : AddedTerm D).

Lemma for_each_throws {A S : Type} (l : list A) (body : A → S → result S) (a : A) (s0 : S) :
  a ∈ l → (∀ s, ∃ what, body a s = Throw what) →
  ∃ what, for_each l body s0 = Throw what.
Proof.
  intros Hin Hthrows. revert s0.
  induction l as [|b l IH]; intros s0; [by apply elem_of_nil in Hin|].
  simpl. destruct (body b s0) as [s1|what] eqn:Hb; [|eauto].
  apply elem_of_cons in Hin as [->|Hin]; [|by apply IH].
  destruct (Hthrows s0) as [what Hwhat]. congruence.
Qed.

(** The last of a sequence of calls that all return was [add_term]: the
    term is among the terms of the Function. *)
Lemma perform_all_add_term (calls : list call) (tm : Term D) (args : list Z) f0 f :
  perform_all (calls ++ [add_term tm args]) f0 = Return f →
  ∃ t, t ∈ terms f ∧ term t = tm.
Proof.
  unfold perform_all. revert f0. induction calls as [|c calls IH]; intros f0; simpl.
  - destruct (Function.add_term tm args f0) as [f1|] eqn:Hadd; [|done].
    intros [= <-].
    destruct (add_term_Return tm args f0 f1 Hadd) as (_ & _ & _ & _ & t & Hts & Htm & _).
    exists t. split; [|done]. rewrite Hts. apply elem_of_app. right.
    by apply list_elem_of_singleton.
  - destruct (perform c f0) as [f1|]; [|done]. apply IH.
Qed.

(** X29.  A Function one of whose terms is a Phi cannot be evaluated with a
    Hessian: the dense and the sparse overload throw, and leave the
    [gradient] and the [hessian] of the caller as they were. *)
Theorem Phi_term_blocks_hessians f t (inner : Term D) (sigma mu : D)
    (x gradient : list D) (scratch : list (list D)) :
  t ∈ terms f → term t = Phi.as_Term inner sigma mu →
  (∀ m, ∃ what, Function.evaluate_dense x gradient (Some m) scratch f
                = (Throw what, gradient, Some m)) ∧
  (∀ h, ∃ what, Function.evaluate_sparse x gradient h scratch f
                = (Throw what, gradient, h)).
Proof.
  intros Hin Hterm. split.
  - intros m. unfold Function.evaluate_dense.
    rewrite bool_decide_eq_true_2 by eauto. cbn [andb].
    destruct (negb _); [eauto|].
    set (f' := Function.copy_global_to_local x f).
    destruct (for_each_throws (terms f') (Function.evaluate_term true f' x) t
                (Function.start_term_loop scratch f')) as [what ->]; [done| |eauto].
    intros s. unfold Function.evaluate_term. rewrite Hterm. cbn. eauto.
  - intros [m|]; unfold Function.evaluate_sparse; [|eauto].
    destruct (negb _); [eauto|].
    set (f' := Function.copy_global_to_local x f).
    destruct (for_each_throws (terms f') (Function.evaluate_term_sparse f') t
                (Function.start_term_loop scratch f')) as [what ->]; [done| |eauto].
    intros s. unfold Function.evaluate_term_sparse. rewrite Hterm. cbn. eauto.
Qed.

End PhiHessian.

(** ** The further properties at concrete inputs *)

Section ConcreteBinary64.
#[local] Existing Instance Examples.arith.
Import ConstrainedFunction.

Lemma registered_run :
  perform_all Examples.registrations Function.new = Return Examples.registered.
Proof.
  unfold Examples.registered.
  destruct (perform_all Examples.registrations Function.new) as [f|what] eqn:Hcalls;
    [reflexivity|].
  assert (match perform_all Examples.registrations Function.new with
          | Return _ => True
          | Throw _ => False
          end) as Hreturns by (vm_compute; exact I).
  rewrite Hcalls in Hreturns. destruct Hreturns.
Qed.

Lemma plain_registered_run :
  perform_all Examples.plain_registrations Function.new = Return Examples.plain_registered.
Proof.
  unfold Examples.plain_registered.
  destruct (perform_all Examples.plain_registrations Function.new) as [f|what] eqn:Hcalls;
    [reflexivity|].
  assert (match perform_all Examples.plain_registrations Function.new with
          | Return _ => True
          | Throw _ => False
          end) as Hreturns by (vm_compute; exact I).
  rewrite Hcalls in Hreturns. destruct Hreturns.
Qed.

Lemma plain_registered_ready :
  copy_ready Examples.plain_registered (replicate 3 (b64_lit 0)).
Proof.
  apply (built_copy_ready Examples.plain_registrations).
  - repeat constructor.
  - exact plain_registered_run.
  - vm_compute. reflexivity.
  - vm_compute. reflexivity.
Qed.

(** X2: a variable registered as it is can be registered again with a
    change of variables. *)
Lemma add_variable_internal_again_witness :
  ∃ f, Function.add_variable_internal 0 1 None Function.new = Return f ∧
       Function.add_variable_internal 0 1 (Some Examples.doubling) f = Return f.
Proof.
  destruct (Function.add_variable_internal 0 1 None Function.new) as [f|what] eqn:Hcall.
  - exists f. split; [reflexivity|].
    exact (add_variable_internal_again 0 1 None (Some Examples.doubling) _ f Hcall).
  - vm_compute in Hcall. discriminate.
Defined.

(** X4 on [Examples.registrations]. *)
Lemma built_well_formed_witness :
  perform_all Examples.registrations Function.new = Return Examples.registered ∧
  well_formed Examples.registered.
Proof.
  split; [exact registered_run|].
  exact (built_well_formed Examples.registrations Examples.registered registered_run).
Defined.

(** X5 on [Examples.registrations]: three variables. *)
Lemma number_of_variables_registered_witness :
  perform_all Examples.registrations Function.new = Return Examples.registered ∧
  Function.get_number_of_variables Examples.registered = 3%nat.
Proof.
  split; [exact registered_run|].
  rewrite (number_of_variables_registered Examples.registrations Examples.registered
             registered_run).
  vm_compute. reflexivity.
Defined.

(** X6 on [Examples.registrations]. *)
Lemma built_disjoint_ranges_witness :
  perform_all Examples.registrations Function.new = Return Examples.registered ∧
  Forall nonnegative_t_dimension Examples.registrations ∧
  (solver_total Examples.registered < 2 ^ 64)%Z ∧
  disjoint_ranges Examples.registered.
Proof.
  assert (Forall nonnegative_t_dimension Examples.registrations) as Hcalls.
  { repeat constructor. cbn. lia. }
  assert (solver_total Examples.registered < 2 ^ 64)%Z as Hfit.
  { vm_compute. reflexivity. }
  split; [exact registered_run|]. split; [exact Hcalls|]. split; [exact Hfit|].
  exact (built_disjoint_ranges Examples.registrations Examples.registered
           registered_run Hcalls Hfit).
Defined.

(** X7 on [Examples.plain_registered] and the memory [Examples.counting]. *)
Lemma copy_user_to_global_to_user_witness :
  copy_ready Examples.plain_registered (replicate 3 (b64_lit 0)) ∧
  Function.copy_global_to_user
    (Function.copy_user_to_global Examples.counting (replicate 3 (b64_lit 0))
       Examples.plain_registered)
    Examples.counting Examples.plain_registered 8 = Examples.counting 8.
Proof.
  split; [exact plain_registered_ready|].
  exact (copy_user_to_global_to_user Examples.counting (replicate 3 (b64_lit 0))
           Examples.plain_registered plain_registered_ready 8%Z).
Defined.

(** X8 on [Examples.plain_registered]. *)
Lemma evaluate_at_copy_user_to_global_witness :
  copy_ready Examples.plain_registered (replicate 3 (b64_lit 0)) ∧
  Function.evaluate_at
    (Function.copy_user_to_global Examples.counting (replicate 3 (b64_lit 0))
       Examples.plain_registered)
    Examples.plain_registered = b64_of_Z 8.
Proof.
  split; [exact plain_registered_ready|].
  rewrite (evaluate_at_copy_user_to_global Examples.counting (replicate 3 (b64_lit 0))
             Examples.plain_registered plain_registered_ready).
  vm_compute. reflexivity.
Defined.

(** X9 on [Examples.registered]: its term has two arguments, of two and
    three scalars. *)
Lemma scratch_suffices_witness :
  well_formed Examples.registered ∧
  match terms Examples.registered with
  | [] => False
  | t :: _ =>
      t ∈ terms Examples.registered ∧
      (number_of_variables (term t) ≤ Function.max_arity Examples.registered)%nat
  end.
Proof.
  assert (well_formed Examples.registered) as Hwf.
  { exact (perform_all_well_formed _ _ _ well_formed_new registered_run). }
  split; [exact Hwf|].
  destruct (terms Examples.registered) as [|t ts] eqn:Hterms.
  - vm_compute in Hterms. discriminate.
  - assert (t ∈ terms Examples.registered) as Hin
      by (rewrite Hterms; apply list_elem_of_here).
    split; [by rewrite <- Hterms|].
    exact (proj1 (scratch_suffices Examples.registered t Hwf Hin)).
Defined.

End ConcreteBinary64.

Section ConcreteFailures.
#[local] Existing Instance Examples.arith.
Import ConstrainedFunction.

(** X11 on [Examples.transformed]: the failure of line 512. *)
Lemma evaluate_dense_failure_witness :
  ∃ g' h', Function.evaluate_dense [b64_lit 1] [b64_lit 7]
             (Some {| rows := 0; cols := 0; coeff := λ _ _, b64_lit 0 |})
             [[b64_lit 0]] Examples.transformed
           = (Throw Function.not_supported_for_Hessians, g', h') ∧
           g' ≠ [b64_lit 7].
Proof.
  destruct (Function.evaluate_dense [b64_lit 1] [b64_lit 7]
              (Some {| rows := 0; cols := 0; coeff := λ _ _, b64_lit 0 |})
              [[b64_lit 0]] Examples.transformed) as [[[v|what] g'] h'] eqn:Hcall.
  - exfalso.
    assert (match (Function.evaluate_dense [b64_lit 1] [b64_lit 7]
                     (Some {| rows := 0; cols := 0; coeff := λ _ _, b64_lit 0 |})
                     [[b64_lit 0]] Examples.transformed).1.1 with
            | Return _ => False
            | Throw _ => True
            end) as Hthrows by (vm_compute; exact I).
    by rewrite Hcall in Hthrows.
  - assert ((Function.evaluate_dense [b64_lit 1] [b64_lit 7]
               (Some {| rows := 0; cols := 0; coeff := λ _ _, b64_lit 0 |})
               [[b64_lit 0]] Examples.transformed).1.2 = [b64_lit 2]) as Hgradient
      by (vm_compute; reflexivity).
    rewrite Hcall in Hgradient. cbn in Hgradient.
    destruct (evaluate_dense_failure Examples.transformed [b64_lit 1] [b64_lit 7]
                (Some {| rows := 0; cols := 0; coeff := λ _ _, b64_lit 0 |})
                [[b64_lit 0]] what g' h' Hcall) as [[Hg _]| ->].
    + rewrite Hgradient in Hg. by vm_compute in Hg.
    + exists g', h'. split; [reflexivity|]. rewrite Hgradient. by vm_compute.
Defined.

(** X12 on [Examples.transformed]: the call fails and the gradient of the
    caller is still [7]. *)
Lemma evaluate_sparse_failure_witness :
  ∃ what h', Function.evaluate_sparse [b64_lit 1] [b64_lit 7]
               (Some {| sparse_rows := 0; sparse_cols := 0; entries := ∅ |})
               [[b64_lit 0]] Examples.transformed
             = (Throw what, [b64_lit 7], h').
Proof.
  destruct (Function.evaluate_sparse [b64_lit 1] [b64_lit 7]
              (Some {| sparse_rows := 0; sparse_cols := 0; entries := ∅ |})
              [[b64_lit 0]] Examples.transformed) as [[[v|what] g'] h'] eqn:Hcall.
  - exfalso.
    assert (match (Function.evaluate_sparse [b64_lit 1] [b64_lit 7]
                     (Some {| sparse_rows := 0; sparse_cols := 0; entries := ∅ |})
                     [[b64_lit 0]] Examples.transformed).1.1 with
            | Return _ => False
            | Throw _ => True
            end) as Hthrows by (vm_compute; exact I).
    by rewrite Hcall in Hthrows.
  - exists what, h'.
    destruct (evaluate_sparse_failure Examples.transformed [b64_lit 1] [b64_lit 7]
                (Some {| sparse_rows := 0; sparse_cols := 0; entries := ∅ |})
                [[b64_lit 0]] what g' h' Hcall) as [-> _].
    reflexivity.
Defined.

(** X13 on the identity term. *)
Lemma evaluate_dense_returns_witness :
  ∃ v g' h', Function.evaluate_dense [b64_lit 1] [b64_lit 7]
               (Some {| rows := 0; cols := 0; coeff := λ _ _, b64_lit 0 |})
               [[b64_lit 0]] (Examples.function_of Examples.identity)
             = (Return v, g', h') ∧
             length g' = 1%nat.
Proof.
  destruct (Function.evaluate_dense [b64_lit 1] [b64_lit 7]
              (Some {| rows := 0; cols := 0; coeff := λ _ _, b64_lit 0 |})
              [[b64_lit 0]] (Examples.function_of Examples.identity))
    as [[[v|what] g'] h'] eqn:Hcall.
  - exists v, g', h'. split; [reflexivity|].
    destruct (evaluate_dense_returns (Examples.function_of Examples.identity)
                [b64_lit 1] [b64_lit 7]
                {| rows := 0; cols := 0; coeff := λ _ _, b64_lit 0 |}
                [[b64_lit 0]] v g' h' Hcall) as (_ & -> & _).
    vm_compute. reflexivity.
  - exfalso.
    assert (match (Function.evaluate_dense [b64_lit 1] [b64_lit 7]
                     (Some {| rows := 0; cols := 0; coeff := λ _ _, b64_lit 0 |})
                     [[b64_lit 0]] (Examples.function_of Examples.identity)).1.1 with
            | Return _ => True
            | Throw _ => False
            end) as Hreturns by (vm_compute; exact I).
    by rewrite Hcall in Hreturns.
Defined.

(** X14 on the identity term. *)
Lemma evaluate_sparse_returns_witness :
  ∃ v g' h', Function.evaluate_sparse [b64_lit 1] [b64_lit 7]
               (Some {| sparse_rows := 0; sparse_cols := 0; entries := ∅ |})
               [[b64_lit 0]] (Examples.function_of Examples.identity)
             = (Return v, g', h') ∧
             ∀ t, t ∈ terms (Examples.function_of Examples.identity) →
                  change_of_variables
                    (Function.argument (Examples.function_of Examples.identity) t 0) = None.
Proof.
  destruct (Function.evaluate_sparse [b64_lit 1] [b64_lit 7]
              (Some {| sparse_rows := 0; sparse_cols := 0; entries := ∅ |})
              [[b64_lit 0]] (Examples.function_of Examples.identity))
    as [[[v|what] g'] h'] eqn:Hcall.
  - exists v, g', h'. split; [reflexivity|]. intros t Hin.
    apply (evaluate_sparse_returns (Examples.function_of Examples.identity)
             [b64_lit 1] [b64_lit 7]
             (Some {| sparse_rows := 0; sparse_cols := 0; entries := ∅ |})
             [[b64_lit 0]] v g' h' Hcall t 0%nat Hin).
    vm_compute in Hin. apply list_elem_of_singleton in Hin as ->. cbn. lia.
  - exfalso.
    assert (match (Function.evaluate_sparse [b64_lit 1] [b64_lit 7]
                     (Some {| sparse_rows := 0; sparse_cols := 0; entries := ∅ |})
                     [[b64_lit 0]] (Examples.function_of Examples.identity)).1.1 with
            | Return _ => True
            | Throw _ => False
            end) as Hreturns by (vm_compute; exact I).
    by rewrite Hcall in Hreturns.
Defined.

(** X17 on the identity term: the one row of the gradient keeps its
    length. *)
Lemma Phi_gradient_frame_witness :
  (evaluate_gradient Examples.identity [[b64_lit 3]] [[b64_lit 0]]).2 !! 0%nat
    = Some [b64_lit 1] ∧
  ∃ row', (Phi.evaluate_gradient Examples.identity (b64_lit 1) (b64_lit 2)
             [[b64_lit 3]] [[b64_lit 0]]).2 !! 0%nat = Some row' ∧
          length row' = 1%nat.
Proof.
  assert ((evaluate_gradient Examples.identity [[b64_lit 3]] [[b64_lit 0]]).2 !! 0%nat
          = Some [b64_lit 1]) as Hrow by reflexivity.
  split; [exact Hrow|].
  destruct (Phi_gradient_frame Examples.identity (b64_lit 1) (b64_lit 2)
              [[b64_lit 3]] [[b64_lit 0]] 0 [b64_lit 1] Hrow) as (row' & Hrow' & Hlen & _).
  exists row'. split; [exact Hrow'|exact Hlen].
Defined.

(** The run of [solve] that the next four lemmas look at. *)
Lemma problem_run :
  ∃ r, solve 10 Examples.idle_solver Examples.memory (Examples.problem (b64_lit 0.5) 10)
       = Some r.
Proof.
  destruct (solve 10 Examples.idle_solver Examples.memory
              (Examples.problem (b64_lit 0.5) 10)) as [r|] eqn:Hrun; [eauto|].
  exfalso.
  assert (match solve 10 Examples.idle_solver Examples.memory
                  (Examples.problem (b64_lit 0.5) 10) with
          | Some _ => True
          | None => False
          end) as Hreturns by (vm_compute; exact I).
  by rewrite Hrun in Hreturns.
Qed.

Lemma problem_variables :
  Function.get_number_of_variables
    (augmented_lagrangian (impl (Examples.problem (b64_lit 0.5) 10))) ≠ 0%nat.
Proof. vm_compute. discriminate. Qed.

(** X22 on [Examples.problem]. *)
Lemma solve_frame_witness :
  ∃ r, solve 10 Examples.idle_solver Examples.memory (Examples.problem (b64_lit 0.5) 10)
       = Some r ∧
       objective (final_implementation r)
       = objective (impl (Examples.problem (b64_lit 0.5) 10)).
Proof.
  destruct problem_run as [r Hrun]. exists r. split; [exact Hrun|].
  exact (proj1 (solve_frame (Examples.problem (b64_lit 0.5) 10) Examples.idle_solver
                  Examples.memory 10 r Hrun)).
Defined.

(** X23 on [Examples.problem]. *)
Lemma solve_cached_values_witness :
  ∃ r, solve 10 Examples.idle_solver Examples.memory (Examples.problem (b64_lit 0.5) 10)
       = Some r ∧
       Forall (λ itr, cached_value itr.2
                      = Function.evaluate (final_user_memory r) (base itr.2))
         (constraints (final_implementation r)).
Proof.
  destruct problem_run as [r Hrun]. exists r. split; [exact Hrun|].
  exact (solve_cached_values (Examples.problem (b64_lit 0.5) 10) Examples.idle_solver
           Examples.memory 10 r problem_variables Hrun).
Defined.

(** X24 on [Examples.problem]: between one and ten calls. *)
Lemma solve_number_of_calls_witness :
  ∃ r, solve 10 Examples.idle_solver Examples.memory (Examples.problem (b64_lit 0.5) 10)
       = Some r ∧
       (1 ≤ Z.of_nat (length (solver_calls r)) ≤ 10)%Z.
Proof.
  destruct problem_run as [r Hrun]. exists r. split; [exact Hrun|].
  exact (proj1 (solve_number_of_calls (Examples.problem (b64_lit 0.5) 10)
                  Examples.idle_solver Examples.memory 10 r problem_variables Hrun)).
Defined.

(** X25 on [Examples.problem]. *)
Lemma solve_penalty_witness :
  ∃ r, solve 10 Examples.idle_solver Examples.memory (Examples.problem (b64_lit 0.5) 10)
       = Some r ∧
       ∃ k : nat, (k ≤ length (solver_calls r))%nat ∧
         mu (final_implementation r) = Nat.iter k (λ m, (m * dlit 100)%D) (dlit 10).
Proof.
  destruct problem_run as [r Hrun]. exists r. split; [exact Hrun|].
  exact (solve_penalty (Examples.problem (b64_lit 0.5) 10) Examples.idle_solver
           Examples.memory 10 r problem_variables Hrun).
Defined.

(** X15 on [Examples.registered]: the entry at (0, 2) couples the first
    scalar of the variable at 0 with the first of the variable at 16. *)
Lemma sparse_pattern_symmetric_witness :
  stored (Function.create_sparse_hessian
            {| sparse_rows := 0; sparse_cols := 0; entries := ∅ |}
            Examples.registered).1 0 2 ∧
  stored (Function.create_sparse_hessian
            {| sparse_rows := 0; sparse_cols := 0; entries := ∅ |}
            Examples.registered).1 2 0.
Proof.
  assert (stored (Function.create_sparse_hessian
                    {| sparse_rows := 0; sparse_cols := 0; entries := ∅ |}
                    Examples.registered).1 0 2) as Hstored.
  { vm_compute. eauto. }
  split; [exact Hstored|].
  exact (sparse_pattern_symmetric _ Examples.registered 0 2 Hstored).
Defined.

End ConcreteFailures.

Section ConcreteExact.
Open Scope R_scope.

(** X19 at [sigma = 1], [mu = 2] and the identity term at [x = 3]. *)
Lemma Phi_closed_form_witness :
  0 < 2 ∧
  Phi.inactive_value 1 2 <= Phi.evaluate Examples.real_identity 1 2 [[3]].
Proof.
  split; [lra|].
  refine (proj2 (Phi_closed_form Examples.real_identity 1 2 [[3]] _)). lra.
Defined.

(** X20 for the identity term between [x = 3] and [x = 4]. *)
Lemma Phi_monotone_witness :
  0 < 2 ∧
  evaluate Examples.real_identity [[3]] <= evaluate Examples.real_identity [[4]] ∧
  Phi.evaluate Examples.real_identity 1 2 [[3]]
    <= Phi.evaluate Examples.real_identity 1 2 [[4]].
Proof.
  assert (evaluate Examples.real_identity [[3]] <= evaluate Examples.real_identity [[4]])
    as Hle by (cbn; lra).
  split; [lra|]. split; [exact Hle|].
  refine (Phi_monotone Examples.real_identity 1 2 [[3]] [[4]] _ Hle). lra.
Defined.

(** X21 for the identity term at the feasible point [x = -3]. *)
Lemma Phi_feasible_witness :
  0 < 2 ∧ 0 <= 1 ∧ evaluate Examples.real_identity [[-3]] <= 0 ∧
  Phi.evaluate Examples.real_identity 1 2 [[-3]] <= 0.
Proof.
  assert (evaluate Examples.real_identity [[-3]] <= 0) as Hfeasible by (cbn; lra).
  split; [lra|]. split; [lra|]. split; [exact Hfeasible|].
  refine (proj1 (Phi_feasible Examples.real_identity 1 2 [[-3]] _ _) Hfeasible); lra.
Defined.

End ConcreteExact.


Section ConcreteValues.
#[local] Existing Instance Examples.arith.

(** X28 on the identity term at [x = 1]. *)
Lemma evaluate_with_gradient_value_witness :
  (∀ t vars g, t ∈ terms (Examples.function_of Examples.identity) →
     (evaluate_gradient (term t) vars g).1 = evaluate (term t) vars) ∧
  (Function.evaluate_with_gradient [b64_lit 1] [b64_lit 7] [[b64_lit 0]]
     (Examples.function_of Examples.identity)).1 = Return (b64_lit 1).
Proof.
  assert (∀ t vars g, t ∈ terms (Examples.function_of Examples.identity) →
            (evaluate_gradient (term t) vars g).1 = evaluate (term t) vars) as Hagree.
  { intros t vars g Hin. vm_compute in Hin.
    apply list_elem_of_singleton in Hin as ->. reflexivity. }
  split; [exact Hagree|].
  rewrite (evaluate_with_gradient_value (Examples.function_of Examples.identity)
             [b64_lit 1] [b64_lit 7] [[b64_lit 0]] Hagree).
  vm_compute. reflexivity.
Defined.

End ConcreteValues.

Section ConcretePhi.
#[local] Existing Instance Examples.arith.

(** X29 on the Function whose one term is the Phi of the identity. *)
Lemma Phi_term_blocks_hessians_witness :
  ∃ t what,
    t ∈ terms Examples.penalised ∧
    term t = Phi.as_Term Examples.identity (b64_lit 1) (b64_lit 2) ∧
    Function.evaluate_sparse [b64_lit 1] [b64_lit 7] None [[b64_lit 0]] Examples.penalised
    = (Throw what, [b64_lit 7], None).
Proof.
  assert (perform_all
            ([add_variable 0 1 None] ++
             [add_term (Phi.as_Term Examples.identity (b64_lit 1) (b64_lit 2)) [0%Z]])
            Function.new = Return Examples.penalised) as Hrun.
  { unfold Examples.penalised, Examples.function_of. cbn [app].
    destruct (perform_all _ Function.new) as [f|what] eqn:Hcalls; [reflexivity|].
    assert (match perform_all
                    [add_variable 0 1 None;
                     add_term (Phi.as_Term Examples.identity (b64_lit 1) (b64_lit 2)) [0%Z]]
                    Function.new with
            | Return _ => True
            | Throw _ => False
            end) as Hreturns by (vm_compute; exact I).
    rewrite Hcalls in Hreturns. destruct Hreturns. }
  destruct (perform_all_add_term _ _ _ _ _ Hrun) as (t & Hin & Hterm).
  destruct (Phi_term_blocks_hessians Examples.penalised t Examples.identity
              (b64_lit 1) (b64_lit 2) [b64_lit 1] [b64_lit 7] [[b64_lit 0]] Hin Hterm)
    as [_ Hsparse].
  destruct (Hsparse None) as [what Hwhat].
  exists t, what. split; [exact Hin|]. split; [exact Hterm|exact Hwhat].
Defined.

End ConcretePhi.

Section ConcreteGradientTolerance.
#[local] Existing Instance Examples.arith.
Import ConstrainedFunction.

(** X27 on a problem whose constraint has the value 0: the first turn of
    the loop ends with [GRADIENT_TOLERANCE]. *)
Lemma gradient_tolerance_point_witness :
  ∃ r, solve 10 Examples.idle_solver Examples.memory (Examples.problem (b64_lit 0) 10)
       = Some r ∧
       final_results r = GRADIENT_TOLERANCE ∧
       Forall (λ itr,
                 cached_value itr.2
                 = Function.evaluate (final_user_memory r) (base itr.2) ∧
                 (is_nan (cached_value itr.2) = true ∨
                  SFltb (cached_value itr.2) (b64_lit 1e-8) = true))
         (constraints (final_implementation r)).
Proof.
  assert (final_results <$> solve 10 Examples.idle_solver Examples.memory
                              (Examples.problem (b64_lit 0) 10)
          = Some GRADIENT_TOLERANCE) as Hexit by (vm_compute; reflexivity).
  destruct (solve 10 Examples.idle_solver Examples.memory
              (Examples.problem (b64_lit 0) 10)) as [r|] eqn:Hrun; [|discriminate].
  injection Hexit as Hexit.
  exists r. split; [reflexivity|]. split; [exact Hexit|].
  exact (gradient_tolerance_point Examples.pow (Examples.problem (b64_lit 0) 10)
           Examples.idle_solver Examples.memory 10 r Hrun Hexit).
Defined.

End ConcreteGradientTolerance.
